(** * MOHO: multi-objective hippopotamus optimiser (src/MOHO/MOHO.py)

    A shallow embedding of the optimisation core: Pareto dominance, fast
    non-dominated sorting with crowding distance, the three movement phases
    with their dominance-gated replacement, and the merge/sort/select
    environmental selection.

    Numbers.  Finite floating-point values are modelled by the rationals
    they denote ([Qc], canonical rationals with Leibniz equality); order
    tests on finite floats agree with the order of the rationals.
    Arithmetic is exact: rounding is outside the model.  The only
    non-finite value the sorter manipulates, [np.inf], is the constructor
    [PInf] of [efloat]. *)

From Stdlib Require Import ZArith QArith Qcanon List Lia Lqa.
From stdpp Require Import base numbers list sorting gmap.

Local Open Scope Z_scope.

(** ** Vectors and matrices *)

Abbreviation vec := (list Qc).
Abbreviation matrix := (list (list Qc)).

Global Instance Qc_inhabited : Inhabited Qc := populate 0%Qc.

(** [np.all] and [np.any] of a boolean array. *)
Definition np_all (bs : list bool) : bool := forallb id bs.
Definition np_any (bs : list bool) : bool := existsb id bs.

(** Elementwise [a <= b] and [a < b] of two arrays. *)
Definition arr_le (a b : vec) : list bool :=
  zip_with (fun x y => bool_decide (x ≤ y)%Qc) a b.
Definition arr_lt (a b : vec) : list bool :=
  zip_with (fun x y => bool_decide (x < y)%Qc) a b.

(** ** Module one: Pareto dominance *)

(** [determine_dominance(score1, score2)], lines 36-49. *)
Definition determine_dominance (score1 score2 : vec) : Z :=
  if np_all (arr_le score1 score2) && np_any (arr_lt score1 score2) then 1
  else if np_all (arr_le score2 score1) && np_any (arr_lt score2 score1) then -1
  else 0.

(** The relation of the specification: every coordinate of [a] is at most
    the matching coordinate of [b], and one is strictly smaller. *)
Definition dominates (a b : vec) : Prop :=
  (∀ k x y, a !! k = Some x → b !! k = Some y → (x ≤ y)%Qc) ∧
  (∃ k x y, a !! k = Some x ∧ b !! k = Some y ∧ (x < y)%Qc).

(** Rational literals used in examples. *)
Definition qz (n : Z) : Qc := Qc_of_Z n.
Definition qfrac (n : Z) (d : positive) : Qc := Q2Qc (n # d).

(** ** Array primitives of numpy used by the sorter *)

(** Extended reals of the crowding arrays: a finite value or [np.inf]. *)
Inductive efloat := Fin (q : Qc) | PInf.

Global Instance efloat_inhabited : Inhabited efloat := populate (Fin 0%Qc).
Global Instance efloat_eq_dec : EqDecision efloat.
Proof. solve_decision. Defined.

(** [x + y] on a crowding entry: infinity absorbs. *)
Definition eadd (x y : efloat) : efloat :=
  match x, y with
  | Fin a, Fin b => Fin (a + b)%Qc
  | _, _ => PInf
  end.

(** The order [x <= y] of floats, infinity on top. *)
Definition ele (x y : efloat) : Prop :=
  match x, y with
  | Fin a, Fin b => (a ≤ b)%Qc
  | _, PInf => True
  | PInf, Fin _ => False
  end.

Global Instance ele_dec : RelDecision ele.
Proof. intros [a|] [b|]; simpl; apply _. Defined.

(** [np.where(test)[0]]: the positions whose entry passes, increasing. *)
Definition np_where {A} (test : A → bool) (a : list A) : list nat :=
  List.filter (λ i, from_option test false (a !! i)) (seq 0 (length a)).

(** [a[idx] = x] for an index array [idx]. *)
Definition put_all {A} (a : list A) (idx : list nat) (x : A) : list A :=
  foldl (λ acc i, <[i := x]> acc) a idx.

(** [a[idx] = values] for an index array and as many values. *)
Definition put_each {A} (a : list A) (idx : list nat) (values : list A) : list A :=
  foldl (λ acc iv, <[iv.1 := iv.2]> acc) a (zip idx values).

(** [m[idx, :]]: the rows at the given indices. *)
Definition take_rows (m : matrix) (idx : list nat) : matrix :=
  (λ i, m !!! i) <$> idx.

(** [m[i, k]]. *)
Definition entry (m : matrix) (i k : nat) : Qc := (m !!! i) !!! k.

(** [m[:, k]]. *)
Definition column (m : matrix) (k : nat) : vec := (λ r, r !!! k) <$> m.

(** [a[-1]]. *)
Definition last_of (a : list nat) : nat := a !!! (length a - 1)%nat.

(** [n_obj] of [pop_size, n_obj = scores.shape]. *)
Definition n_obj_of (scores : matrix) : nat :=
  match scores with
  | r :: _ => length r
  | [] => 0%nat
  end.

(** ** Module one: fast non-dominated sorting (lines 52-123) *)

(** Body of the pair loop, lines 64-70. *)
Definition compare_pair (scores : matrix) (i j : nat)
    (st : list (list nat) * list Z) : list (list nat) * list Z :=
  let '(domination_sets, dominated_counts) := st in
  let dominance_status := determine_dominance (scores !!! i) (scores !!! j) in
  if dominance_status =? 1 then
    (alter (λ s, s ++ [j]) i domination_sets, alter Z.succ j dominated_counts)
  else if dominance_status =? -1 then
    (alter (λ s, s ++ [i]) j domination_sets, alter Z.succ i dominated_counts)
  else st.

(** Lines 59-70: [domination_sets] and [dominated_counts]. *)
Definition count_dominations (scores : matrix) : list (list nat) * list Z :=
  let pop_size := length scores in
  foldl (λ st i,
           foldl (λ st j, compare_pair scores i j st) st
                 (seq (S i) (pop_size - S i)))
        (replicate pop_size [], replicate pop_size 0)
        (seq 0 pop_size).

(** Lines 85-87: one decrement, and the append when the count hits zero. *)
Definition release (acc : list Z * list nat) (j : nat) : list Z * list nat :=
  let '(dominated_counts, next_front_indices) := acc in
  let dominated_counts := alter Z.pred j dominated_counts in
  if dominated_counts !!! j =? 0
  then (dominated_counts, next_front_indices ++ [j])
  else (dominated_counts, next_front_indices).

(** Lines 82-87 for one front. *)
Definition release_front (domination_sets : list (list nat))
    (current : list nat) (dominated_counts : list Z) : list Z * list nat :=
  foldl (λ acc i, foldl release acc (domination_sets !!! i))
        (dominated_counts, []) current.

(** The variables of the [while] loop of lines 78-90. *)
Record peel_state := PeelState {
  ps_ranks : list Z;
  ps_fronts : list (list nat);
  ps_counts : list Z;
  ps_current : list nat;
  ps_front_num : Z
}.

(** One iteration of the [while] loop, lines 79-90. *)
Definition peel_step (domination_sets : list (list nat)) (st : peel_state)
    : peel_state :=
  let ranks := put_all (ps_ranks st) (ps_current st) (ps_front_num st) in
  let fronts := ps_fronts st ++ [ps_current st] in
  let '(counts, next_front_indices) :=
    release_front domination_sets (ps_current st) (ps_counts st) in
  PeelState ranks fronts counts next_front_indices (ps_front_num st + 1).

(** The [while current_front_indices.size > 0] loop; [None] when the
    iteration budget is used up before the loop exits. *)
Fixpoint peel (fuel : nat) (domination_sets : list (list nat))
    (st : peel_state) : option peel_state :=
  match ps_current st with
  | [] => Some st
  | _ :: _ =>
      match fuel with
      | O => None
      | S fuel => peel fuel domination_sets (peel_step domination_sets st)
      end
  end.

(** Part 1 of [non_dominated_sort]: ranks and the list of fronts. *)
Definition sort_fronts (scores : matrix) : option peel_state :=
  let pop_size := length scores in
  let '(domination_sets, dominated_counts) := count_dominations scores in
  peel pop_size domination_sets
       (PeelState (replicate pop_size 0) [] dominated_counts
                  (np_where (λ c, c =? 0) dominated_counts) 1).

Section Sorter.
(** [np.argsort]: numpy's default sort is not stable, so the order among
    equal keys is left to the implementation. *)
Variable argsort : list efloat → list nat.

(** Lines 104-119: the contribution of objective [m] to a front. *)
Definition crowd_objective (front_scores : matrix) (n_front : nat)
    (distances_in_front : list efloat) (m : nat) : list efloat :=
  let sort_idx := argsort (Fin <$> column front_scores m) in
  let f_min := entry front_scores (sort_idx !!! 0%nat) m in
  let f_max := entry front_scores (last_of sort_idx) m in
  if decide (f_max = f_min) then distances_in_front
  else
    let d := <[sort_idx !!! 0%nat := PInf]> distances_in_front in
    let d := <[last_of sort_idx := PInf]> d in
    foldl (λ d i,
             alter (λ x, eadd x (Fin
                 ((entry front_scores (sort_idx !!! (i + 1)%nat) m
                   - entry front_scores (sort_idx !!! (i - 1)%nat) m)
                  / (f_max - f_min))%Qc))
               (sort_idx !!! i) d)
          d (seq 1 (n_front - 2)).

(** Lines 99-119: [distances_in_front] of a front of more than two. *)
Definition front_distances (scores : matrix) (n_obj : nat)
    (front : list nat) : list efloat :=
  let front_scores := take_rows scores front in
  let n_front := length front in
  foldl (crowd_objective front_scores n_front)
        (replicate n_front (Fin 0%Qc)) (seq 0 n_obj).

(** Body of [for front in fronts], lines 95-121. *)
Definition crowd_front (scores : matrix) (n_obj : nat)
    (crowding_distances : list efloat) (front : list nat) : list efloat :=
  if decide (length front ≤ 2)%nat
  then put_all crowding_distances front PInf
  else put_each crowding_distances front (front_distances scores n_obj front).

(** Part 2 of [non_dominated_sort], lines 93-121. *)
Definition crowding (scores : matrix) (fronts : list (list nat))
    : list efloat :=
  foldl (crowd_front scores (n_obj_of scores))
        (replicate (length scores) (Fin 0%Qc)) fronts.

(** [non_dominated_sort(scores)]: ranks and crowding distances. *)
Definition non_dominated_sort (scores : matrix)
    : option (list Z * list efloat) :=
  st ← sort_fronts scores;
  Some (ps_ranks st, crowding scores (ps_fronts st)).
End Sorter.

(** The order of the keys at two positions. *)
Definition key_le (keys : list efloat) (a b : nat) : Prop :=
  ele (keys !!! a) (keys !!! b).

Global Instance key_le_dec keys : RelDecision (key_le keys).
Proof. intros a b. unfold key_le. apply _. Defined.

(** What is assumed of [np.argsort]: the result lists the positions of the
    keys, each once, in an order in which the keys do not decrease. *)
Definition argsort_ok (argsort : list efloat → list nat) : Prop :=
  ∀ keys, argsort keys ≡ₚ seq 0 (length keys) ∧
          StronglySorted (key_le keys) (argsort keys).

(** One admissible [np.argsort]: a merge sort of the positions. *)
Definition merge_argsort (keys : list efloat) : list nat :=
  merge_sort (key_le keys) (seq 0 (length keys)).

(** ** Notions used to state the properties of the sorter *)

(** Row [i] of the score matrix dominates row [j]. *)
Definition idx_dominates (scores : matrix) (i j : nat) : Prop :=
  (i < length scores)%nat ∧ (j < length scores)%nat ∧
  determine_dominance (scores !!! i) (scores !!! j) = 1.

Global Instance idx_dominates_dec scores : RelDecision (idx_dominates scores).
Proof. intros i j. unfold idx_dominates. apply _. Defined.

(** The number of rows that dominate row [j] among those satisfying [P]. *)
Definition count_dominators (scores : matrix) (P : nat → Prop)
    `{!∀ i, Decision (P i)} (j : nat) : nat :=
  length (filter (λ i, idx_dominates scores i j ∧ P i)
                 (seq 0 (length scores))).

(** All rows have [n_obj] entries: [scores] is a two-dimensional array. *)
Definition well_shaped (scores : matrix) : Prop :=
  ∀ r, r ∈ scores → length r = n_obj_of scores.

(** The pairs visited by the loops of lines 62-63, in order. *)
Definition all_pairs (n : nat) : list (nat * nat) :=
  i ← seq 0 n; pair i <$> seq (S i) (n - S i).

(** A pair of rows has been compared, in either order. *)
Definition compared (L : list (nat * nat)) (a b : nat) : Prop :=
  (a, b) ∈ L ∨ (b, a) ∈ L.

Global Instance compared_dec L a b : Decision (compared L a b).
Proof. unfold compared. apply _. Defined.

(** What holds of [domination_sets] and [dominated_counts] once the pairs
    of [L] have been compared. *)
Definition pairs_inv (scores : matrix) (L : list (nat * nat))
    (st : list (list nat) * list Z) : Prop :=
  length st.1 = length scores ∧ length st.2 = length scores ∧
  (∀ i, (i < length scores)%nat →
        NoDup (st.1 !!! i) ∧
        ∀ x, x ∈ st.1 !!! i ↔ idx_dominates scores i x ∧ compared L i x) ∧
  (∀ j, (j < length scores)%nat →
        st.2 !!! j = Z.of_nat (count_dominators scores (compared L j) j)).

(** The number of times [j] occurs in a list of indices. *)
Definition occurrences (j : nat) (l : list nat) : nat :=
  length (filter (λ x, x = j) l).

(** The invariant of the [while] loop of lines 78-90, at the loop test.
    A rank of [0] marks a row not yet placed in a front. *)
Record peel_inv (scores : matrix) (st : peel_state) : Prop := {
  pi_len_ranks : length (ps_ranks st) = length scores;
  pi_len_counts : length (ps_counts st) = length scores;
  pi_front_num : 1 ≤ ps_front_num st;
  pi_current_nodup : NoDup (ps_current st);
  pi_current : ∀ j, j ∈ ps_current st ↔
    (j < length scores)%nat ∧ ps_ranks st !!! j = 0 ∧ ps_counts st !!! j = 0;
  pi_counts : ∀ j, (j < length scores)%nat →
    ps_counts st !!! j
    = Z.of_nat (count_dominators scores (λ i, ps_ranks st !!! i = 0) j);
  pi_ranked : ∀ j, (j < length scores)%nat → ps_ranks st !!! j ≠ 0 →
    1 ≤ ps_ranks st !!! j < ps_front_num st ∧
    (∀ i, idx_dominates scores i j →
          1 ≤ ps_ranks st !!! i < ps_ranks st !!! j) ∧
    (ps_ranks st !!! j = 1 ∨
     ∃ i, idx_dominates scores i j ∧
          ps_ranks st !!! i = ps_ranks st !!! j - 1);
  pi_current_pred : ∀ j, j ∈ ps_current st →
    ps_front_num st = 1 ∨
    ∃ i, idx_dominates scores i j ∧ ps_ranks st !!! i = ps_front_num st - 1;
  pi_contiguous : ∀ r, 1 ≤ r < ps_front_num st →
    ∃ j, (j < length scores)%nat ∧ ps_ranks st !!! j = r;
  pi_fronts_len : length (ps_fronts st) = Z.to_nat (ps_front_num st - 1);
  pi_fronts : ∀ r F, ps_fronts st !! r = Some F →
    NoDup F ∧ F ≠ [] ∧
    ∀ j, j ∈ F ↔ (j < length scores)%nat ∧ ps_ranks st !!! j = Z.of_nat (S r)
}.

(** The number of rows not yet placed in a front. *)
Definition unplaced (n : nat) (ranks : list Z) : nat :=
  length (filter (λ i, ranks !!! i = 0) (seq 0 n)).

(** [domination_sets] as lines 59-70 leave it. *)
Definition sets_ok (scores : matrix) (sets : list (list nat)) : Prop :=
  ∀ i, (i < length scores)%nat →
       NoDup (sets !!! i) ∧ ∀ x, x ∈ sets !!! i ↔ idx_dominates scores i x.

(** ** Crowding distance as the specification words it *)

(** The place of member [p] in the sorted order. *)
Definition sorted_position (sort_idx : list nat) (p : nat) : nat :=
  from_option fst 0%nat (list_find (λ x, x = p) sort_idx).



(** ** Environmental selection (lines 254-278) *)

(** The variables of the [while count < pop_size] loop. *)
Record select_state := SelectState {
  sel_pos : matrix;
  sel_scores : matrix;
  sel_count : nat;
  sel_front_num : Z
}.

(** [np.zeros((rows, cols))]. *)
Definition np_zeros (rows cols : nat) : matrix :=
  replicate rows (replicate cols 0%Qc).

Section Selection.
Variable argsort : list efloat → list nat.
Variable pop_size : nat.
Variables (R_pos R_scores : matrix).
Variables (R_ranks : list Z) (R_crowding : list efloat).

(** Lines 269-272: the members of an overflowing front that are kept. *)
Definition select_by_crowding (front_indices : list nat) (remaining : nat)
    : list nat :=
  let front_crowding := (λ j, R_crowding !!! j) <$> front_indices in
  let sort_idx := reverse (argsort front_crowding) in
  (λ a, front_indices !!! a) <$> take remaining sort_idx.

(** One iteration, lines 260-278; [None] is the [break]. *)
Definition select_step (st : select_state) : option select_state :=
  let count := sel_count st in
  let front_indices := np_where (λ r, r =? sel_front_num st) R_ranks in
  match front_indices with
  | [] => None
  | _ :: _ =>
      if decide (count + length front_indices ≤ pop_size)%nat then
        let num_to_add := length front_indices in
        Some (SelectState
                (list_inserts count (take_rows R_pos front_indices)
                              (sel_pos st))
                (list_inserts count (take_rows R_scores front_indices)
                              (sel_scores st))
                (count + num_to_add)
                (sel_front_num st + 1))
      else
        let remaining := (pop_size - count)%nat in
        let selected_indices :=
          select_by_crowding front_indices remaining in
        Some (SelectState
                (list_inserts count (take_rows R_pos selected_indices)
                              (sel_pos st))
                (list_inserts count (take_rows R_scores selected_indices)
                              (sel_scores st))
                pop_size
                (sel_front_num st + 1))
  end.

(** The loop of lines 259-278; [None] when the iteration budget is used
    up before the loop exits. *)
Fixpoint select_loop (fuel : nat) (st : select_state)
    : option select_state :=
  if decide (sel_count st < pop_size)%nat then
    match fuel with
    | O => None
    | S fuel =>
        match select_step st with
        | None => Some st
        | Some st' => select_loop fuel st'
        end
    end
  else Some st.
End Selection.

(** Lines 248-278: merge, rank and trim.  The result is the pair
    [(P_next_pos, P_next_scores)]. *)
Definition environmental_selection (argsort : list efloat → list nat)
    (pop_size dimension : nat) (P_pos P_scores Q_pos Q_scores : matrix)
    : option (matrix * matrix) :=
  let R_pos := P_pos ++ Q_pos in
  let R_scores := P_scores ++ Q_scores in
  '(R_ranks, R_crowding) ← non_dominated_sort argsort R_scores;
  st ← select_loop argsort pop_size R_pos R_scores R_ranks R_crowding
        pop_size
        (SelectState (np_zeros pop_size dimension) (np_zeros pop_size 3)
                     0 1);
  Some (sel_pos st, sel_scores st).

(** ** Module three: the optimiser (lines 154-287) *)

(** A bound of the search box: a scalar, or one value per coordinate. *)
Inductive bound := Scalar (q : Qc) | PerCoordinate (v : vec).

(** The value a bound broadcasts to coordinate [k]. *)
Definition bound_at (b : bound) (k : nat) : Qc :=
  match b with
  | Scalar q => q
  | PerCoordinate v => v !!! k
  end.

(** The [problem] dictionary. *)
Record problem := Problem {
  dimension : Z;
  n_sensors : Z;
  lb : bound;
  ub : bound
}.

(** The module-level generator [np.random]: its state and the draws the
    optimiser makes. *)
Record RandomSource := {
  rng_state : Type;
  (** [np.random.rand()]: one float of [[0, 1)]. *)
  rand : rng_state → Qc * rng_state;
  (** [np.random.randint(low, high)] for [low < high]. *)
  randint : Z → Z → rng_state → Z * rng_state;
  (** [np.random.permutation(n)]. *)
  permutation : nat → rng_state → list nat * rng_state;
  (** [np.random.normal(loc, scale)]. *)
  normal : Qc → Qc → rng_state → Qc * rng_state
}.

(** The functions of the [math] module, on the rationals that floats
    denote.  [m_gamma] is [None] where [math.gamma] raises [ValueError]. *)
Record MathLib := {
  m_pi : Qc;
  m_exp : Qc → Qc;
  m_cos : Qc → Qc;
  m_sin : Qc → Qc;
  m_pow : Qc → Qc → Qc;
  m_gamma : Qc → option Qc
}.

(** Array objects live in a store; a dictionary holds references. *)
Definition loc := nat.

(** The dictionaries [P] and [Q].  ['pos'] and ['scores'] are written in
    place through the dictionary, so they are references into the store;
    ['ranks'] and ['crowding_distances'] are only ever rebound. *)
Record population := Population {
  pos : loc;
  scores : loc;
  ranks : list Z;
  crowding_distances : list efloat
}.

(** [dict.copy()]: a new dictionary holding the same array objects. *)
Definition dict_copy (d : population) : population :=
  Population (pos d) (scores d) (ranks d) (crowding_distances d).

Inductive exn := ValueError | ZeroDivisionError.

(** [|x|], [min] and [max] on floats. *)
Definition Qcabs (x : Qc) : Qc := if decide (0 ≤ x)%Qc then x else (- x)%Qc.
Definition Qcmin (x y : Qc) : Qc := if decide (x ≤ y)%Qc then x else y.
Definition Qcmax (x y : Qc) : Qc := if decide (x ≤ y)%Qc then y else x.

(** [np.clip(x, lo, hi)], that is [minimum(maximum(x, lo), hi)]. *)
Definition np_clip (x : vec) (lo hi : bound) : vec :=
  imap (λ k v, Qcmin (Qcmax v (bound_at lo k)) (bound_at hi k)) x.

(** [lo + r * (hi - lo)] for an array [r], coordinate by coordinate. *)
Definition scale_to_box (lo hi : bound) (r : vec) : vec :=
  imap (λ k v, (bound_at lo k + v * (bound_at hi k - bound_at lo k))%Qc) r.

(** [np.mean(rows, axis=0)] for rows of [dim] entries. *)
Definition np_mean0 (rows : matrix) (dim : nat) : vec :=
  (λ k, (foldr Qcplus 0 (column rows k)
         / Qc_of_Z (Z.of_nat (length rows)))%Qc)
    <$> seq 0 dim.

(** Lines 174-176: the leaders, with the fall-back on the whole index
    range. *)
Definition leader_candidates (ranks : list Z) (pop_size : Z) : list nat :=
  match np_where (λ r, r =? 1) ranks with
  | [] => seq 0 (Z.to_nat pop_size)
  | idx => idx
  end.

Section Moho.
Variable G : RandomSource.
Variable L : MathLib.
Variable argsort : list efloat → list nat.
(** The pluggable objective function, three objectives per position. *)
Variable evaluate_objectives : vec → problem → vec.

(** The store of arrays and the generator state. *)
Record world := World {
  heap : gmap loc matrix;
  gen : rng_state G
}.

(** How a computation ends: a value and a new world, an exception, or a
    loop of the model out of budget. *)
Inductive outcome (A : Type) :=
| Ok (a : A) (w : world)
| Raise (e : exn)
| OutOfFuel.
Arguments Ok {A} a w.
Arguments Raise {A} e.
Arguments OutOfFuel {A}.

Definition M (A : Type) : Type := world → outcome A.

Global Instance M_ret : MRet M := λ A a w, Ok a w.
Global Instance M_bind : MBind M := λ A B f m w,
  match m w with
  | Ok a w' => f a w'
  | Raise e => Raise e
  | OutOfFuel => OutOfFuel
  end.

Definition raise {A} (e : exn) : M A := λ _, Raise e.

(** A pure loop of the model that may run out of budget. *)
Definition budgeted {A} (o : option A) : M A :=
  match o with
  | Some a => mret a
  | None => λ _, OutOfFuel
  end.

(** A new array object. *)
Definition alloc (m : matrix) : M loc := λ w,
  let l := fresh (dom (heap w)) in
  Ok l (World (<[l := m]> (heap w)) (gen w)).

(** The current content of an array object. *)
Definition load (l : loc) : M matrix := λ w, Ok (heap w !!! l) w.

(** [a[i, :] = row] on the array object at [l]. *)
Definition store_row (l : loc) (i : nat) (row : vec) : M unit := λ w,
  Ok tt (World (alter (λ m, <[i := row]> m) l (heap w)) (gen w)).

(** One draw from the generator. *)
Definition draw {A} (f : rng_state G → A * rng_state G) : M A := λ w,
  let '(a, g) := f (gen w) in Ok a (World (heap w) g).

(** [for x in l: body(x)]. *)
Fixpoint for_ {A} (l : list A) (body : A → M unit) : M unit :=
  match l with
  | [] => mret tt
  | x :: l => body x;; for_ l body
  end.

(** A loop that rebinds one variable. *)
Fixpoint for_fold {A B} (l : list A) (body : B → A → M B) (b : B) : M B :=
  match l with
  | [] => mret b
  | x :: l => b' ← body b x; for_fold l body b'
  end.

(** [k] draws in a row, as [np.random.rand(k)] fills an array. *)
Fixpoint draws {A} (k : nat) (f : rng_state G → A * rng_state G)
    : M (list A) :=
  match k with
  | O => mret []
  | S k => x ← draw f; xs ← draws k f; mret (x :: xs)
  end.

(** [np.random.rand(d)]; a negative size is a [ValueError]. *)
Definition np_rand (d : Z) : M vec :=
  if d <? 0 then raise ValueError else draws (Z.to_nat d) (rand G).

(** [np.random.rand(rows, cols)]. *)
Definition np_rand2 (rows cols : Z) : M matrix :=
  if (rows <? 0) || (cols <? 0) then raise ValueError
  else
    for_fold (seq 0 (Z.to_nat rows))
             (λ acc _, r ← draws (Z.to_nat cols) (rand G); mret (acc ++ [r]))
             [].

(** [np.random.normal(loc, scale, (rows, cols))]. *)
Definition np_normal2 (mu sigma : Qc) (rows cols : Z) : M matrix :=
  if (rows <? 0) || (cols <? 0) then raise ValueError
  else
    for_fold (seq 0 (Z.to_nat rows))
             (λ acc _, r ← draws (Z.to_nat cols) (normal G mu sigma);
                       mret (acc ++ [r]))
             [].

(** [np.random.randint(low, high)]; an empty range is a [ValueError]. *)
Definition np_randint (low high : Z) : M Z :=
  if high <=? low then raise ValueError else draw (randint G low high).

(** [np.random.choice(a)]: a uniformly drawn element; an empty array is
    a [ValueError]. *)
Definition np_choice (a : list nat) : M nat :=
  match a with
  | [] => raise ValueError
  | _ :: _ =>
      k ← draw (randint G 0 (Z.of_nat (length a)));
      mret (a !!! Z.to_nat k)
  end.

(** [x / y] on Python floats. *)
Definition py_div (x y : Qc) : M Qc :=
  if decide (y = 0%Qc) then raise ZeroDivisionError else mret (x / y)%Qc.

(** [levy(n, m, beta)], lines 19-33.  A [ValueError] of [math.gamma]
    selects the fall-back scale; a zero divisor is not caught. *)
Definition levy (n m : Z) (beta : Qc) : M matrix :=
  sigma_u ←
    match m_gamma L (1 + beta)%Qc with
    | None => mret (Q2Qc (1 # 10))
    | Some g1 =>
        let num := (g1 * m_sin L (m_pi L * beta / Qc_of_Z 2))%Qc in
        match m_gamma L ((1 + beta) / Qc_of_Z 2)%Qc with
        | None => mret (Q2Qc (1 # 10))
        | Some g2 =>
            let den :=
              (g2 * beta
               * m_pow L (Qc_of_Z 2) ((beta - 1) / Qc_of_Z 2))%Qc in
            ratio ← py_div num den;
            e ← py_div 1%Qc beta;
            mret (m_pow L ratio e)
        end
    end;
  u ← np_normal2 0%Qc sigma_u n m;
  v ← np_normal2 0%Qc 1%Qc n m;
  e ← py_div 1%Qc beta;
  mret (zip_with (zip_with (λ a b, (a / m_pow L (Qcabs b) e)%Qc)) u v).

Variable pop_size max_gen : Z.
Variable pb : problem.

(** Lines 159-166: the initial parent population. *)
Definition init_population : M population :=
  r ← np_rand2 pop_size (dimension pb);
  pos_l ← alloc (scale_to_box (lb pb) (ub pb) <$> r);
  scores_l ← alloc (np_zeros (Z.to_nat pop_size) 3);
  for_ (seq 0 (Z.to_nat pop_size))
       (λ i, p ← load pos_l;
             store_row scores_l i (evaluate_objectives (p !!! i) pb));;
  s ← load scores_l;
  '(ranks, crowd) ← budgeted (non_dominated_sort argsort s);
  mret (Population pos_l scores_l ranks crowd).

(** The dominance-gated replacement of lines 205-209, 224-228 and
    241-245: clip, evaluate, and overwrite slot [i] of the offspring
    unless its current score dominates the candidate's. *)
Definition try_accept (Q : population) (i : nat) (X_new : vec) : M unit :=
  let X_new := np_clip X_new (lb pb) (ub pb) in
  let score_new := evaluate_objectives X_new pb in
  q_scores ← load (scores Q);
  if 0 <=? determine_dominance score_new (q_scores !!! i) then
    store_row (pos Q) i X_new;;
    store_row (scores Q) i score_new
  else mret tt.

(** Phase 1, lines 182-209, for one index. *)
Definition exploration_step (t : Z) (P Q : population)
    (current_front_one_indices : list nat) (i : nat) : M unit :=
  leader_idx ← np_choice current_front_one_indices;
  p ← load (pos P);
  let dominant_hippopotamus := p !!! leader_idx in
  I1 ← np_randint 1 3;
  I2 ← np_randint 1 3;
  perm ← draw (permutation G (Z.to_nat pop_size));
  k ← np_randint 1 (pop_size + 1);
  let mean_group :=
    np_mean0 (take_rows p (take (Z.to_nat k) perm))
             (Z.to_nat (dimension pb)) in
  a ← np_rand (dimension pb);
  let A := (λ v, (Qc_of_Z 2 * v - 1)%Qc) <$> a in
  b ← np_rand (dimension pb);
  let B := (λ v, (Qc_of_Z 2 * v - 1)%Qc) <$> b in
  r1 ← draw (rand G);
  let X_P1 :=
    zip_with (λ x d, (x + r1 * (d - Qc_of_Z I1 * x))%Qc)
             (p !!! i) dominant_hippopotamus in
  let T := m_exp L (Qc_of_Z (- t) / Qc_of_Z max_gen)%Qc in
  X_P2 ←
    (if bool_decide (Q2Qc (6 # 10) < T)%Qc then
       mret (zip_with Qcplus (p !!! i)
               (zip_with Qcmult A
                  (zip_with (λ d g, (d - Qc_of_Z I2 * g)%Qc)
                            dominant_hippopotamus mean_group)))
     else
       r2 ← draw (rand G);
       if bool_decide (Q2Qc (1 # 2) < r2)%Qc then
         mret (zip_with Qcplus (p !!! i)
                 (zip_with Qcmult B
                    (zip_with Qcminus mean_group dominant_hippopotamus)))
       else
         r3 ← np_rand (dimension pb);
         mret (scale_to_box (lb pb) (ub pb) r3));
  for_ [X_P1; X_P2] (try_accept Q i).

(** Phase 2, lines 215-228, for one index. *)
Definition defense_step (P Q : population) (i : nat) : M unit :=
  r ← np_rand (dimension pb);
  let predator := scale_to_box (lb pb) (ub pb) r in
  p ← load (pos P);
  let distance_to_predator :=
    zip_with (λ x y, Qcabs (x - y)%Qc) predator (p !!! i) in
  lv ← levy 1 (dimension pb) (Q2Qc (3 # 2));
  let RL := (λ v, (Q2Qc (5 # 100) * v)%Qc) <$> concat lv in
  rb ← draw (rand G);
  rc ← draw (rand G);
  rd ← draw (rand G);
  let b := (Qc_of_Z 2 + Qc_of_Z 2 * rb)%Qc in
  let c := (1 + Q2Qc (1 # 2) * rc)%Qc in
  let d := (Qc_of_Z 2 + rd)%Qc in
  rl ← draw (rand G);
  let l := (- Qc_of_Z 2 * m_pi L + Qc_of_Z 4 * m_pi L * rl)%Qc in
  coef ← py_div b (c - d * m_cos L l)%Qc;
  let X_P3 :=
    zip_with Qcplus (zip_with Qcmult RL predator)
      ((λ x, (coef * (1 / (x + Q2Qc (1 # 1000000))))%Qc)
         <$> distance_to_predator) in
  try_accept Q i X_P3.

(** Phase 3, lines 234-245, for one index. *)
Definition escape_step (t : Z) (Q : population) (i : nat) : M unit :=
  let LO_LOCAL k := (bound_at (lb pb) k / Qc_of_Z t)%Qc in
  let HI_LOCAL k := (bound_at (ub pb) k / Qc_of_Z t)%Qc in
  d ← np_rand (dimension pb);
  let D := (λ v, (Qc_of_Z 2 * v - 1)%Qc) <$> d in
  q ← load (pos Q);
  r ← draw (rand G);
  let X_P4 :=
    zip_with Qcplus (q !!! i)
      (imap (λ k v, (r * (LO_LOCAL k + v * (HI_LOCAL k - LO_LOCAL k)))%Qc)
            D) in
  try_accept Q i X_P4.

(** Lines 248-281: the next parent population.  [P] is rebound to the
    two new arrays. *)
Definition next_population (P Q : population) : M population :=
  p_pos ← load (pos P);
  q_pos ← load (pos Q);
  p_scores ← load (scores P);
  q_scores ← load (scores Q);
  '(P_next_pos, P_next_scores) ←
    budgeted (environmental_selection argsort (Z.to_nat pop_size)
                (Z.to_nat (dimension pb)) p_pos p_scores q_pos q_scores);
  pos_l ← alloc P_next_pos;
  scores_l ← alloc P_next_scores;
  '(ranks, crowd) ← budgeted (non_dominated_sort argsort P_next_scores);
  mret (Population pos_l scores_l ranks crowd).

(** The body of the main loop, lines 170-283, for generation [t]. *)
Definition generation (P : population) (t : Z) : M population :=
  let Q := dict_copy P in
  let current_front_one_indices := leader_candidates (ranks P) pop_size in
  for_ (seq 0 (Z.to_nat (pop_size / 2)))
       (exploration_step t P Q current_front_one_indices);;
  for_ (seq (Z.to_nat (pop_size / 2))
            (Z.to_nat pop_size - Z.to_nat (pop_size / 2)))
       (defense_step P Q);;
  for_ (seq 0 (Z.to_nat pop_size)) (escape_step t Q);;
  next_population P Q.

(** The parent population after the first [gens] generations of a run
    of [max_gen]: lines 159-283 with the loop cut at [gens]. *)
Definition evolve (gens : Z) : M population :=
  P ← init_population;
  for_fold (seqZ 1 gens) generation P.

(** Lines 286-287: the rank-1 members of a population. *)
Definition first_front (P : population) : M (matrix * matrix) :=
  p ← load (pos P);
  s ← load (scores P);
  let final_front_indices := np_where (λ r, r =? 1) (ranks P) in
  mret (take_rows p final_front_indices, take_rows s final_front_indices).

(** [moho(pop_size, max_gen, problem)]. *)
Definition moho : M (matrix * matrix) :=
  P ← evolve max_gen;
  first_front P.
End Moho.

Arguments World {G} heap gen.
Arguments heap {G} w.
Arguments gen {G} w.
Arguments Ok {G A} a w.
Arguments Raise {G A} e.
Arguments OutOfFuel {G A}.

(** ** Concrete instances, to run the model on examples *)

(** A linear congruential generator. *)
Definition lcg_next (s : Z) : Z := (s * 1103515245 + 12345) mod 2147483648.

Definition lcg_source : RandomSource := {|
  rng_state := Z;
  rand := λ s, (Q2Qc ((lcg_next s mod 1000) # 1000), lcg_next s);
  randint := λ low high s,
    (low + lcg_next s mod (high - low), lcg_next s);
  permutation := λ n s,
    (rotate (Z.to_nat (lcg_next s mod Z.of_nat (S n))) (seq 0 n),
     lcg_next s);
  normal := λ mu sigma s,
    ((mu + sigma * Q2Qc ((lcg_next s mod 2001 - 1000) # 500))%Qc,
     lcg_next s)
|}.

(** Rational stand-ins for the [math] functions, good enough to run
    examples: short Taylor polynomials, and a power that ignores its
    exponent. *)
Definition toy_math : MathLib := {|
  m_pi := Q2Qc (355 # 113);
  m_exp := λ x, (1 + x + x * x / Qc_of_Z 2)%Qc;
  m_cos := λ x, (1 - x * x / Qc_of_Z 2)%Qc;
  m_sin := λ x, x;
  m_pow := λ x _, x;
  m_gamma := λ x, if decide (0 < x)%Qc then Some 1%Qc else None
|}.

(** An objective function with three objectives: the first coordinate,
    minus the second, and the sum of all. *)
Definition toy_objectives (x : vec) (_ : problem) : vec :=
  [x !!! 0%nat; (- (x !!! 1%nat))%Qc; foldr Qcplus 0%Qc x].

Definition unit_box (dim : Z) : problem :=
  Problem dim 0 (Scalar 0%Qc) (Scalar 1%Qc).

Definition empty_world (seed : Z) : world lcg_source :=
  @World lcg_source ∅ seed.

(** The invariant of the selection loop, at the loop test: [chosen] lists
    the pool indices copied so far, in the order of their slots. *)
Record sel_inv (pop_size : nat) (R_pos R_scores : matrix)
    (R_ranks : list Z) (R_crowding : list efloat)
    (chosen : list nat) (st : select_state) : Prop := {
  si_len_pos : length (sel_pos st) = pop_size;
  si_len_scores : length (sel_scores st) = pop_size;
  si_count : length chosen = sel_count st;
  si_count_le : (sel_count st ≤ pop_size)%nat;
  si_nodup : NoDup chosen;
  si_front_num : 1 ≤ sel_front_num st;
  si_rows : ∀ p, (p < sel_count st)%nat →
    sel_pos st !!! p = R_pos !!! (chosen !!! p) ∧
    sel_scores st !!! p = R_scores !!! (chosen !!! p);
  si_chosen : ∀ j, j ∈ chosen →
    (j < length R_ranks)%nat ∧ 1 ≤ R_ranks !!! j < sel_front_num st;
  si_whole : ∀ j, (j < length R_ranks)%nat →
    1 ≤ R_ranks !!! j < sel_front_num st - 1 → j ∈ chosen;
  si_last_whole : (sel_count st < pop_size)%nat →
    ∀ j, (j < length R_ranks)%nat →
         R_ranks !!! j = sel_front_num st - 1 → j ∈ chosen;
  si_order : ∀ p q, (p ≤ q)%nat → (q < sel_count st)%nat →
    R_ranks !!! (chosen !!! p) ≤ R_ranks !!! (chosen !!! q);
  si_crowding : ∀ j j', j ∈ chosen → (j' < length R_ranks)%nat →
    j' ∉ chosen →
    R_ranks !!! j = sel_front_num st - 1 →
    R_ranks !!! j' = sel_front_num st - 1 →
    ele (R_crowding !!! j') (R_crowding !!! j)
}.

(** ** Notions used to state the properties of the optimiser *)

(** A computation that leaves the store as it found it: it may draw from
    the generator or raise, nothing else. *)
Definition frames {G A} (m : M G A) : Prop :=
  ∀ w, match m w with
       | Ok _ w' => heap w' = heap w
       | Raise _ => True
       | OutOfFuel => False
       end.

(** A computation whose only effect on the store is that of a final call
    of [fin], on some argument. *)
Definition ends_with {G A B} (fin : B → M G A) (m : M G A) : Prop :=
  ∀ w, match m w with
       | Ok a w' => ∃ x w0, heap w0 = heap w ∧ fin x w0 = Ok a w'
       | Raise _ => True
       | OutOfFuel => False
       end.

(** The configurations the specification calls malformed. *)
Definition malformed (pop_size max_gen : Z) (pb : problem) : Prop :=
  dimension pb ≤ 0 ∨ pop_size ≤ 0 ∨
  (∃ k, (Z.of_nat k < dimension pb) ∧
        (bound_at (ub pb) k ≤ bound_at (lb pb) k)%Qc) ∨
  Z.odd pop_size = true ∨ max_gen < 1.

(** A computation that always returns. *)
Definition total {G A} (m : M G A) : Prop :=
  ∀ w, ∃ a w', m w = Ok a w'.

(** An outcome that is a value, and one that is an exception. *)
Definition returns {G A} (o : outcome G A) : Prop :=
  match o with Ok _ _ => True | _ => False end.

Definition raises {G A} (o : outcome G A) : Prop :=
  match o with Raise _ => True | _ => False end.

(** Partial correctness on the store: from a store satisfying [I], a
    computation that returns leaves a store satisfying [J]; it may raise;
    it does not run out of budget. *)
Definition hoare {G A} (I : gmap loc matrix → Prop) (m : M G A)
    (J : A → gmap loc matrix → Prop) : Prop :=
  ∀ w, I (heap w) →
       match m w with
       | Ok a w' => J a (heap w')
       | Raise _ => True
       | OutOfFuel => False
       end.

(** A position inside the box, on the coordinates of the problem. *)
Definition in_box (pb : problem) (x : vec) : Prop :=
  ∀ k v, (Z.of_nat k < dimension pb) → x !! k = Some v →
         (bound_at (lb pb) k ≤ v ≤ bound_at (ub pb) k)%Qc.

Global Instance in_box_dec pb x : Decision (in_box pb x).
Proof.
  refine (cast_if (decide (Forall (λ kv : nat * Qc,
            Z.of_nat kv.1 < dimension pb →
            (bound_at (lb pb) kv.1 ≤ kv.2 ≤ bound_at (ub pb) kv.1)%Qc)
            (imap pair x)))).
  - intros k v Hk Hx. rewrite Forall_forall in f.
    apply (f (k, v)); [|done]. apply elem_of_lookup_imap. eauto.
  - intros Hbox. apply n, Forall_forall. intros [k v] Hin Hk.
    apply elem_of_lookup_imap in Hin as (k' & v' & [= -> ->] & Hx).
    by apply Hbox.
Defined.

(** The precondition [lb < ub], coordinate by coordinate. *)
Definition box_nonempty (pb : problem) : Prop :=
  ∀ k, (Z.of_nat k < dimension pb) →
       (bound_at (lb pb) k < bound_at (ub pb) k)%Qc.

(** The generator keeps [np.random.rand] inside [[0, 1)]. *)
Definition rand_unit (G : RandomSource) : Prop :=
  ∀ s, (0 ≤ (rand G s).1)%Qc ∧ ((rand G s).1 < 1)%Qc.

(** What holds of a population dictionary and the store between the
    steps of a generation: two distinct arrays of [N] rows, scores of
    three objectives, and every stored position satisfying [Good]. *)
Record stored (Good : vec → Prop) (N : nat) (P : population)
    (h : gmap loc matrix) : Prop := {
  st_distinct : pos P ≠ scores P;
  st_len_pos : length (h !!! pos P) = N;
  st_len_scores : length (h !!! scores P) = N;
  st_shape : ∀ s, s ∈ h !!! scores P → length s = 3%nat;
  st_good : ∀ x, x ∈ h !!! pos P → Good x
}.

(** What holds of the ranks a dictionary carries at the start of a
    generation: they are the ranks of a sorted array of [N] rows. *)
Definition ranked (argsort : list efloat → list nat) (N : nat)
    (P : population) : Prop :=
  ∃ s, length s = N ∧ well_shaped s ∧
       non_dominated_sort argsort s = Some (ranks P, crowding_distances P).

(** An evaluator that answers only inside the box. *)
Definition guarded (evaluate_objectives : vec → problem → vec)
    (x : vec) (pb : problem) : vec :=
  if decide (in_box pb x) then evaluate_objectives x pb else [].

(** ** Notions used to state that a run depends on its draws only *)

(** Two generators in states that cannot be told apart: whatever is drawn
    next, the values are equal and the states after the draw are again
    related.  Two generators seeded alike are so related. *)
Record bisimilar (G1 G2 : RandomSource)
    (R : rng_state G1 → rng_state G2 → Prop) : Prop := {
  bs_rand : ∀ s1 s2, R s1 s2 →
    (rand G1 s1).1 = (rand G2 s2).1 ∧ R (rand G1 s1).2 (rand G2 s2).2;
  bs_randint : ∀ low high s1 s2, R s1 s2 →
    (randint G1 low high s1).1 = (randint G2 low high s2).1 ∧
    R (randint G1 low high s1).2 (randint G2 low high s2).2;
  bs_permutation : ∀ n s1 s2, R s1 s2 →
    (permutation G1 n s1).1 = (permutation G2 n s2).1 ∧
    R (permutation G1 n s1).2 (permutation G2 n s2).2;
  bs_normal : ∀ mu sigma s1 s2, R s1 s2 →
    (normal G1 mu sigma s1).1 = (normal G2 mu sigma s2).1 ∧
    R (normal G1 mu sigma s1).2 (normal G2 mu sigma s2).2
}.

(** Two worlds with the same store and related generator states. *)
Definition same_world {G1 G2} (R : rng_state G1 → rng_state G2 → Prop)
    (w1 : world G1) (w2 : world G2) : Prop :=
  heap w1 = heap w2 ∧ R (gen w1) (gen w2).

(** Two outcomes that agree: the same value in like worlds, or the same
    exception. *)
Definition same_outcome {G1 G2 A} (R : rng_state G1 → rng_state G2 → Prop)
    (o1 : outcome G1 A) (o2 : outcome G2 A) : Prop :=
  match o1, o2 with
  | Ok a1 w1, Ok a2 w2 => a1 = a2 ∧ same_world R w1 w2
  | Raise e1, Raise e2 => e1 = e2
  | OutOfFuel, OutOfFuel => True
  | _, _ => False
  end.

(** Two computations that agree from like worlds. *)
Definition same_run {G1 G2 A} (R : rng_state G1 → rng_state G2 → Prop)
    (m1 : M G1 A) (m2 : M G2 A) : Prop :=
  ∀ w1 w2, same_world R w1 w2 → same_outcome R (m1 w1) (m2 w2).


(** ** Notions used to state further properties of the optimiser *)

(** Every score a dictionary stores is what the evaluator answers at the
    position stored at the same index, in two arrays of [N] rows. *)
Record evaluated (evaluate_objectives : vec → problem → vec) (pb : problem)
    (N : nat) (P : population) (h : gmap loc matrix) : Prop := {
  ev_distinct : pos P ≠ scores P;
  ev_len_pos : length (h !!! pos P) = N;
  ev_len_scores : length (h !!! scores P) = N;
  ev_rows : ∀ i, (i < N)%nat →
    (h !!! scores P) !!! i = evaluate_objectives ((h !!! pos P) !!! i) pb
}.

(** The ranks and crowding distances a dictionary carries are those of the
    scores it stores. *)
Definition ranks_current (argsort : list efloat → list nat)
    (P : population) (h : gmap loc matrix) : Prop :=
  non_dominated_sort argsort (h !!! scores P)
  = Some (ranks P, crowding_distances P).

(** ** Module four: the choice of a compromise (lines 294-312) *)

(** The exceptions met outside the optimiser, next to those it raises. *)
Inductive py_exn :=
  Builtin (e : exn) | IndexError | KeyError | TypeError | ApiException.

(** What a call that does not touch the arrays of the populations ends
    with: a value, an exception, or a loop budget that ran out. *)
Inductive result (A : Type) :=
  | Return (a : A)
  | Throw (e : py_exn)
  | Unfinished.

Arguments Return {A} a.
Arguments Throw {A} e.
Arguments Unfinished {A}.

(** [np.min], [np.max] and [np.sum] of a one-dimensional array. *)
Definition np_min (a : vec) : Qc :=
  match a with
  | [] => 0%Qc
  | x :: a => foldl Qcmin x a
  end.

Definition np_max (a : vec) : Qc :=
  match a with
  | [] => 0%Qc
  | x :: a => foldl Qcmax x a
  end.

Definition np_sum (a : vec) : Qc := foldr Qcplus 0%Qc a.

(** The scan of [np.argmin]: the position of the first least entry. *)
Fixpoint argmin_from (best : nat) (least : Qc) (i : nat) (a : vec) : nat :=
  match a with
  | [] => best
  | y :: a =>
      if decide (y < least)%Qc then argmin_from i y (S i) a
      else argmin_from best least (S i) a
  end.

Definition np_argmin (a : vec) : nat :=
  match a with
  | [] => 0%nat
  | x :: a => argmin_from 0 x 1 a
  end.

(** Lines 302-303: [np.min] and [np.max] along axis 0. *)
Definition min_vals (front_scores : matrix) : vec :=
  (λ k, np_min (column front_scores k)) <$> seq 0 (n_obj_of front_scores).

Definition max_vals (front_scores : matrix) : vec :=
  (λ k, np_max (column front_scores k)) <$> seq 0 (n_obj_of front_scores).

(** Lines 304-305: the ranges, a zero range replaced by one. *)
Definition range_vals (front_scores : matrix) : vec :=
  (λ r, if decide (r = 0%Qc) then 1%Qc else r)
    <$> zip_with Qcminus (max_vals front_scores) (min_vals front_scores).

(** Line 307. *)
Definition normalized_scores (front_scores : matrix) : matrix :=
  (λ row, zip_with Qcdiv (zip_with Qcminus row (min_vals front_scores))
                   (range_vals front_scores))
    <$> front_scores.

(** Lines 308-309: the array [D]. *)
Definition compromise_distances (front_scores : matrix) : vec :=
  let n_obj := n_obj_of front_scores in
  let normalized := normalized_scores front_scores in
  let mean_normalized := np_mean0 normalized n_obj in
  (λ row, (np_sum (Qcabs <$> zip_with Qcminus row mean_normalized)
           / Qc_of_Z (Z.of_nat n_obj))%Qc)
    <$> normalized.

(** [select_best_compromise(front_pos, front_scores)], lines 294-312.
    [np.min] of an array without rows is a [ValueError]; a row that
    [front_pos] does not have is an [IndexError]. *)
Definition select_best_compromise (front_pos front_scores : matrix)
    : result (vec * vec * nat) :=
  let n_sols := length front_scores in
  if decide (n_sols = 1%nat) then
    match front_pos !! 0%nat with
    | Some p => Return (p, front_scores !!! 0%nat, 0%nat)
    | None => Throw IndexError
    end
  else if decide (n_sols = 0%nat) then Throw (Builtin ValueError)
  else
    let D := compromise_distances front_scores in
    let best_solution_idx := np_argmin D in
    match front_pos !! best_solution_idx with
    | Some p =>
        Return (p, front_scores !!! best_solution_idx, best_solution_idx)
    | None => Throw IndexError
    end.

(** ** Module five: decoding the compromise (lines 372-373) *)

(** The slice [a[:k]]: a negative [k] counts from the end. *)
Definition py_prefix {A} (a : list A) (k : Z) : list A :=
  if decide (0 ≤ k) then take (Z.to_nat k) a
  else take (length a - Z.to_nat (- k)) a.

(** [np.argsort(best_pos)[::-1][:n_sensors]]: the sensor positions read
    off a solution. *)
Definition optimal_sensor_indices (argsort : list efloat → list nat)
    (best_pos : vec) (n_sensors : Z) : list nat :=
  let sorted_indices := reverse (argsort (Fin <$> best_pos)) in
  py_prefix sorted_indices n_sensors.

(** Linear arithmetic on canonical rationals, through the rationals they
    stand for. *)
Ltac qc_arith :=
  unfold Qcle, Qclt, Qcdiv, Qcminus, Qcplus, Qcopp, Qcmult, Q2Qc in *;
  cbn [this] in *;
  repeat match goal with
         | H : context [Qred _] |- _ => rewrite Qred_correct in H
         end;
  rewrite ?Qred_correct;
  lra.


(** * Assembly sequencing from a building model (src/revit_python/revit.py)

    The script reads precast components from a Revit document, derives
    which component rests on which, and peels the model from the top into
    groups of components that can be lifted out; the reversed groups are
    the assembly sequence.  The calls into the Revit API are parameters
    of the model; lengths are the rationals that floats denote. *)

(** [XYZ] and [BoundingBoxXYZ]. *)
Record XYZ := Point { coord_X : Qc; coord_Y : Qc; coord_Z : Qc }.

Record BoundingBoxXYZ := Box { Min : XYZ; Max : XYZ }.

(** What [BooleanOperationsUtils.ExecuteBooleanOperation] and the read of
    [Volume] end with: an exception, no solid, or a solid of some
    volume. *)
Inductive boolean_result := Thrown | Null | Intersection (Volume : Qc).

(** The host of the script: the API calls it makes on geometry, [None]
    where the API throws, and the order in which the interpreter iterates
    over a freshly built set of ids. *)
Record Host := {
  Solid : Type;
  CurveLoop : Type;
  (** [Line.CreateBound] on the four edges, then [CurveLoop.Create]. *)
  create_profile : XYZ → XYZ → XYZ → XYZ → option CurveLoop;
  (** [GeometryCreationUtilities.CreateExtrusionGeometry] along
      [XYZ.BasisZ]. *)
  CreateExtrusionGeometry : CurveLoop → Qc → option Solid;
  (** [ExecuteBooleanOperation(a, b, Intersect)]. *)
  ExecuteBooleanOperation : Solid → Solid → boolean_result;
  (** Iteration over [set(keys)]. *)
  set_iteration : list Z → list Z
}.

(** An entry of [comp_data_map], as far as the analysis reads it: the
    keys ["bbox"], ["z_min"], ["z_max"] and ["solid"]. *)
Record component (H : Host) := Component {
  bbox : BoundingBoxXYZ;
  z_min : Qc;
  z_max : Qc;
  solid : Solid H
}.

Arguments Component {H} bbox z_min z_max solid.
Arguments bbox {H} c.
Arguments z_min {H} c.
Arguments z_max {H} c.
Arguments solid {H} c.

(** [CONFIG.SUPPORT_TOLERANCE] and [CONFIG.COLLISION_TOLERANCE]. *)
Definition SUPPORT_TOLERANCE : Qc := 1%Qc.
Definition COLLISION_TOLERANCE : Qc := Q2Qc (1 # 1000000).

Global Instance result_ret : MRet result := λ A a, Return a.
Global Instance result_bind : MBind result := λ A B f m,
  match m with
  | Return a => f a
  | Throw e => Throw e
  | Unfinished => Unfinished
  end.

(** [d[k]] on a dictionary, kept as the list of its items in insertion
    order. *)
Fixpoint dict_get {A} (d : list (Z * A)) (k : Z) : result A :=
  match d with
  | [] => Throw KeyError
  | (k', v) :: d => if decide (k' = k) then Return v else dict_get d k
  end.

(** [enumerate]. *)
Definition enumerate {A} (l : list A) : list (nat * A) :=
  zip (seq 0 (length l)) l.

(** [GEOMETRY_ANALYZER.bbox_xy_overlap], lines 155-158; [a > b] is
    written [b < a]. *)
Definition bbox_xy_overlap (b1 b2 : BoundingBoxXYZ) : bool :=
  bool_decide (coord_X (Min b1) < coord_X (Max b2))%Qc &&
  bool_decide (coord_X (Min b2) < coord_X (Max b1))%Qc &&
  bool_decide (coord_Y (Min b1) < coord_Y (Max b2))%Qc &&
  bool_decide (coord_Y (Min b2) < coord_Y (Max b1))%Qc.

Section Revit.
Variable H : Host.

(** [GEOMETRY_ANALYZER.create_scan_box], lines 117-141.  The profile is
    built before the height is looked at and outside the [try]; a failure
    of the extrusion is caught and gives [None]. *)
Definition create_scan_box (bbox : BoundingBoxXYZ) (z_limit : Qc)
    : result (option (Solid H)) :=
  let min_point := Min bbox in
  let max_point := Max bbox in
  let p1 := Point (coord_X min_point) (coord_Y min_point) (coord_Z max_point) in
  let p2 := Point (coord_X max_point) (coord_Y min_point) (coord_Z max_point) in
  let p3 := Point (coord_X max_point) (coord_Y max_point) (coord_Z max_point) in
  let p4 := Point (coord_X min_point) (coord_Y max_point) (coord_Z max_point) in
  match create_profile H p1 p2 p3 p4 with
  | None => Throw ApiException
  | Some curve_loop =>
      let extrusion_height := (z_limit - coord_Z max_point)%Qc in
      if decide (extrusion_height ≤ 0)%Qc then Return None
      else Return (CreateExtrusionGeometry H curve_loop extrusion_height)
  end.

(** [GEOMETRY_ANALYZER.check_collision], lines 144-152, on two solids. *)
Definition check_collision (solid_a solid_b : Solid H) : bool :=
  match ExecuteBooleanOperation H solid_a solid_b with
  | Intersection volume => bool_decide (COLLISION_TOLERANCE < volume)%Qc
  | Null => false
  | Thrown => false
  end.

(** The test of lines 173-177: [data_j] starts within the tolerance of
    where [data_i] ends, and their boxes overlap in plan. *)
Definition rests_on (data_i data_j : component H) : bool :=
  bool_decide (Qcabs (z_min data_j - z_max data_i) ≤ SUPPORT_TOLERANCE)%Qc &&
  (bool_decide (coord_X (Min (bbox data_i)) < coord_X (Max (bbox data_j)))%Qc &&
   bool_decide (coord_X (Min (bbox data_j)) < coord_X (Max (bbox data_i)))%Qc &&
   bool_decide (coord_Y (Min (bbox data_i)) < coord_Y (Max (bbox data_j)))%Qc &&
   bool_decide (coord_Y (Min (bbox data_j)) < coord_Y (Max (bbox data_i)))%Qc).

(** [support_adj[k].append(x)] on a [defaultdict(list)]. *)
Definition append_to (support_adj : gmap Z (list Z)) (k x : Z)
    : gmap Z (list Z) :=
  <[k := default [] (support_adj !! k) ++ [x]]> support_adj.

(** [GEOMETRY_ANALYZER.calculate_support_constraint], lines 161-179. *)
Definition calculate_support_constraint
    (comp_data_map : list (Z * component H)) : gmap Z (list Z) :=
  foldl (λ support_adj '(i, (id_i, data_i)),
           foldl (λ support_adj '(j, (id_j, data_j)),
                    if decide (i = j) then support_adj
                    else if rests_on data_i data_j
                         then append_to support_adj id_i id_j
                         else support_adj)
                 support_adj (enumerate comp_data_map))
        ∅ (enumerate comp_data_map).

(** The loop of lines 213-237 of [is_removable]: [false] as soon as a
    component still in place is hit by the scan box. *)
Fixpoint path_is_clear (comp_data_map : list (Z * component H))
    (comp_id : Z) (data_i : component H) (scan_box_solid : Solid H)
    (others : list Z) : result bool :=
  match others with
  | [] => Return true
  | other_id :: others =>
      if decide (other_id = comp_id)
      then path_is_clear comp_data_map comp_id data_i scan_box_solid others
      else
        data_j ← dict_get comp_data_map other_id;
        if decide (z_max data_j < z_max data_i)%Qc
        then path_is_clear comp_data_map comp_id data_i scan_box_solid others
        else if negb (bbox_xy_overlap (bbox data_i) (bbox data_j))
        then path_is_clear comp_data_map comp_id data_i scan_box_solid others
        else if check_collision scan_box_solid (solid data_j)
        then Return false
        else path_is_clear comp_data_map comp_id data_i scan_box_solid others
  end.

(** [SEQUENCE_GENERATOR.is_removable], lines 196-239.  [unremoved_set] is
    kept as the list of its members in iteration order. *)
Definition is_removable (comp_id : Z) (unremoved_set : list Z)
    (comp_data_map : list (Z * component H))
    (support_adj : gmap Z (list Z)) (z_project_max : Qc) : result bool :=
  if existsb (λ supported_id, bool_decide (supported_id ∈ unremoved_set))
             (default [] (support_adj !! comp_id))
  then Return false
  else
    data_i ← dict_get comp_data_map comp_id;
    scan_box_solid ← create_scan_box (bbox data_i) z_project_max;
    match scan_box_solid with
    | None => Return true
    | Some scan_box_solid =>
        path_is_clear comp_data_map comp_id data_i scan_box_solid
                      unremoved_set
    end.

(** Lines 254-256: the members of [unremoved_set] that can be removed. *)
Fixpoint removable_this_round (candidates unremoved_set : list Z)
    (comp_data_map : list (Z * component H))
    (support_adj : gmap Z (list Z)) (z_project_max : Qc)
    : result (list Z) :=
  match candidates with
  | [] => Return []
  | comp_id :: candidates =>
      r ← is_removable comp_id unremoved_set comp_data_map support_adj
                       z_project_max;
      rest ← removable_this_round candidates unremoved_set comp_data_map
                                  support_adj z_project_max;
      Return (if r : bool then comp_id :: rest else rest)
  end.

(** The scan of [max(unremoved_set, key=...)], line 260: the first member
    of greatest ["z_max"]. *)
Fixpoint max_by_z_max (comp_data_map : list (Z * component H))
    (best : Z) (best_key : Qc) (rest : list Z) : result Z :=
  match rest with
  | [] => Return best
  | x :: rest =>
      data ← dict_get comp_data_map x;
      if decide (best_key < z_max data)%Qc
      then max_by_z_max comp_data_map x (z_max data) rest
      else max_by_z_max comp_data_map best best_key rest
  end.

Definition fallback_comp (comp_data_map : list (Z * component H))
    (unremoved_set : list Z) : result Z :=
  match unremoved_set with
  | [] => Throw (Builtin ValueError)
  | x :: rest =>
      data ← dict_get comp_data_map x;
      max_by_z_max comp_data_map x (z_max data) rest
  end.

(** The variables of the [while] loop of lines 251-268, and the ids
    printed by line 262. *)
Record sequence_state := SequenceState {
  unremoved_set : list Z;
  disassembly_sequence_groups : list (list Z);
  forced : list Z
}.

(** One iteration of the loop, lines 252-266. *)
Definition sequence_step (comp_data_map : list (Z * component H))
    (support_adj : gmap Z (list Z)) (z_project_max : Qc)
    (st : sequence_state) : result sequence_state :=
  found ← removable_this_round (unremoved_set st) (unremoved_set st)
            comp_data_map support_adj z_project_max;
  '(removable, warned) ←
    match found with
    | [] =>
        fallback ← fallback_comp comp_data_map (unremoved_set st);
        Return ([fallback], [fallback])
    | _ :: _ => Return (found, [])
    end;
  Return (SequenceState
            (filter (λ x, x ∉ removable) (unremoved_set st))
            (disassembly_sequence_groups st ++ [merge_sort Z.le removable])
            (forced st ++ warned)).

(** The [while len(unremoved_set) > 0] loop. *)
Fixpoint sequence_loop (fuel : nat) (comp_data_map : list (Z * component H))
    (support_adj : gmap Z (list Z)) (z_project_max : Qc)
    (st : sequence_state) : result sequence_state :=
  match unremoved_set st with
  | [] => Return st
  | _ :: _ =>
      match fuel with
      | O => Unfinished
      | S fuel =>
          st' ← sequence_step comp_data_map support_adj z_project_max st;
          sequence_loop fuel comp_data_map support_adj z_project_max st'
      end
  end.

(** [max(data["z_max"] for data in comp_data_map.values())]. *)
Definition project_top (comp_data_map : list (Z * component H)) : Qc :=
  np_max ((λ kv, z_max kv.2) <$> comp_data_map).

(** [SEQUENCE_GENERATOR.generate_macro_sequence], lines 242-272: the
    disassembly groups, the assembly groups, and the ids whose forced
    removal was printed. *)
Definition generate_macro_sequence (comp_data_map : list (Z * component H))
    (support_adj : gmap Z (list Z))
    : result (list (list Z) * list (list Z) * list Z) :=
  match comp_data_map with
  | [] => Return ([], [], [])
  | _ :: _ =>
      let unremoved_set := set_iteration H (comp_data_map.*1) in
      let z_project_max := project_top comp_data_map in
      st ← sequence_loop (length unremoved_set) comp_data_map support_adj
             z_project_max (SequenceState unremoved_set [] []);
      let assembly_sequence_groups :=
        reverse (disassembly_sequence_groups st) in
      Return (disassembly_sequence_groups st, assembly_sequence_groups,
              forced st)
  end.
End Revit.

(** A stand-in host, to run the model on examples: solids are boxes, the
    extrusion of a box profile is the box above it, the intersection of
    two boxes has the volume of their overlap, sets iterate in insertion
    order. *)
Definition overlap_1d (lo1 hi1 lo2 hi2 : Qc) : Qc :=
  Qcmax 0%Qc (Qcmin hi1 hi2 - Qcmax lo1 lo2)%Qc.

Definition box_host : Host := {|
  Solid := BoundingBoxXYZ;
  CurveLoop := XYZ * XYZ;
  create_profile := λ p1 _ p3 _, Some (p1, p3);
  CreateExtrusionGeometry := λ loop height,
    Some (Box loop.1 (Point (coord_X loop.2) (coord_Y loop.2)
                            (coord_Z loop.2 + height)%Qc));
  ExecuteBooleanOperation := λ a b,
    Intersection
      (overlap_1d (coord_X (Min a)) (coord_X (Max a))
                  (coord_X (Min b)) (coord_X (Max b))
       * overlap_1d (coord_Y (Min a)) (coord_Y (Max a))
                    (coord_Y (Min b)) (coord_Y (Max b))
       * overlap_1d (coord_Z (Min a)) (coord_Z (Max a))
                    (coord_Z (Min b)) (coord_Z (Max b)))%Qc;
  set_iteration := λ keys, keys
|}.

(** A box-shaped component of [box_host]. *)
Definition block (x0 y0 z0 x1 y1 z1 : Z) : component box_host :=
  let b := Box (Point (qz x0) (qz y0) (qz z0))
               (Point (qz x1) (qz y1) (qz z1)) in
  Component (H := box_host) b (qz z0) (qz z1) b.

(** A slab on two columns: ids 1 and 2 carry id 3. *)
Definition portal : list (Z * component box_host) :=
  [(1, block 0 0 0 1 1 3); (2, block 4 0 0 5 1 3); (3, block 0 0 3 5 1 4)].

(** ** Notions used to state the properties of the sequencing *)

(** Interpreters iterate over a set of distinct ids in some order. *)
Definition host_ok (H : Host) : Prop :=
  ∀ keys, NoDup keys → set_iteration H keys ≡ₚ keys.

(** The components that entry [i] of the map carries, in map order. *)
Definition carried {H} (comp_data_map : list (Z * component H)) (i : nat)
    (data_i : component H) : list Z :=
  (λ jkv, jkv.2.1)
    <$> filter (λ jkv : nat * (Z * component H),
                  jkv.1 ≠ i ∧ rests_on H data_i jkv.2.2)
               (enumerate comp_data_map).



(** What a [defaultdict(list)] holds for a key after the appends of a
    list: nothing when nothing was appended. *)
Definition recorded (l : list Z) : option (list Z) :=
  match l with [] => None | _ :: _ => Some l end.

(** The invariant of the loop of [generate_macro_sequence], at the loop
    test: the groups formed so far and the components still in place
    share out the keys; every group is non-empty and increasing; the
    forced ids have been removed; and whatever a removed component that
    was not forced carries, among the keys, was removed in an earlier
    group. *)
Record sequence_inv (keys : list Z) (support_adj : gmap Z (list Z))
    (st : sequence_state) : Prop := {
  sq_nodup : NoDup (unremoved_set st);
  sq_perm : concat (disassembly_sequence_groups st) ++ unremoved_set st
            ≡ₚ keys;
  sq_groups : ∀ g, g ∈ disassembly_sequence_groups st →
                   g ≠ [] ∧ StronglySorted Z.lt g;
  sq_forced : ∀ x, x ∈ forced st →
                   x ∈ concat (disassembly_sequence_groups st);
  sq_order : ∀ gi g x y,
    disassembly_sequence_groups st !! gi = Some g → x ∈ g →
    x ∉ forced st → y ∈ default [] (support_adj !! x) → y ∈ keys →
    ∃ gj g', (gj < gi)%nat ∧
             disassembly_sequence_groups st !! gj = Some g' ∧ y ∈ g'
}.

(** The profile of some component of the map cannot be built. *)
Definition profile_fails (H : Host) (comp_data_map : list (Z * component H))
    (z_project_max : Qc) : Prop :=
  ∃ id data, (id, data) ∈ comp_data_map ∧
             create_scan_box H (bbox data) z_project_max
             = Throw ApiException.

(** ** Module two: the stand-in objective function (lines 130-147)

    The standard deviation of the first objective is not a rational
    number in general: [np.std] is a parameter.  [np.mean] of no index at
    all is not a number and is outside the model. *)
Definition evaluate_objectives (argsort : list efloat → list nat)
    (np_std : list nat → Qc) (pos : vec) (pb : problem) : vec :=
  let sensor_indices := optimal_sensor_indices argsort pos (n_sensors pb) in
  let as_floats := (λ i : nat, Qc_of_Z (Z.of_nat i)) <$> sensor_indices in
  let f1 := (- np_std sensor_indices)%Qc in
  let f2 :=
    Qcabs (np_sum as_floats / Qc_of_Z (Z.of_nat (length sensor_indices))
           - Qc_of_Z (dimension pb) / Qc_of_Z 2)%Qc in
  let f3 := np_sum as_floats in
  [f1; f2; f3].

(** ** Reading the components (lines 81-107) and the main flow
       (lines 322-354) *)

(** An object of the geometry of an element: a solid with its volume, or
    something else. *)
Inductive GeometryObject (H : Host) :=
  | SolidGeometry (s : Solid H) (Volume : Qc)
  | OtherGeometry.

Arguments SolidGeometry {H} s Volume.
Arguments OtherGeometry {H}.

(** An element of the document, as far as the parser reads it for the
    analysis: [Id.IntegerValue], [get_BoundingBox(None)] and
    [get_Geometry(options)], the last two [None] where the API answers
    with no object.  A box has its two corners.  The name, category and
    level of the element, which only label the output, are left out. *)
Record Element (H : Host) := {
  Id : Z;
  BoundingBox : option BoundingBoxXYZ;
  Geometry : option (list (GeometryObject H))
}.

Arguments Id {H} e.
Arguments BoundingBox {H} e.
Arguments Geometry {H} e.

(** [d[k] = v] on a dictionary: a key keeps its place. *)
Fixpoint dict_set {A} (d : list (Z * A)) (k : Z) (v : A) : list (Z * A) :=
  match d with
  | [] => [(k, v)]
  | (k', v') :: d =>
      if decide (k' = k) then (k', v) :: d else (k', v') :: dict_set d k v
  end.

(** Line 94: the solids of positive volume. *)
Definition solid_geos {H} (geometry : list (GeometryObject H))
    : list (Solid H) :=
  omap (λ s, match s with
             | SolidGeometry s volume =>
                 if decide (0 < volume)%Qc then Some s else None
             | OtherGeometry => None
             end) geometry.

(** The body of the loop of [BIM_PARSER.parse_component_data], lines
    85-106.  Iterating over no geometry is a [TypeError]. *)
Definition parse_element {H} (component_data_map : list (Z * component H))
    (elem : Element H) : result (list (Z * component H)) :=
  match BoundingBox elem with
  | None => Return component_data_map
  | Some bbox =>
      let comp_id := Id elem in
      match Geometry elem with
      | None => Throw TypeError
      | Some geometry =>
          match solid_geos geometry with
          | [] => Return component_data_map
          | first_solid :: _ =>
              Return (dict_set component_data_map comp_id
                        (Component bbox (coord_Z (Min bbox))
                                   (coord_Z (Max bbox)) first_solid))
          end
      end
  end.

Fixpoint parse_loop {H} (components : list (Element H))
    (component_data_map : list (Z * component H))
    : result (list (Z * component H)) :=
  match components with
  | [] => Return component_data_map
  | elem :: components =>
      component_data_map ← parse_element component_data_map elem;
      parse_loop components component_data_map
  end.

(** [BIM_PARSER.parse_component_data], lines 81-107. *)
Definition parse_component_data {H} (components : list (Element H))
    : result (list (Z * component H)) :=
  parse_loop components [].

(** [main] of the script, lines 322-354, from the collected elements on:
    [None] is the message that no component was found; otherwise the
    parts of [output_data] that the analysis computes, the component
    count, the support lists and the two sequences of groups. *)
Definition main (H : Host) (raw_components : list (Element H))
    : result (option (nat * gmap Z (list Z)
                      * list (list Z) * list (list Z))) :=
  component_data_map ← parse_component_data raw_components;
  match component_data_map with
  | [] => Return None
  | _ :: _ =>
      let support_adj := calculate_support_constraint H component_data_map in
      '(disassembly_groups, assembly_groups, _) ←
        generate_macro_sequence H component_data_map support_adj;
      Return (Some (length component_data_map, support_adj,
                    disassembly_groups, assembly_groups))
  end.

(** An element that the parser keeps: it has a box, and a solid of
    positive volume in its geometry. *)
Definition kept {H} (elem : Element H) : Prop :=
  is_Some (BoundingBox elem) ∧
  ∃ geometry s volume,
    Geometry elem = Some geometry ∧
    SolidGeometry s volume ∈ geometry ∧ (0 < volume)%Qc.

(** An entry of the map that was read off an element. *)
Definition read_from {H} (elem : Element H) (entry : Z * component H)
    : Prop :=
  entry.1 = Id elem ∧
  BoundingBox elem = Some (bbox entry.2) ∧
  z_min entry.2 = coord_Z (Min (bbox entry.2)) ∧
  z_max entry.2 = coord_Z (Max (bbox entry.2)) ∧
  ∃ geometry volume,
    Geometry elem = Some geometry ∧
    SolidGeometry (solid entry.2) volume ∈ geometry ∧ (0 < volume)%Qc.

(** The elements of the portal, for [box_host]. *)
Definition portal_elements : list (Element box_host) :=
  (λ kv : Z * component box_host,
     {| Id := kv.1; BoundingBox := Some (bbox kv.2);
        Geometry := Some [OtherGeometry; SolidGeometry (solid kv.2) 1%Qc] |})
    <$> portal.
(** ** Reflection of the array tests *)

Lemma np_all_le_spec (a b : vec) :
  np_all (arr_le a b) = true ↔
  ∀ k x y, a !! k = Some x → b !! k = Some y → (x ≤ y)%Qc.
Proof.
  unfold np_all, arr_le. revert b.
  induction a as [|x a IH]; intros [|y b]; simpl.
  - split; [intros _ k ? ? H|]; [by destruct k | done].
  - split; [intros _ k ? ? H|]; [by destruct k | done].
  - split; [intros _ k ? ? _ H|]; [by destruct k | done].
  - rewrite andb_true_iff, bool_decide_eq_true, IH. unfold id. split.
    + intros [Hxy Hall] [|k] x' y'; simpl.
      * by intros [= <-] [= <-].
      * apply Hall.
    + intros H. split; [exact (H 0%nat x y eq_refl eq_refl)|].
      intros k. exact (H (S k)).
Qed.

Lemma np_any_lt_spec (a b : vec) :
  np_any (arr_lt a b) = true ↔
  ∃ k x y, a !! k = Some x ∧ b !! k = Some y ∧ (x < y)%Qc.
Proof.
  unfold np_any, arr_lt. revert b.
  induction a as [|x a IH]; intros [|y b]; simpl.
  - split; [done | by intros ([|?] & ? & ? & ? & ? & ?)].
  - split; [done | by intros ([|?] & ? & ? & ? & ? & ?)].
  - split; [done | by intros ([|?] & ? & ? & ? & ? & ?)].
  - rewrite orb_true_iff, bool_decide_eq_true, IH. unfold id. split.
    + intros [Hxy | (k & x' & y' & ? & ? & ?)].
      * by exists 0%nat, x, y.
      * by exists (S k), x', y'.
    + intros ([|k] & x' & y' & Ha & Hb & Hlt); simpl in *.
      * left. by simplify_eq.
      * right. by exists k, x', y'.
Qed.

Lemma dominates_test (a b : vec) :
  np_all (arr_le a b) && np_any (arr_lt a b) = true ↔ dominates a b.
Proof.
  unfold dominates.
  by rewrite andb_true_iff, np_all_le_spec, np_any_lt_spec.
Qed.

Lemma dominates_asym (a b : vec) : dominates a b → ¬ dominates b a.
Proof.
  intros [_ (k & x & y & Ha & Hb & Hlt)] [Hle _].
  apply (Qclt_not_le _ _ Hlt). by apply (Hle k).
Qed.

Lemma dd_one_iff (a b : vec) : determine_dominance a b = 1 ↔ dominates a b.
Proof.
  unfold determine_dominance. rewrite <-dominates_test.
  destruct (np_all (arr_le a b) && np_any (arr_lt a b)); [done|].
  destruct (np_all (arr_le b a) && np_any (arr_lt b a)); done.
Qed.

Lemma dd_minus_one_iff (a b : vec) :
  determine_dominance a b = -1 ↔ dominates b a.
Proof.
  unfold determine_dominance.
  destruct (np_all (arr_le a b) && np_any (arr_lt a b)) eqn:Hab.
  - apply dominates_test in Hab. split; [done|].
    intros Hba. by destruct (dominates_asym _ _ Hab).
  - rewrite <-dominates_test.
    destruct (np_all (arr_le b a) && np_any (arr_lt b a)); done.
Qed.

Lemma dd_zero_iff (a b : vec) :
  determine_dominance a b = 0 ↔ ¬ dominates a b ∧ ¬ dominates b a.
Proof.
  unfold determine_dominance. rewrite <-!dominates_test.
  destruct (np_all (arr_le a b) && np_any (arr_lt a b));
    destruct (np_all (arr_le b a) && np_any (arr_lt b a));
    intuition congruence.
Qed.

Lemma dominates_irrefl (a : vec) : ¬ dominates a a.
Proof. intros H. exact (dominates_asym _ _ H H). Qed.

(** C9: the three-valued result of [determine_dominance] on equal-length
    vectors is [+1] exactly when the first argument dominates the second
    (every coordinate [<=], one coordinate [<]), [-1] exactly when the
    second dominates the first, and [0] exactly otherwise, equal vectors
    included; [[1,2,3]] against [[2,3,4]] gives [1] and [[1,5]] against
    [[5,1]] gives [0]. *)
Theorem determine_dominance_spec (a b : vec) :
  length a = length b →
  (determine_dominance a b = 1 ↔ dominates a b) ∧
  (determine_dominance a b = -1 ↔ dominates b a) ∧
  (determine_dominance a b = 0 ↔ ¬ dominates a b ∧ ¬ dominates b a) ∧
  determine_dominance a a = 0 ∧
  determine_dominance [qz 1; qz 2; qz 3] [qz 2; qz 3; qz 4] = 1 ∧
  determine_dominance [qz 1; qz 5] [qz 5; qz 1] = 0.
Proof.
  intros _. split_and!.
  - apply dd_one_iff.
  - apply dd_minus_one_iff.
  - apply dd_zero_iff.
  - apply dd_zero_iff. split; apply dominates_irrefl.
  - reflexivity.
  - reflexivity.
Qed.

Lemma determine_dominance_spec_witness :
  length [qz 1; qz 2] = length [qz 2; qz 2] ∧
  determine_dominance [qz 1; qz 2] [qz 2; qz 2] = 1.
Proof.
  split; [reflexivity|].
  pose proof (determine_dominance_spec [qz 1; qz 2] [qz 2; qz 2] eq_refl)
    as (Hone & _).
  apply Hone. split.
  - intros [|[|k]] x y; simpl; intros [= <-] [= <-]; by vm_compute.
  - exists 0%nat, (qz 1), (qz 2). by vm_compute.
Defined.
(** ** Generic facts on folds and filters *)

Lemma foldl_nested {A B C} (f : A → C → A) (g : B → list C) (l : list B) a :
  foldl (λ acc i, foldl f acc (g i)) a l = foldl f a (l ≫= g).
Proof.
  revert a. induction l as [|i l IH]; intros a; simpl; [done|].
  by rewrite foldl_app, IH.
Qed.

Lemma foldl_nested_pairs {A B C} (f : B → C → A → A) (g : B → list C)
    (l : list B) a :
  foldl (λ acc i, foldl (λ acc j, f i j acc) acc (g i)) a l
  = foldl (λ acc p, f p.1 p.2 acc) a (i ← l; pair i <$> g i).
Proof.
  revert a. induction l as [|i l IH]; intros a; simpl; [done|].
  rewrite foldl_app, <-IH. f_equal.
  generalize (g i). clear. intros k. revert a.
  induction k as [|j k IH]; intros a; simpl; [done|]. by rewrite IH.
Qed.

Lemma filter_length_ext {A} (P Q : A → Prop)
    `{!∀ x, Decision (P x)} `{!∀ x, Decision (Q x)} (l : list A) :
  (∀ x, x ∈ l → P x ↔ Q x) → length (filter P l) = length (filter Q l).
Proof.
  induction l as [|x l IH]; intros HPQ; [done|].
  rewrite !filter_cons.
  assert (P x ↔ Q x) as Hx by (apply HPQ; left).
  assert (length (filter P l) = length (filter Q l)) as Hl
    by (apply IH; intros y Hy; apply HPQ; by right).
  destruct (decide (P x)), (decide (Q x)); simpl; tauto || lia.
Qed.

Lemma filter_length_extra {A} (P Q : A → Prop)
    `{!∀ x, Decision (P x)} `{!∀ x, Decision (Q x)} (l : list A) (a : A) :
  NoDup l → a ∈ l → ¬ P a → Q a →
  (∀ x, x ∈ l → x ≠ a → P x ↔ Q x) →
  length (filter Q l) = S (length (filter P l)).
Proof.
  induction l as [|x l IH]; intros Hnd Ha HPa HQa HPQ.
  { by apply elem_of_nil in Ha. }
  apply NoDup_cons in Hnd as [Hx Hnd].
  rewrite !filter_cons.
  apply elem_of_cons in Ha as [<-|Ha].
  - rewrite decide_True, decide_False by done. simpl. f_equal.
    apply filter_length_ext. intros y Hy. symmetry. apply HPQ; [by right|].
    intros ->. done.
  - assert (x ≠ a) as Hne by (intros ->; done).
    assert (P x ↔ Q x) as Hxx by (apply HPQ; [left|done]).
    assert (length (filter Q l) = S (length (filter P l))) as Hl.
    { apply IH; try done. intros y Hy. apply HPQ. by right. }
    destruct (decide (P x)), (decide (Q x)); simpl; tauto || lia.
Qed.

Lemma filter_length_split {A} (P : A → Prop) `{!∀ x, Decision (P x)}
    `{!EqDecision A} (l C : list A) :
  NoDup l → NoDup C → (∀ x, x ∈ C → x ∈ l) →
  length (filter P l)
  = (length (filter P C) + length (filter (λ x, P x ∧ x ∉ C) l))%nat.
Proof.
  intros Hl HC Hsub.
  assert (filter (λ x, x ∈ C) l ≡ₚ C) as Hperm.
  { apply NoDup_Permutation; [by apply NoDup_filter|done|].
    intros x. rewrite list_elem_of_filter.
    split; [by intros [? _]|]. intros ?. split; [done|by apply Hsub]. }
  rewrite <-(filter_app_complement (λ x, x ∈ C) l) at 1.
  rewrite filter_app, length_app. f_equal.
  - by rewrite Hperm.
  - rewrite list_filter_filter. apply filter_length_ext. tauto.
Qed.
(** ** The pair loop: domination sets and counts *)

Lemma dd_idx_one scores i j :
  (i < length scores)%nat → (j < length scores)%nat →
  determine_dominance (scores !!! i) (scores !!! j) = 1
  ↔ idx_dominates scores i j.
Proof. unfold idx_dominates. tauto. Qed.

Lemma dd_idx_minus_one scores i j :
  (i < length scores)%nat → (j < length scores)%nat →
  determine_dominance (scores !!! i) (scores !!! j) = -1
  ↔ idx_dominates scores j i.
Proof.
  intros Hi Hj. unfold idx_dominates.
  rewrite dd_minus_one_iff, dd_one_iff. tauto.
Qed.

Lemma idx_dominates_asym scores i j :
  idx_dominates scores i j → ¬ idx_dominates scores j i.
Proof.
  intros (_ & _ & H1) (_ & _ & H2).
  apply dd_one_iff in H1, H2. by apply (dominates_asym _ _ H1).
Qed.

Lemma idx_dominates_irrefl scores i : ¬ idx_dominates scores i i.
Proof. intros H. exact (idx_dominates_asym _ _ _ H H). Qed.

Lemma idx_dominates_lt scores i j :
  idx_dominates scores i j → (i < length scores ∧ j < length scores)%nat.
Proof. intros (? & ? & _). done. Qed.

Lemma compared_snoc L i j a b :
  compared (L ++ [(i, j)]) a b
  ↔ compared L a b ∨ (a = i ∧ b = j) ∨ (a = j ∧ b = i).
Proof.
  unfold compared. rewrite !elem_of_app, !list_elem_of_singleton.
  split.
  - intros [[?|[= -> ->]]|[?|[= -> ->]]]; tauto.
  - intros [[?|?]|[[-> ->]|[-> ->]]]; tauto.
Qed.

Lemma count_dominators_ext scores (P Q : nat → Prop)
    `{!∀ i, Decision (P i)} `{!∀ i, Decision (Q i)} j :
  (∀ i, idx_dominates scores i j → P i ↔ Q i) →
  count_dominators scores P j = count_dominators scores Q j.
Proof.
  intros HPQ. unfold count_dominators. apply filter_length_ext.
  intros i _. specialize (HPQ i). tauto.
Qed.

Lemma count_dominators_extra scores (P Q : nat → Prop)
    `{!∀ i, Decision (P i)} `{!∀ i, Decision (Q i)} j a :
  idx_dominates scores a j → ¬ P a → Q a →
  (∀ i, i ≠ a → idx_dominates scores i j → P i ↔ Q i) →
  count_dominators scores Q j = S (count_dominators scores P j).
Proof.
  intros Ha HPa HQa HPQ. unfold count_dominators.
  apply (filter_length_extra _ _ _ a).
  - apply NoDup_seq.
  - apply elem_of_seq. destruct Ha as (? & _). lia.
  - tauto.
  - tauto.
  - intros i _ Hne. specialize (HPQ i Hne). tauto.
Qed.

Lemma pairs_inv_step scores L st i j :
  pairs_inv scores L st →
  (i < j)%nat → (j < length scores)%nat → ¬ compared L i j →
  pairs_inv scores (L ++ [(i, j)]) (compare_pair scores i j st).
Proof.
  destruct st as [sets counts].
  intros (Hls & Hlc & Hsets & Hcounts) Hij Hj Hnew. simpl in *.
  assert (i < length scores)%nat as Hi by lia.
  assert (¬ compared L j i) as Hnew'.
  { intros [?|?]; apply Hnew; [by right|by left]. }
  unfold compare_pair.
  destruct (Z.eqb_spec (determine_dominance (scores !!! i) (scores !!! j)) 1)
    as [Hd|Hd1].
  - (* row i dominates row j *)
    apply dd_idx_one in Hd; [|done..].
    pose proof (idx_dominates_asym _ _ _ Hd) as Hnd.
    split_and!; simpl.
    + by rewrite length_alter.
    + by rewrite length_alter.
    + intros a Ha. destruct (decide (a = i)) as [->|Hne].
      * rewrite list_lookup_total_alter_eq by lia.
        destruct (Hsets i Hi) as [Hnodup Hmem]. split.
        -- apply NoDup_app. split_and!; [done| |apply NoDup_singleton].
           intros x Hx ->%list_elem_of_singleton.
           apply Hmem in Hx as [_ Hx]. done.
        -- intros x. rewrite elem_of_app, list_elem_of_singleton, Hmem,
             compared_snoc.
           split; [|intros (? & [?|[[_ ->]|[-> _]]]); auto; lia].
           intros [[? ?]| ->]; auto.
      * rewrite list_lookup_total_alter_ne by done.
        destruct (Hsets a Ha) as [Hnodup Hmem]. split; [done|].
        intros x. rewrite Hmem, compared_snoc.
        split; [intros [? ?]; auto|].
        intros (Hax & [?|[[-> _]|[-> ->]]]); done.
    + intros b Hb. destruct (decide (b = j)) as [->|Hne].
      * rewrite list_lookup_total_alter_eq by lia.
        rewrite (Hcounts j Hj).
        rewrite (count_dominators_extra scores (compared L j)
                   (compared (L ++ [(i, j)]) j) j i); [lia|done|done| |].
        -- apply compared_snoc. auto.
        -- intros x Hne Hx. rewrite compared_snoc. split; [auto|].
           intros [?|[[? _]|[_ ?]]]; [done|lia|done].
      * rewrite list_lookup_total_alter_ne by done.
        rewrite (Hcounts b Hb). f_equal.
        apply count_dominators_ext. intros x Hx. rewrite compared_snoc.
        split; [auto|]. intros [?|[[-> ->]|[-> _]]]; done.
  - destruct (Z.eqb_spec (determine_dominance (scores !!! i) (scores !!! j))
                (-1)) as [Hd|Hd2].
    + (* row j dominates row i *)
      apply dd_idx_minus_one in Hd; [|done..].
      pose proof (idx_dominates_asym _ _ _ Hd) as Hnd.
      split_and!; simpl.
      * by rewrite length_alter.
      * by rewrite length_alter.
      * intros a Ha. destruct (decide (a = j)) as [->|Hne].
        -- rewrite list_lookup_total_alter_eq by lia.
           destruct (Hsets j Hj) as [Hnodup Hmem]. split.
           ++ apply NoDup_app. split_and!; [done| |apply NoDup_singleton].
              intros x Hx ->%list_elem_of_singleton.
              apply Hmem in Hx as [_ Hx]. done.
           ++ intros x. rewrite elem_of_app, list_elem_of_singleton, Hmem,
                compared_snoc.
              split; [|intros (? & [?|[[-> _]|[_ ->]]]); auto; lia].
              intros [[? ?]| ->]; auto.
        -- rewrite list_lookup_total_alter_ne by done.
           destruct (Hsets a Ha) as [Hnodup Hmem]. split; [done|].
           intros x. rewrite Hmem, compared_snoc.
           split; [intros [? ?]; auto|].
           intros (Hax & [?|[[-> ->]|[-> _]]]); done.
      * intros b Hb. destruct (decide (b = i)) as [->|Hne].
        -- rewrite list_lookup_total_alter_eq by lia.
           rewrite (Hcounts i Hi).
           rewrite (count_dominators_extra scores (compared L i)
                      (compared (L ++ [(i, j)]) i) i j); [lia|done|done| |].
           ++ apply compared_snoc. auto.
           ++ intros x Hne Hx. rewrite compared_snoc. split; [auto|].
              intros [?|[[_ ?]|[? _]]]; [done|done|lia].
        -- rewrite list_lookup_total_alter_ne by done.
           rewrite (Hcounts b Hb). f_equal.
           apply count_dominators_ext. intros x Hx. rewrite compared_snoc.
           split; [auto|]. intros [?|[[-> _]|[-> ->]]]; done.
    + (* neither dominates *)
      assert (¬ idx_dominates scores i j) as Hn1
        by (by rewrite <-dd_idx_one).
      assert (¬ idx_dominates scores j i) as Hn2
        by (by rewrite <-dd_idx_minus_one).
      split_and!; simpl; [done|done| |].
      * intros a Ha. destruct (Hsets a Ha) as [Hnodup Hmem].
        split; [done|]. intros x. rewrite Hmem, compared_snoc.
        split; [intros [? ?]; auto|].
        intros (Hax & [?|[[-> ->]|[-> ->]]]); done.
      * intros b Hb. rewrite (Hcounts b Hb). f_equal.
        apply count_dominators_ext. intros x Hx. rewrite compared_snoc.
        split; [auto|]. intros [?|[[-> ->]|[-> ->]]]; done.
Qed.
Lemma pairs_inv_fold scores ps : ∀ L st,
  pairs_inv scores L st →
  NoDup (L ++ ps) →
  (∀ p, p ∈ L ++ ps → (p.1 < p.2 < length scores)%nat) →
  pairs_inv scores (L ++ ps)
    (foldl (λ st p, compare_pair scores p.1 p.2 st) st ps).
Proof.
  induction ps as [|[i j] ps IH]; intros L st Hinv Hnd Hlt; simpl.
  { by rewrite app_nil_r. }
  replace (L ++ (i, j) :: ps) with ((L ++ [(i, j)]) ++ ps) in *
    by (by rewrite <-app_assoc).
  apply IH; [|done|done].
  assert ((i < j < length scores)%nat) as Hij.
  { apply (Hlt (i, j)). rewrite !elem_of_app, list_elem_of_singleton. auto. }
  apply pairs_inv_step; [done|lia|lia|].
  apply NoDup_app in Hnd as [Hnd _]. apply NoDup_app in Hnd as (_ & Hnd & _).
  intros [Hin|Hin].
  - apply (Hnd _ Hin). by apply list_elem_of_singleton.
  - assert ((j < i)%nat); [|lia].
    apply (Hlt (j, i)). rewrite !elem_of_app. auto.
Qed.

Lemma elem_of_all_pairs n i j :
  (i, j) ∈ all_pairs n ↔ (i < j < n)%nat.
Proof.
  unfold all_pairs. rewrite list_elem_of_bind. split.
  - intros (a & Hp & Ha). apply list_elem_of_fmap in Hp as (b & [= -> ->] & Hb).
    apply elem_of_seq in Ha, Hb. lia.
  - intros Hij. exists i. split.
    + apply list_elem_of_fmap. exists j. split; [done|].
      apply elem_of_seq. lia.
    + apply elem_of_seq. lia.
Qed.

Lemma NoDup_all_pairs n : NoDup (all_pairs n).
Proof.
  unfold all_pairs.
  assert (∀ k s, NoDup (i ← seq s k; pair i <$> seq (S i) (n - S i))) as H;
    [|apply H].
  induction k as [|k IH]; intros s; simpl; [constructor|].
  apply NoDup_app. split_and!.
  - apply NoDup_fmap_2; [|apply NoDup_seq]. by intros ?? [= ->].
  - intros [a b] (b' & [= -> ->] & Hb)%list_elem_of_fmap.
    rewrite list_elem_of_bind. intros (a & Hp & Ha).
    apply list_elem_of_fmap in Hp as (? & [= -> ->] & _).
    apply elem_of_seq in Ha. lia.
  - apply IH.
Qed.

Lemma pairs_inv_init scores :
  pairs_inv scores []
    (replicate (length scores) [], replicate (length scores) 0).
Proof.
  split_and!; simpl.
  - apply length_replicate.
  - apply length_replicate.
  - intros i Hi. rewrite lookup_total_replicate_2 by done. split.
    + constructor.
    + intros x. split; [by intros ?%elem_of_nil|].
      intros [_ [?%elem_of_nil|?%elem_of_nil]]; done.
  - intros j Hj. rewrite lookup_total_replicate_2 by done.
    unfold count_dominators.
    rewrite (filter_length_ext _ (λ _, False)).
    + induction (seq 0 (length scores)) as [|x l IH]; [done|].
      rewrite filter_cons_False; [done|tauto].
    + intros i _. split; [|done].
      intros [_ [?%elem_of_nil|?%elem_of_nil]]; done.
Qed.

(** The outcome of lines 59-70: [domination_sets[i]] lists, without
    repetition, the rows that row [i] dominates, and [dominated_counts[j]]
    is the number of rows that dominate row [j]. *)
Lemma count_dominations_spec scores :
  let '(sets, counts) := count_dominations scores in
  length sets = length scores ∧ length counts = length scores ∧
  (∀ i, (i < length scores)%nat →
        NoDup (sets !!! i) ∧ ∀ x, x ∈ sets !!! i ↔ idx_dominates scores i x) ∧
  (∀ j, (j < length scores)%nat →
        counts !!! j = Z.of_nat (count_dominators scores (λ _, True) j)).
Proof.
  unfold count_dominations.
  rewrite (foldl_nested_pairs (compare_pair scores)
             (λ i, seq (S i) (length scores - S i))).
  fold (all_pairs (length scores)).
  pose proof (pairs_inv_fold scores (all_pairs (length scores)) [] _
                (pairs_inv_init scores)) as Hinv.
  simpl in Hinv.
  destruct (foldl _ _ (all_pairs (length scores))) as [sets counts].
  destruct Hinv as (Hls & Hlc & Hsets & Hcounts).
  { apply NoDup_all_pairs. }
  { intros [i j] Hp. by apply elem_of_all_pairs in Hp. }
  assert (∀ a b, idx_dominates scores a b →
                 compared (all_pairs (length scores)) a b) as Hall.
  { intros a b Hab. unfold compared. rewrite !elem_of_all_pairs.
    destruct (idx_dominates_lt _ _ _ Hab).
    destruct (decide (a = b)) as [->|].
    - by destruct (idx_dominates_irrefl scores b).
    - lia. }
  simpl in *. split_and!; [done|done| |].
  - intros i Hi. destruct (Hsets i Hi) as [? Hmem]. split; [done|].
    intros x. rewrite Hmem. split; [tauto|]. intros ?. split; auto.
  - intros j Hj. rewrite (Hcounts j Hj). f_equal.
    apply count_dominators_ext. intros i Hi. split; [done|].
    intros _. destruct (Hall _ _ Hi); [by right|by left].
Qed.
(** ** The decrement loop of one front *)

Lemma occurrences_cons j x l :
  occurrences j (x :: l)
  = ((if decide (x = j) then 1 else 0) + occurrences j l)%nat.
Proof.
  unfold occurrences. rewrite filter_cons.
  by destruct (decide (x = j)).
Qed.

Lemma occurrences_app j l k :
  occurrences j (l ++ k) = (occurrences j l + occurrences j k)%nat.
Proof. unfold occurrences. by rewrite filter_app, length_app. Qed.

Lemma occurrences_pos j l : (0 < occurrences j l)%nat → j ∈ l.
Proof.
  induction l as [|x l IH]; [unfold occurrences; simpl; lia|].
  rewrite occurrences_cons. destruct (decide (x = j)) as [->|]; [left|].
  intros H. right. apply IH. lia.
Qed.

Lemma occurrences_NoDup j l :
  NoDup l → occurrences j l = if decide (j ∈ l) then 1%nat else 0%nat.
Proof.
  induction 1 as [|x l Hx Hnd IH]; [done|].
  rewrite occurrences_cons, IH.
  destruct (decide (x = j)) as [->|Hne].
  - rewrite decide_False by done. rewrite decide_True by left. done.
  - destruct (decide (j ∈ l)).
    + rewrite decide_True by (by right). done.
    + rewrite decide_False; [done|]. intros [?|?]%elem_of_cons; done.
Qed.

Lemma release_fold targets : ∀ counts next,
  (∀ j, j ∈ targets → (j < length counts)%nat) →
  ∃ counts' L,
    foldl release (counts, next) targets = (counts', next ++ L) ∧
    length counts' = length counts ∧
    (∀ j, counts' !!! j
          = counts !!! j - Z.of_nat (occurrences j targets)) ∧
    NoDup L ∧
    (∀ j, j ∈ L ↔ 1 ≤ counts !!! j ≤ Z.of_nat (occurrences j targets)).
Proof.
  induction targets as [|j0 targets IH]; intros counts next Hlt; simpl.
  { exists counts, []. rewrite app_nil_r. split_and!; [done|done| |constructor|].
    - intros j. unfold occurrences. simpl. lia.
    - intros j. unfold occurrences. simpl.
      split; [by intros ?%elem_of_nil|lia]. }
  assert (j0 < length counts)%nat as Hj0 by (apply Hlt; left).
  set (counts1 := alter Z.pred j0 counts).
  assert (counts1 !!! j0 = counts !!! j0 - 1) as Hc1.
  { unfold counts1. rewrite list_lookup_total_alter_eq by done. lia. }
  assert (∀ j, j ≠ j0 → counts1 !!! j = counts !!! j) as Hc1'.
  { intros j Hne. unfold counts1. by rewrite list_lookup_total_alter_ne. }
  assert (∀ j, j ∈ targets → (j < length counts1)%nat) as Hlt1.
  { intros j Hj. unfold counts1. rewrite length_alter. apply Hlt. by right. }
  destruct (Z.eqb_spec (counts1 !!! j0) 0) as [Hz|Hnz].
  - destruct (IH counts1 (next ++ [j0]) Hlt1)
      as (counts' & L & Hfold & Hlen & Hval & Hnd & Hmem).
    exists counts', (j0 :: L). split_and!.
    + rewrite Hfold. by rewrite <-app_assoc.
    + rewrite Hlen. apply length_alter.
    + intros j. rewrite Hval, occurrences_cons.
      destruct (decide (j0 = j)) as [<-|Hne]; [lia|].
      rewrite Hc1' by done. lia.
    + constructor; [|done]. rewrite Hmem. lia.
    + intros j. rewrite elem_of_cons, Hmem, occurrences_cons.
      destruct (decide (j0 = j)) as [<-|Hne].
      * split; [intros _; lia|auto].
      * rewrite Hc1' by done. split; [intros [->|?]; [done|lia]|].
        intros ?. right. lia.
  - destruct (IH counts1 next Hlt1)
      as (counts' & L & Hfold & Hlen & Hval & Hnd & Hmem).
    exists counts', L. split_and!; [done| | |done|].
    + rewrite Hlen. apply length_alter.
    + intros j. rewrite Hval, occurrences_cons.
      destruct (decide (j0 = j)) as [<-|Hne]; [lia|].
      rewrite Hc1' by done. lia.
    + intros j. rewrite Hmem, occurrences_cons.
      destruct (decide (j0 = j)) as [<-|Hne]; [lia|].
      rewrite Hc1' by done. lia.
Qed.

Lemma occurrences_targets scores (sets : list (list nat)) (C : list nat) j :
  (∀ i, i ∈ C →
        NoDup (sets !!! i) ∧ ∀ x, x ∈ sets !!! i ↔ idx_dominates scores i x) →
  occurrences j (C ≫= λ i, sets !!! i)
  = length (filter (λ i, idx_dominates scores i j) C).
Proof.
  induction C as [|i C IH]; intros Hsets; [done|].
  rewrite bind_cons, occurrences_app, filter_cons.
  destruct (Hsets i) as [Hnd Hmem]; [left|].
  rewrite IH by (intros a Ha; apply Hsets; by right).
  rewrite occurrences_NoDup by done.
  destruct (decide (idx_dominates scores i j)) as [Hd|Hd].
  - rewrite decide_True by (by apply Hmem). done.
  - rewrite decide_False by (by rewrite Hmem). done.
Qed.
(** ** Scatter writes and [np.where] *)

Lemma put_all_length {A} (a : list A) idx x :
  length (put_all a idx x) = length a.
Proof.
  unfold put_all. revert a.
  induction idx as [|i idx IH]; intros a; simpl; [done|].
  by rewrite IH, length_insert.
Qed.

Lemma put_all_lookup `{!Inhabited A} (a : list A) idx x j :
  (j < length a)%nat →
  put_all a idx x !!! j = if decide (j ∈ idx) then x else a !!! j.
Proof.
  unfold put_all. revert a.
  induction idx as [|i idx IH]; intros a Hj; cbn [foldl].
  { by rewrite decide_False by apply not_elem_of_nil. }
  rewrite IH by (by rewrite length_insert).
  destruct (decide (j ∈ idx)) as [Hin|Hin].
  - by rewrite decide_True by (by right).
  - destruct (decide (i = j)) as [->|Hne].
    + rewrite decide_True by left. by rewrite list_lookup_total_insert_eq.
    + rewrite decide_False by (intros [?|?]%elem_of_cons; done).
      by rewrite list_lookup_total_insert_ne.
Qed.

Lemma elem_of_np_where {A} (test : A → bool) (a : list A) j :
  j ∈ np_where test a ↔ ∃ x, a !! j = Some x ∧ test x = true.
Proof.
  unfold np_where. rewrite list_elem_of_In, filter_In, <-list_elem_of_In.
  rewrite elem_of_seq. split.
  - intros [Hj Ht]. destruct (a !! j) as [x|]; [|done]. by exists x.
  - intros (x & Hx & Ht). rewrite Hx. split; [|done].
    apply lookup_lt_Some in Hx. lia.
Qed.

Lemma NoDup_np_where {A} (test : A → bool) (a : list A) :
  NoDup (np_where test a).
Proof.
  unfold np_where. apply NoDup_ListNoDup, List.NoDup_filter, NoDup_ListNoDup.
  apply NoDup_seq.
Qed.

Lemma count_dominators_zero scores (P : nat → Prop)
    `{!∀ i, Decision (P i)} j :
  count_dominators scores P j = 0%nat
  ↔ ∀ i, idx_dominates scores i j → ¬ P i.
Proof.
  unfold count_dominators. rewrite length_zero_iff_nil. split.
  - intros Hnil i Hd HP.
    apply (filter_nil_not_elem_of _ _ i Hnil); [done|].
    apply elem_of_seq. destruct Hd as (? & _). lia.
  - intros Hall. apply elem_of_nil_inv. intros i.
    rewrite list_elem_of_filter. intros [[Hd HP] _]. by apply (Hall i).
Qed.

Lemma filter_nonempty_exists {A} (P : A → Prop) `{!∀ x, Decision (P x)}
    (l : list A) :
  (0 < length (filter P l))%nat → ∃ x, x ∈ l ∧ P x.
Proof.
  destruct (filter P l) as [|x k] eqn:Hf; simpl; [lia|]. intros _.
  assert (x ∈ filter P l) as Hx by (rewrite Hf; left).
  apply list_elem_of_filter in Hx as [? ?]. by exists x.
Qed.

(** ** Dominance is a strict order on the rows of a matrix *)

Lemma dominates_trans (a b c : vec) :
  length a = length b → length b = length c →
  dominates a b → dominates b c → dominates a c.
Proof.
  intros Hab Hbc [Hle1 (k & x & y & Hx & Hy & Hlt)] [Hle2 _]. split.
  - intros i u w Hu Hw.
    destruct (lookup_lt_is_Some_2 b i) as [v Hv].
    { rewrite <-Hab. by apply lookup_lt_Some in Hu. }
    apply Qcle_trans with v; [by apply (Hle1 i)|by apply (Hle2 i)].
  - destruct (lookup_lt_is_Some_2 c k) as [z Hz].
    { rewrite <-Hbc. by apply lookup_lt_Some in Hy. }
    exists k, x, z. split_and!; [done|done|].
    apply Qclt_le_trans with y; [done|by apply (Hle2 k)].
Qed.

Lemma well_shaped_row scores i :
  well_shaped scores → (i < length scores)%nat →
  length (scores !!! i) = n_obj_of scores.
Proof. intros Hs Hi. apply Hs. by apply list_elem_of_lookup_total_2. Qed.

Lemma idx_dominates_trans scores i j k :
  well_shaped scores →
  idx_dominates scores i j → idx_dominates scores j k →
  idx_dominates scores i k.
Proof.
  intros Hs (Hi & Hj & Hij) (_ & Hk & Hjk).
  split_and!; [done|done|].
  apply dd_one_iff in Hij, Hjk. apply dd_one_iff.
  apply (dominates_trans _ (scores !!! j)); [| |done|done];
    by rewrite !well_shaped_row.
Qed.

Lemma exists_minimal (R : nat → nat → Prop) `{!RelDecision R} (l : list nat) :
  (∀ x, ¬ R x x) → (∀ x y z, R x y → R y z → R x z) →
  l ≠ [] → ∃ m, m ∈ l ∧ ∀ i, i ∈ l → ¬ R i m.
Proof.
  intros Hirr Htr. induction l as [|x l IH]; [done|]. intros _.
  destruct l as [|y l].
  { exists x. split; [left|]. by intros i ->%list_elem_of_singleton. }
  destruct IH as (m & Hm & Hmin); [done|].
  destruct (decide (R x m)) as [Hxm|Hxm].
  - exists x. split; [left|].
    intros i [->|Hi]%elem_of_cons; [apply Hirr|].
    intros Hix. apply (Hmin i Hi). by apply Htr with x.
  - exists m. split; [by right|].
    intros i [->|Hi]%elem_of_cons; [done|by apply Hmin].
Qed.
(** ** The peeling loop *)

Lemma nonempty_elem {A} (l : list A) : l ≠ [] → ∃ x, x ∈ l.
Proof. destruct l as [|x l]; [done|]. intros _. exists x. left. Qed.

Lemma elem_length_pos {A} (l : list A) x : x ∈ l → (0 < length l)%nat.
Proof. destruct 1; simpl; lia. Qed.

Section PeelStep.
Variable scores : matrix.
Variable sets : list (list nat).
Hypothesis Hsets : sets_ok scores sets.

Variables (ranks : list Z) (fronts : list (list nat)) (counts : list Z).
Variables (C : list nat) (k : Z).
Hypothesis Hinv : peel_inv scores (PeelState ranks fronts counts C k).

Let n := length scores.
Let ranks' := put_all ranks C k.
Let occ (j : nat) : nat := length (filter (λ i, idx_dominates scores i j) C).

Local Lemma inv_len_ranks : length ranks = n.
Proof. exact (pi_len_ranks _ _ Hinv). Qed.

Local Lemma inv_len_counts : length counts = n.
Proof. exact (pi_len_counts _ _ Hinv). Qed.

Local Lemma k_pos : 1 ≤ k.
Proof. exact (pi_front_num _ _ Hinv). Qed.

Local Lemma inv_nodup : NoDup C.
Proof. exact (pi_current_nodup _ _ Hinv). Qed.

Local Lemma inv_current j :
  j ∈ C ↔ (j < n)%nat ∧ ranks !!! j = 0 ∧ counts !!! j = 0.
Proof. exact (pi_current _ _ Hinv j). Qed.

Local Lemma inv_counts j :
  (j < n)%nat →
  counts !!! j = Z.of_nat (count_dominators scores (λ i, ranks !!! i = 0) j).
Proof. exact (pi_counts _ _ Hinv j). Qed.

Local Lemma inv_ranked j :
  (j < n)%nat → ranks !!! j ≠ 0 →
  1 ≤ ranks !!! j < k ∧
  (∀ i, idx_dominates scores i j → 1 ≤ ranks !!! i < ranks !!! j) ∧
  (ranks !!! j = 1 ∨
   ∃ i, idx_dominates scores i j ∧ ranks !!! i = ranks !!! j - 1).
Proof. exact (pi_ranked _ _ Hinv j). Qed.

Local Lemma inv_current_pred j :
  j ∈ C → k = 1 ∨ ∃ i, idx_dominates scores i j ∧ ranks !!! i = k - 1.
Proof. exact (pi_current_pred _ _ Hinv j). Qed.

Local Lemma inv_contiguous r :
  1 ≤ r < k → ∃ j, (j < n)%nat ∧ ranks !!! j = r.
Proof. exact (pi_contiguous _ _ Hinv r). Qed.

Local Lemma inv_fronts_len : length fronts = Z.to_nat (k - 1).
Proof. exact (pi_fronts_len _ _ Hinv). Qed.

Local Lemma inv_fronts r F :
  fronts !! r = Some F →
  NoDup F ∧ F ≠ [] ∧
  ∀ j, j ∈ F ↔ (j < n)%nat ∧ ranks !!! j = Z.of_nat (S r).
Proof. exact (pi_fronts _ _ Hinv r F). Qed.

Local Lemma current_facts j :
  j ∈ C → (j < n)%nat ∧ ranks !!! j = 0 ∧ counts !!! j = 0.
Proof. apply inv_current. Qed.

Local Lemma ranks'_lookup j :
  (j < n)%nat → ranks' !!! j = if decide (j ∈ C) then k else ranks !!! j.
Proof.
  intros Hj. unfold ranks'. apply put_all_lookup.
  by rewrite inv_len_ranks.
Qed.

Local Lemma ranks'_zero j :
  (j < n)%nat → ranks' !!! j = 0 ↔ ranks !!! j = 0 ∧ j ∉ C.
Proof.
  intros Hj. rewrite ranks'_lookup by done. pose proof k_pos.
  destruct (decide (j ∈ C)); [|tauto]. split; [lia|tauto].
Qed.

Local Lemma ranks'_old j :
  (j < n)%nat → ranks !!! j ≠ 0 → ranks' !!! j = ranks !!! j.
Proof.
  intros Hj Hr. rewrite ranks'_lookup by done.
  destruct (decide (j ∈ C)) as [Hin|]; [|done].
  by destruct (current_facts j Hin) as (_ & ? & _).
Qed.

Local Lemma counts_split j :
  (j < n)%nat →
  count_dominators scores (λ i, ranks !!! i = 0) j
  = (occ j + count_dominators scores (λ i, ranks' !!! i = 0%Z) j)%nat.
Proof.
  intros Hj. unfold count_dominators.
  rewrite (filter_length_split _ (seq 0 (length scores)) C).
  - f_equal.
    + apply filter_length_ext. intros i Hi.
      destruct (current_facts i Hi) as (_ & ? & _). tauto.
    + apply filter_length_ext. intros i Hi%elem_of_seq.
      rewrite ranks'_zero by (unfold n; lia). tauto.
  - apply NoDup_seq.
  - apply inv_nodup.
  - intros i Hi. apply elem_of_seq.
    destruct (current_facts i Hi) as (? & _). unfold n in *. lia.
Qed.

Local Lemma placed_counts_zero j :
  (j < n)%nat → ranks !!! j ≠ 0 → counts !!! j = 0.
Proof.
  intros Hj Hr. rewrite inv_counts by done.
  apply (inj_eq _ 0%nat), count_dominators_zero. intros i Hd.
  destruct (inv_ranked j Hj Hr) as (_ & Hdom & _).
  specialize (Hdom i Hd). lia.
Qed.

Local Lemma occ_pos j :
  (0 < occ j)%nat → ∃ i, i ∈ C ∧ idx_dominates scores i j.
Proof. apply filter_nonempty_exists. Qed.

Lemma peel_step_inv :
  C ≠ [] →
  peel_inv scores (peel_step sets (PeelState ranks fronts counts C k)) ∧
  (unplaced n (ps_ranks (peel_step sets (PeelState ranks fronts counts C k)))
   < unplaced n ranks)%nat.
Proof.
  intros HC. unfold peel_step, release_front. simpl.
  rewrite foldl_nested.
  destruct (release_fold (C ≫= λ i, sets !!! i) counts [])
    as (counts' & L & Hfold & Hlen & Hval & HndL & HmemL).
  { intros j (i & Hj & Hi)%list_elem_of_bind.
    destruct (current_facts i Hi) as (Hi' & _).
    apply (Hsets i Hi') in Hj. rewrite inv_len_counts.
    by destruct (idx_dominates_lt _ _ _ Hj). }
  rewrite Hfold. simpl. fold ranks'.
  assert (∀ j, occurrences j (C ≫= λ i, sets !!! i) = occ j) as Hocc.
  { intros j. apply occurrences_targets. intros i Hi.
    apply Hsets. by destruct (current_facts i Hi). }
  assert (∀ j, counts' !!! j = counts !!! j - Z.of_nat (occ j)) as Hval'.
  { intros j. by rewrite Hval, Hocc. }
  assert (∀ j, j ∈ L ↔ 1 ≤ counts !!! j ≤ Z.of_nat (occ j)) as HmemL'.
  { intros j. by rewrite HmemL, Hocc. }
  clear Hval HmemL Hfold.
  pose proof k_pos as Hk.
  assert (∀ j, (j < n)%nat →
            counts !!! j
            = Z.of_nat (occ j)
              + Z.of_nat (count_dominators scores (λ i, ranks' !!! i = 0) j))
    as Hsplit.
  { intros j Hj. rewrite inv_counts by done.
    rewrite counts_split by done. lia. }
  split; [split; simpl|].
  - unfold ranks'. rewrite put_all_length. apply inv_len_ranks.
  - rewrite Hlen. apply inv_len_counts.
  - lia.
  - done.
  - (* the next front: the unplaced rows whose count is zero *)
    intros j. rewrite HmemL'. split.
    + intros Hj.
      destruct (occ_pos j) as (i & Hi & Hd); [lia|].
      destruct (idx_dominates_lt _ _ _ Hd) as [_ Hjn].
      specialize (Hsplit j Hjn). split_and!; [done| |rewrite Hval'; lia].
      apply ranks'_zero; [done|]. split.
      * destruct (decide (ranks !!! j = 0)) as [|Hr]; [done|].
        pose proof (placed_counts_zero j Hjn Hr). lia.
      * intros Hin. destruct (current_facts j Hin) as (_ & _ & ?). lia.
    + intros (Hjn & Hr & Hc). apply ranks'_zero in Hr as [Hr HjC]; [|done].
      rewrite Hval' in Hc. specialize (Hsplit j Hjn).
      assert (counts !!! j ≠ 0); [|lia].
      intros Hz. apply HjC. by apply inv_current.
  - intros j Hj. rewrite Hval'. specialize (Hsplit j Hj). lia.
  - (* placed rows *)
    intros j Hj Hr. rewrite ranks'_lookup in Hr |- * by done.
    destruct (decide (j ∈ C)) as [Hin|Hnin].
    + destruct (current_facts j Hin) as (_ & Hrj & Hcj).
      assert (∀ i, idx_dominates scores i j →
                   ranks !!! i ≠ 0 ∧ ranks' !!! i = ranks !!! i) as Hdoms.
      { intros i Hd. destruct (idx_dominates_lt _ _ _ Hd) as [Hi _].
        assert (ranks !!! i ≠ 0) as Hri.
        { rewrite inv_counts in Hcj by done.
          assert (count_dominators scores (λ i, ranks !!! i = 0) j = 0%nat)
            as Hz by lia.
          by apply (proj1 (count_dominators_zero _ _ _) Hz i). }
        split; [done|by apply ranks'_old]. }
      split_and!; [lia|lia| |].
      * intros i Hd. destruct (Hdoms i Hd) as [Hri ->].
        destruct (idx_dominates_lt _ _ _ Hd) as [Hi _].
        destruct (inv_ranked i Hi Hri) as (? & _). lia.
      * destruct (inv_current_pred j Hin) as [->|(i & Hd & Hri)];
          [by left|].
        destruct (decide (k = 1)) as [->|Hk1]; [by left|].
        right. exists i. split; [done|].
        destruct (Hdoms i Hd) as [_ ->]. done.
    + destruct (inv_ranked j Hj Hr) as (Hlt & Hdom & Hpred).
      assert (∀ i, idx_dominates scores i j → ranks' !!! i = ranks !!! i)
        as Hsame.
      { intros i Hd. destruct (idx_dominates_lt _ _ _ Hd) as [Hi _].
        apply ranks'_old; [done|]. specialize (Hdom i Hd). lia. }
      split_and!; [lia|lia| |].
      * intros i Hd. rewrite (Hsame i Hd). by apply Hdom.
      * destruct Hpred as [?|(i & Hd & Hri)]; [by left|].
        right. exists i. by rewrite (Hsame i Hd).
  - (* predecessors of the next front *)
    intros j Hj%HmemL'. right.
    destruct (occ_pos j) as (i & Hi & Hd); [lia|].
    exists i. split; [done|].
    destruct (current_facts i Hi) as (Hin & _).
    rewrite ranks'_lookup, decide_True by done. lia.
  - (* fronts are numbered without gaps *)
    intros r Hr. destruct (decide (r = k)) as [->|Hne].
    + destruct (nonempty_elem C HC) as [j Hin]. exists j.
      destruct (current_facts j Hin) as (Hjn & _).
      split; [done|]. by rewrite ranks'_lookup, decide_True.
    + destruct (inv_contiguous r) as (j & Hj & Hrj); [lia|].
      exists j. split; [done|]. rewrite ranks'_old; [done..|lia].
  - rewrite length_app, inv_fronts_len. simpl. lia.
  - (* the recorded fronts *)
    intros r F HF.
    pose proof inv_fronts_len as Hfl.
    apply lookup_app_Some in HF as [HF|[Hge HF]].
    + pose proof (lookup_lt_Some _ _ _ HF) as Hrlt.
      destruct (inv_fronts r F HF) as (? & ? & Hmem).
      split_and!; [done|done|]. intros j. rewrite Hmem.
      split; intros [Hj Hrj]; (split; [done|]).
      * rewrite ranks'_old; [done|done|lia].
      * rewrite ranks'_lookup in Hrj by done.
        destruct (decide (j ∈ C)); [lia|done].
    + apply list_lookup_singleton_Some in HF as [Hr0 <-].
      assert (Z.of_nat (S r) = k) as Hrk by lia.
      split_and!; [apply inv_nodup|done|].
      intros j. rewrite Hrk. split.
      * intros Hin. destruct (current_facts j Hin) as (? & _).
        split; [done|]. by rewrite ranks'_lookup, decide_True.
      * intros [Hj Hrj]. rewrite ranks'_lookup in Hrj by done.
        destruct (decide (j ∈ C)); [done|].
        destruct (inv_ranked j Hj) as (? & _); lia.
  - (* progress *)
    unfold unplaced.
    rewrite (filter_length_split (λ i, ranks !!! i = 0) (seq 0 n) C).
    + rewrite (filter_length_ext (λ i, ranks' !!! i = 0)
                 (λ i, ranks !!! i = 0 ∧ i ∉ C)).
      * assert (0 < length (filter (λ i, ranks !!! i = 0%Z) C))%nat;
          [|lia].
        destruct (nonempty_elem C HC) as [j Hin].
        apply (elem_length_pos _ j), list_elem_of_filter.
        split; [|done]. by apply (current_facts j).
      * intros i Hi%elem_of_seq. apply ranks'_zero. lia.
    + apply NoDup_seq.
    + apply inv_nodup.
    + intros i Hi. apply elem_of_seq.
      destruct (current_facts i Hi) as (? & _). lia.
Qed.
End PeelStep.
Lemma peel_terminates scores sets fuel : ∀ st,
  sets_ok scores sets → peel_inv scores st →
  (unplaced (length scores) (ps_ranks st) ≤ fuel)%nat →
  ∃ st', peel fuel sets st = Some st' ∧ peel_inv scores st' ∧
         ps_current st' = [].
Proof.
  induction fuel as [|fuel IH]; intros [ranks fronts counts C k] Hsets Hinv Hm;
    simpl in *.
  - destruct C as [|j C']; [by eexists|]. exfalso.
    destruct (proj1 (pi_current _ _ Hinv j)) as (Hj & Hr & _); [left|].
    simpl in *.
    assert (j ∈ filter (λ i, ranks !!! i = 0) (seq 0 (length scores))) as Hin.
    { apply list_elem_of_filter. split; [done|]. apply elem_of_seq. lia. }
    apply elem_length_pos in Hin. unfold unplaced in Hm. lia.
  - destruct C as [|j C'] eqn:HC; [by eexists|]. rewrite <-HC in *.
    destruct (peel_step_inv scores sets Hsets ranks fronts counts C k Hinv)
      as [Hinv' Hlt]; [by rewrite HC|].
    apply IH; [done|done|lia].
Qed.

Lemma peel_inv_init scores :
  let '(sets, counts) := count_dominations scores in
  sets_ok scores sets ∧
  peel_inv scores
    (PeelState (replicate (length scores) 0) [] counts
               (np_where (λ c, c =? 0) counts) 1).
Proof.
  pose proof (count_dominations_spec scores) as Hspec.
  destruct (count_dominations scores) as [sets counts].
  destruct Hspec as (Hls & Hlc & Hsets & Hcounts).
  split; [done|]. split; simpl.
  - apply length_replicate.
  - done.
  - lia.
  - apply NoDup_np_where.
  - intros j. rewrite elem_of_np_where. split.
    + intros (c & Hc & Hz%Z.eqb_eq). subst c.
      pose proof (lookup_lt_Some _ _ _ Hc) as Hj. rewrite Hlc in Hj.
      split_and!; [done| |].
      * by rewrite lookup_total_replicate_2.
      * by apply list_lookup_total_correct.
    + intros (Hj & _ & Hz). exists 0. split; [|done].
      rewrite <-Hz. apply list_lookup_lookup_total_lt. lia.
  - intros j Hj. rewrite (Hcounts j Hj). f_equal.
    apply count_dominators_ext. intros i Hi. split; [|done]. intros _.
    destruct (idx_dominates_lt _ _ _ Hi).
    by rewrite lookup_total_replicate_2.
  - intros j Hj Hr. by rewrite lookup_total_replicate_2 in Hr.
  - by left.
  - intros r. lia.
  - done.
  - intros r F HF. by rewrite lookup_nil in HF.
Qed.

(** Part 1 of the sorter returns, within the budget of [pop_size]
    iterations, with the loop test false. *)
Lemma sort_fronts_total scores :
  ∃ st, sort_fronts scores = Some st ∧ peel_inv scores st ∧
        ps_current st = [].
Proof.
  unfold sort_fronts. pose proof (peel_inv_init scores) as Hinit.
  destruct (count_dominations scores) as [sets counts].
  destruct Hinit as [Hsets Hinv].
  apply peel_terminates; [done|done|]. simpl. unfold unplaced.
  etransitivity; [apply length_filter|]. by rewrite length_seq.
Qed.

(** When the loop exits every row has been placed: dominance on the rows
    of a two-dimensional array is a strict order, so the rows left over
    would contain one that no other left-over row dominates. *)
Lemma peel_exit_all_placed scores st :
  well_shaped scores → peel_inv scores st → ps_current st = [] →
  ∀ j, (j < length scores)%nat → 1 ≤ ps_ranks st !!! j.
Proof.
  intros Hshape Hinv Hexit j Hj.
  destruct (decide (ps_ranks st !!! j = 0)) as [Hz|Hnz].
  2: { by destruct (pi_ranked _ _ Hinv j Hj Hnz) as ([? _] & _). }
  exfalso.
  set (U := filter (λ i, ps_ranks st !!! i = 0) (seq 0 (length scores))).
  assert (j ∈ U) as HjU.
  { apply list_elem_of_filter. split; [done|]. apply elem_of_seq. lia. }
  destruct (exists_minimal (idx_dominates scores) U) as (m & Hm & Hmin).
  - apply idx_dominates_irrefl.
  - intros x y z. by apply idx_dominates_trans.
  - intros HU. rewrite HU in HjU. by apply elem_of_nil in HjU.
  - apply list_elem_of_filter in Hm as [Hmz Hmn%elem_of_seq].
    assert (ps_counts st !!! m ≠ 0) as Hc.
    { intros Hc. assert (m ∈ ps_current st) as Hin.
      { apply (pi_current _ _ Hinv). split; [lia|done]. }
      rewrite Hexit in Hin. by apply elem_of_nil in Hin. }
    rewrite (pi_counts _ _ Hinv) in Hc by lia.
    assert (count_dominators scores (λ i, ps_ranks st !!! i = 0) m ≠ 0%nat)
      as Hc' by lia.
    apply Hc', count_dominators_zero. intros i Hd Hi.
    apply (Hmin i); [|done].
    apply list_elem_of_filter. split; [done|]. apply elem_of_seq.
    destruct (idx_dominates_lt _ _ _ Hd). lia.
Qed.
Lemma idx_dominates_iff scores i j :
  idx_dominates scores i j ↔
  (i < length scores)%nat ∧ (j < length scores)%nat ∧
  dominates (scores !!! i) (scores !!! j).
Proof. unfold idx_dominates. by rewrite dd_one_iff. Qed.

Lemma non_dominated_sort_unfold argsort scores :
  ∃ st, sort_fronts scores = Some st ∧ peel_inv scores st ∧
        ps_current st = [] ∧
        non_dominated_sort argsort scores
        = Some (ps_ranks st, crowding argsort scores (ps_fronts st)).
Proof.
  destruct (sort_fronts_total scores) as (st & Hst & Hinv & Hexit).
  exists st. split_and!; [done..|].
  unfold non_dominated_sort. by rewrite Hst.
Qed.

(** The ranks of a finished sort, in terms of dominance between rows. *)
Lemma final_ranks_spec scores st :
  well_shaped scores → peel_inv scores st → ps_current st = [] →
  ∀ j, (j < length scores)%nat →
    1 ≤ ps_ranks st !!! j ∧
    (∀ i, (i < length scores)%nat →
          dominates (scores !!! i) (scores !!! j) →
          ps_ranks st !!! i < ps_ranks st !!! j) ∧
    (ps_ranks st !!! j = 1 ∨
     ∃ i, (i < length scores)%nat ∧
          dominates (scores !!! i) (scores !!! j) ∧
          ps_ranks st !!! i = ps_ranks st !!! j - 1).
Proof.
  intros Hshape Hinv Hexit j Hj.
  pose proof (peel_exit_all_placed scores st Hshape Hinv Hexit j Hj) as Hpos.
  destruct (pi_ranked _ _ Hinv j Hj) as (_ & Hdom & Hpred); [lia|].
  split_and!; [done| |].
  - intros i Hi Hd. apply Hdom. by apply idx_dominates_iff.
  - destruct Hpred as [?|(i & Hd & Hr)]; [by left|].
    apply idx_dominates_iff in Hd as (? & _ & ?). right. by exists i.
Qed.

(** C6: [non_dominated_sort] returns; rank 1 goes exactly to the rows that
    no row dominates; every row is given a front, numbered from 1; a row
    is placed in the front that follows the last front holding one of the
    rows that dominate it (the front at which its domination count reaches
    zero); and a population of pairwise non-dominated rows is ranked 1
    throughout. *)
Theorem non_dominated_sort_fronts argsort (scores : matrix) :
  well_shaped scores →
  ∃ ranks crowd,
    non_dominated_sort argsort scores = Some (ranks, crowd) ∧
    length ranks = length scores ∧
    (∀ j, (j < length scores)%nat →
       (ranks !!! j = 1 ↔
        ∀ i, (i < length scores)%nat →
             ¬ dominates (scores !!! i) (scores !!! j))) ∧
    (∀ j, (j < length scores)%nat → 1 ≤ ranks !!! j) ∧
    (∀ j, (j < length scores)%nat →
       (∀ i, (i < length scores)%nat →
             dominates (scores !!! i) (scores !!! j) →
             ranks !!! i < ranks !!! j) ∧
       (ranks !!! j = 1 ∨
        ∃ i, (i < length scores)%nat ∧
             dominates (scores !!! i) (scores !!! j) ∧
             ranks !!! i = ranks !!! j - 1)) ∧
    ((∀ i j, (i < length scores)%nat → (j < length scores)%nat →
             ¬ dominates (scores !!! i) (scores !!! j)) →
     ∀ j, (j < length scores)%nat → ranks !!! j = 1).
Proof.
  intros Hshape.
  destruct (non_dominated_sort_unfold argsort scores)
    as (st & _ & Hinv & Hexit & Hnds).
  pose proof (final_ranks_spec scores st Hshape Hinv Hexit) as Hspec.
  exists (ps_ranks st), (crowding argsort scores (ps_fronts st)).
  split_and!; [done|apply (pi_len_ranks _ _ Hinv)| | | |].
  - intros j Hj. destruct (Hspec j Hj) as (Hpos & Hdom & Hpred). split.
    + intros Hone i Hi Hd. specialize (Hdom i Hi Hd).
      destruct (Hspec i Hi) as (? & _). lia.
    + intros Hnone. destruct Hpred as [?|(i & Hi & Hd & _)]; [done|].
      by destruct (Hnone i Hi).
  - intros j Hj. by destruct (Hspec j Hj).
  - intros j Hj. by destruct (Hspec j Hj) as (_ & ? & ?).
  - intros Hnone j Hj. destruct (Hspec j Hj) as (_ & _ & [?|(i & Hi & Hd & _)]);
      [done|]. by destruct (Hnone i j).
Qed.

Lemma final_ranks_contiguous scores st :
  well_shaped scores → peel_inv scores st → ps_current st = [] →
  ∀ j r, (j < length scores)%nat → 1 ≤ r ≤ ps_ranks st !!! j →
         ∃ i, (i < length scores)%nat ∧ ps_ranks st !!! i = r.
Proof.
  intros Hshape Hinv Hexit j r Hj Hr.
  apply (pi_contiguous _ _ Hinv).
  destruct (pi_ranked _ _ Hinv j Hj) as (? & _); lia.
Qed.
(** ** Crowding distance *)









(** Consequences of [argsort_ok]. *)
Section Argsort.
Variable argsort : list efloat → list nat.
Hypothesis Hargsort : argsort_ok argsort.
Variable keys : list efloat.
Let s := argsort keys.

Lemma argsort_length : length s = length keys.
Proof.
  unfold s. destruct (Hargsort keys) as [Hp _].
  by rewrite Hp, length_seq.
Qed.

Lemma argsort_NoDup : NoDup s.
Proof.
  unfold s. destruct (Hargsort keys) as [Hp _].
  rewrite Hp. apply NoDup_seq.
Qed.

Lemma argsort_elem p : p ∈ s ↔ (p < length keys)%nat.
Proof.
  unfold s. destruct (Hargsort keys) as [Hp _].
  rewrite Hp, elem_of_seq. lia.
Qed.

Lemma argsort_lookup_lt i :
  (i < length keys)%nat → (s !!! i < length keys)%nat.
Proof.
  intros Hi. apply argsort_elem, list_elem_of_lookup_total_2.
  by rewrite argsort_length.
Qed.


Lemma argsort_position p :
  (p < length keys)%nat →
  (sorted_position s p < length keys)%nat ∧
  s !!! sorted_position s p = p.
Proof.
  intros Hp. apply argsort_elem in Hp.
  destruct (list_find_elem_of (λ x, x = p) s p Hp eq_refl) as [[i x] Hf].
  unfold sorted_position. rewrite Hf. simpl.
  apply list_find_Some in Hf as (Hi & -> & _). split.
  - rewrite <-argsort_length. by apply lookup_lt_Some in Hi.
  - by apply list_lookup_total_correct.
Qed.

Lemma argsort_sorted i j :
  (i ≤ j)%nat → (j < length keys)%nat →
  ele (keys !!! (s !!! i)) (keys !!! (s !!! j)).
Proof.
  intros Hij Hj. destruct (decide (i = j)) as [->|Hne].
  { destruct (keys !!! (s !!! j)); simpl; [apply Qcle_refl|done]. }
  unfold s in *. destruct (Hargsort keys) as [Hp Hs].
  assert (length (argsort keys) = length keys) as Hlen
    by (by rewrite Hp, length_seq).
  revert i j Hij Hj Hne. rewrite <-Hlen. clear Hlen Hp.
  induction Hs as [|a l Hs IH Hall]; intros i j Hij Hj Hne; simpl in *.
  { lia. }
  destruct j as [|j]; [lia|]. destruct i as [|i]; simpl.
  - rewrite Forall_forall in Hall. apply Hall.
    apply list_elem_of_lookup_total_2. lia.
  - apply IH; lia.
Qed.
End Argsort.










Lemma ele_refl x : ele x x.
Proof. destruct x; simpl; [apply Qcle_refl|done]. Qed.

Lemma ele_trans x y z : ele x y → ele y z → ele x z.
Proof.
  destruct x, y, z; simpl; try done. apply Qcle_trans.
Qed.

Lemma ele_total x y : ele x y ∨ ele y x.
Proof.
  destruct x as [a|], y as [b|]; simpl; auto.
  destruct (Qclt_le_dec a b); auto using Qclt_le_weak.
Qed.

(** The merge sort of the positions is an admissible [np.argsort]. *)
Lemma merge_argsort_ok : argsort_ok merge_argsort.
Proof.
  intros keys. unfold merge_argsort.
  assert (Transitive (key_le keys)) as Htrans.
  { intros a b c. apply ele_trans. }
  assert (Total (key_le keys)) as Htotal.
  { intros a b. apply ele_total. }
  split.
  - apply merge_sort_Permutation.
  - by apply StronglySorted_merge_sort.
Qed.




(** ** Environmental selection *)

Lemma select_by_crowding_spec argsort (crowd : list efloat) (F : list nat)
    remaining :
  argsort_ok argsort → NoDup F → (remaining ≤ length F)%nat →
  let sel := select_by_crowding argsort crowd F remaining in
  length sel = remaining ∧ NoDup sel ∧ (∀ j, j ∈ sel → j ∈ F) ∧
  (∀ j j', j ∈ sel → j' ∈ F → j' ∉ sel →
           ele (crowd !!! j') (crowd !!! j)).
Proof.
  intros Hok HF Hrem. unfold select_by_crowding.
  set (keys := (λ j, crowd !!! j) <$> F).
  assert (length keys = length F) as Hk by (unfold keys; by rewrite length_fmap).
  set (s := argsort keys).
  pose proof (argsort_length argsort Hok keys) as Hs. fold s in Hs.
  rewrite Hk in Hs.
  assert (∀ a, (a < length F)%nat → keys !!! a = crowd !!! (F !!! a)) as Hkey.
  { intros a Ha. unfold keys.
    by rewrite (list_lookup_total_fmap (λ j, crowd !!! j)). }
  assert (∀ p, (p < length F)%nat →
               reverse s !! p = Some (s !!! (length F - S p)%nat)) as Hrev.
  { intros p Hp. rewrite reverse_lookup, Hs by lia.
    apply list_lookup_lookup_total_lt. lia. }
  assert (∀ a, a ∈ take remaining (reverse s) ↔
               ∃ p, (p < remaining)%nat ∧ a = s !!! (length F - S p)%nat)
    as Htaken.
  { intros a. rewrite elem_of_take. split.
    - intros (p & Hp & Hlt). exists p. split; [done|].
      rewrite Hrev in Hp by lia. by injection Hp.
    - intros (p & Hlt & ->). exists p. split; [|done]. apply Hrev. lia. }
  assert (∀ q, (q < length F)%nat → (s !!! q < length F)%nat) as Hslt.
  { intros q Hq. rewrite <-Hk.
    apply (argsort_lookup_lt argsort Hok keys). by rewrite Hk. }
  simpl. split_and!.
  - rewrite length_fmap, length_take_le; [done|].
    by rewrite length_reverse, Hs.
  - apply NoDup_fmap_2_strong.
    + intros a b (pa & Hpa & ->)%Htaken (pb & Hpb & ->)%Htaken Heq.
      assert (s !!! (length F - S pa)%nat = s !!! (length F - S pb)%nat)
        as Hab; [|done].
      apply (NoDup_lookup F _ _ (F !!! (s !!! (length F - S pa)%nat)));
        [done| |].
      * apply list_lookup_lookup_total_lt, Hslt. lia.
      * rewrite Heq. apply list_lookup_lookup_total_lt, Hslt. lia.
    + apply (sublist_NoDup _ (reverse s)); [|apply sublist_take].
      rewrite reverse_Permutation. apply (argsort_NoDup argsort Hok keys).
  - intros j (a & -> & (p & Hp & ->)%Htaken)%list_elem_of_fmap.
    apply list_elem_of_lookup_total_2, Hslt. lia.
  - intros j j' (a & -> & (pa & Hpa & ->)%Htaken)%list_elem_of_fmap Hj' Hnot.
    apply list_elem_of_lookup_total_1 in Hj' as (b & Hb & <-).
    destruct (argsort_position argsort Hok keys b) as [Hpos Hsb];
      [by rewrite Hk|].
    fold s in Hpos, Hsb. rewrite Hk in Hpos.
    set (q := sorted_position s b) in *.
    assert (q < length F - remaining)%nat as Hq.
    { destruct (decide (q < length F - remaining)%nat); [done|].
      exfalso. apply Hnot, list_elem_of_fmap. exists b. split; [done|].
      apply Htaken. exists (length F - S q)%nat. split; [lia|].
      rewrite <-Hsb. f_equal. lia. }
    rewrite <-!Hkey by (try apply Hslt; lia). rewrite <-Hsb.
    apply (argsort_sorted argsort Hok keys); rewrite ?Hk; lia.
Qed.
Lemma take_rows_length (m : matrix) idx : length (take_rows m idx) = length idx.
Proof. unfold take_rows. by rewrite length_fmap. Qed.

Lemma take_rows_lookup (m : matrix) idx p :
  (p < length idx)%nat → take_rows m idx !!! p = m !!! (idx !!! p).
Proof.
  intros Hp. unfold take_rows.
  by rewrite (list_lookup_total_fmap (λ i, m !!! i)).
Qed.

Lemma elem_of_front (R_ranks : list Z) k j :
  j ∈ np_where (λ r, r =? k) R_ranks
  ↔ (j < length R_ranks)%nat ∧ R_ranks !!! j = k.
Proof.
  rewrite elem_of_np_where. split.
  - intros (x & Hx & ->%Z.eqb_eq). split.
    + by apply lookup_lt_Some in Hx.
    + by apply list_lookup_total_correct.
  - intros [Hj <-]. exists (R_ranks !!! j). split.
    + by apply list_lookup_lookup_total_lt.
    + apply Z.eqb_refl.
Qed.

(** A list without repetition shorter than [m] misses an index below
    [m]. *)
Lemma missing_index (l : list nat) m :
  NoDup l → (length l < m)%nat → ∃ j, (j < m)%nat ∧ j ∉ l.
Proof.
  intros Hnd Hlen.
  destruct (decide (Exists (λ j, j ∉ l) (seq 0 m))) as [Hex|Hall].
  - apply Exists_exists in Hex as (j & Hj%elem_of_seq & Hnot).
    exists j. split; [lia|done].
  - exfalso. apply not_Exists_Forall in Hall; [|apply _].
    rewrite Forall_forall in Hall.
    assert (seq 0 m ⊆+ l) as Hsub.
    { apply NoDup_submseteq; [apply NoDup_seq|].
      intros j Hj. specialize (Hall j Hj). simpl in Hall.
      by apply dec_stable. }
    apply submseteq_length in Hsub. rewrite length_seq in Hsub. lia.
Qed.

Section SelectionLoop.
Variable argsort : list efloat → list nat.
Hypothesis Hok : argsort_ok argsort.
Variable N : nat.
Variables (R_pos R_scores : matrix).
Variables (R_ranks : list Z) (R_crowding : list efloat).
Hypothesis Hpool : (N ≤ length R_ranks)%nat.
Hypothesis Hranked : ∀ j, (j < length R_ranks)%nat → 1 ≤ R_ranks !!! j.
Hypothesis Hcontiguous : ∀ j r,
  (j < length R_ranks)%nat → 1 ≤ r ≤ R_ranks !!! j →
  ∃ i, (i < length R_ranks)%nat ∧ R_ranks !!! i = r.

Let inv := sel_inv N R_pos R_scores R_ranks R_crowding.

(** Appending a batch of members of the current front. *)
Lemma sel_inv_extend chosen pos scores count fn B :
  inv chosen (SelectState pos scores count fn) →
  (count < N)%nat → NoDup B →
  (∀ j, j ∈ B → (j < length R_ranks)%nat ∧ R_ranks !!! j = fn) →
  (count + length B ≤ N)%nat →
  ((count + length B < N)%nat →
   ∀ j, (j < length R_ranks)%nat → R_ranks !!! j = fn → j ∈ B) →
  (∀ j j', j ∈ B → (j' < length R_ranks)%nat → j' ∉ B →
           R_ranks !!! j' = fn →
           ele (R_crowding !!! j') (R_crowding !!! j)) →
  inv (chosen ++ B)
      (SelectState (list_inserts count (take_rows R_pos B) pos)
                   (list_inserts count (take_rows R_scores B) scores)
                   (count + length B) (fn + 1)).
Proof.
  intros [Hlp Hls Hc Hcle Hnd Hfn Hrows Hch Hwhole Hlast Hord Hcrowd]
    Hlt HB HBmem Hfit HBall HBcrowd. simpl in *.
  assert (∀ p, (p < count)%nat → (chosen ++ B) !!! p = chosen !!! p)
    as Hold.
  { intros p Hp. apply lookup_total_app_l. lia. }
  assert (∀ p, (count ≤ p)%nat →
               (chosen ++ B) !!! p = B !!! (p - count)%nat) as Hnew.
  { intros p Hp. rewrite lookup_total_app_r by lia. by rewrite Hc. }
  assert (∀ p, (p < count)%nat → 1 ≤ R_ranks !!! (chosen !!! p) < fn)
    as Hrold.
  { intros p Hp. apply Hch, list_elem_of_lookup_total_2. lia. }
  assert (∀ p, (p < length B)%nat → R_ranks !!! (B !!! p) = fn) as Hrnew.
  { intros p Hp. by apply HBmem, list_elem_of_lookup_total_2. }
  split; simpl.
  - by rewrite length_inserts.
  - by rewrite length_inserts.
  - rewrite length_app. lia.
  - done.
  - apply NoDup_app. split_and!; [done| |done].
    intros j Hj HjB. apply Hch in Hj. apply HBmem in HjB. lia.
  - lia.
  - intros p Hp. destruct (decide (p < count)%nat) as [Hpc|Hpc].
    + rewrite !list_lookup_total_inserts_lt, Hold by done. by apply Hrows.
    + rewrite !list_lookup_total_inserts, Hnew
        by (rewrite ?take_rows_length; lia).
      rewrite !take_rows_lookup by lia. done.
  - intros j [Hj|Hj]%elem_of_app.
    + apply Hch in Hj. lia.
    + apply HBmem in Hj. lia.
  - intros j Hj Hr. apply elem_of_app. left.
    destruct (decide (R_ranks !!! j = fn - 1)) as [Heq|Hne].
    + by apply Hlast.
    + apply Hwhole; [done|lia].
  - intros Hfull j Hj Hr. apply elem_of_app. right.
    apply HBall; [lia|done|lia].
  - intros p q Hpq Hq.
    destruct (decide (q < count)%nat) as [Hqc|Hqc].
    + rewrite !Hold by lia. by apply Hord.
    + rewrite (Hnew q), Hrnew by lia.
      destruct (decide (p < count)%nat) as [Hpc|Hpc].
      * rewrite Hold by done. specialize (Hrold p Hpc). lia.
      * rewrite Hnew, Hrnew by lia. done.
  - intros j j' [Hj|Hj]%elem_of_app Hj' Hnot Hr Hr'.
    + apply Hch in Hj. lia.
    + apply HBcrowd; [done|done| |lia].
      intros ?. apply Hnot, elem_of_app. by right.
Qed.

(** With room left, the next front is not empty and the loop advances. *)
Lemma select_step_inv chosen st :
  inv chosen st → (sel_count st < N)%nat →
  ∃ chosen' st',
    select_step argsort N R_pos R_scores R_ranks R_crowding st = Some st' ∧
    inv chosen' st' ∧ (sel_count st < sel_count st')%nat.
Proof.
  destruct st as [pos scores count fn]. intros Hinv Hlt. simpl in Hlt.
  pose proof (si_count _ _ _ _ _ _ _ Hinv) as Hc.
  pose proof (si_nodup _ _ _ _ _ _ _ Hinv) as Hnd.
  pose proof (si_front_num _ _ _ _ _ _ _ Hinv) as Hfn.
  pose proof (si_chosen _ _ _ _ _ _ _ Hinv) as Hch.
  pose proof (si_whole _ _ _ _ _ _ _ Hinv) as Hwhole.
  pose proof (si_last_whole _ _ _ _ _ _ _ Hinv) as Hlast.
  simpl in *.
  set (F := np_where (λ r, r =? fn) R_ranks).
  assert (NoDup F) as HF by apply NoDup_np_where.
  assert (∀ j, j ∈ F ↔ (j < length R_ranks)%nat ∧ R_ranks !!! j = fn)
    as HFmem by (intros j; apply elem_of_front).
  assert (F ≠ []) as Hne.
  { destruct (missing_index chosen (length R_ranks)) as (j & Hj & Hnot);
      [done|lia|].
    assert (fn ≤ R_ranks !!! j) as Hge.
    { pose proof (Hranked j Hj).
      destruct (decide (fn ≤ R_ranks !!! j)); [done|]. exfalso.
      apply Hnot.
      destruct (decide (R_ranks !!! j = fn - 1)); [by apply Hlast|].
      apply Hwhole; [done|lia]. }
    destruct (Hcontiguous j fn Hj) as (i & Hi & Hri); [lia|].
    intros HFnil. assert (i ∈ F) as Hin by (by apply HFmem).
    rewrite HFnil in Hin. by apply elem_of_nil in Hin. }
  unfold select_step. simpl. fold F.
  destruct F as [|j0 F'] eqn:HFeq; [done|]. rewrite <-HFeq in *.
  assert (0 < length F)%nat as Hpos by (rewrite HFeq; simpl; lia).
  case_decide as Hfit.
  - (* the whole front fits *)
    exists (chosen ++ F). eexists. split; [done|]. split; [|simpl; lia].
    apply sel_inv_extend; [done|done|done| |done| |].
    + intros j Hj. by apply HFmem.
    + intros _ j Hj Hr. by apply HFmem.
    + intros j j' _ Hj' Hnot Hr'. destruct Hnot. by apply HFmem.
  - (* the front overflows *)
    destruct (select_by_crowding_spec argsort R_crowding F (N - count)
                Hok HF) as (Hlen & Hsnd & Hsub & Hpref); [lia|].
    set (sel := select_by_crowding argsort R_crowding F (N - count)) in *.
    exists (chosen ++ sel). eexists. split; [done|]. split; [|simpl; lia].
    assert (inv (chosen ++ sel)
              (SelectState (list_inserts count (take_rows R_pos sel) pos)
                 (list_inserts count (take_rows R_scores sel) scores)
                 (count + length sel) (fn + 1))) as Hext.
    { apply sel_inv_extend; [done|done|done| |lia| |].
      - intros j Hj. by apply HFmem, Hsub.
      - intros Hlt'. lia.
      - intros j j' Hj Hj' Hnot Hr'. apply Hpref; [done| |done].
        by apply HFmem. }
    replace (count + length sel)%nat with N in Hext by lia. done.
Qed.

(** The loop fills all [N] slots within [N] iterations. *)
Lemma select_loop_inv fuel : ∀ chosen st,
  inv chosen st → (N - sel_count st ≤ fuel)%nat →
  ∃ chosen' st',
    select_loop argsort N R_pos R_scores R_ranks R_crowding fuel st
    = Some st' ∧
    inv chosen' st' ∧ sel_count st' = N.
Proof.
  induction fuel as [|fuel IH]; intros chosen st Hinv Hfuel; simpl.
  - rewrite decide_False by lia. exists chosen, st.
    split_and!; [done|done|].
    pose proof (si_count_le _ _ _ _ _ _ _ Hinv). lia.
  - case_decide as Hlt.
    + destruct (select_step_inv chosen st Hinv Hlt)
        as (chosen' & st' & -> & Hinv' & Hprog).
      apply (IH chosen'); [done|lia].
    + exists chosen, st. split_and!; [done|done|].
      pose proof (si_count_le _ _ _ _ _ _ _ Hinv). lia.
Qed.
End SelectionLoop.
Lemma list_eq_lookup_total `{!Inhabited A} (l k : list A) :
  length l = length k →
  (∀ p, (p < length l)%nat → l !!! p = k !!! p) → l = k.
Proof.
  intros Hlen Hall. apply list_eq_same_length with (length l); [done|done|].
  intros p x y Hp Hx Hy.
  apply list_lookup_total_correct in Hx, Hy. rewrite <-Hx, <-Hy.
  by apply Hall.
Qed.

Lemma sel_inv_init N dim R_pos R_scores (R_ranks : list Z) R_crowding :
  (∀ j, (j < length R_ranks)%nat → 1 ≤ R_ranks !!! j) →
  sel_inv N R_pos R_scores R_ranks R_crowding []
          (SelectState (np_zeros N dim) (np_zeros N 3) 0 1).
Proof.
  intros Hranked. split; simpl.
  - apply length_replicate.
  - apply length_replicate.
  - done.
  - lia.
  - constructor.
  - lia.
  - intros p Hp. lia.
  - intros j Hj. by apply elem_of_nil in Hj.
  - intros j Hj Hr. lia.
  - intros _ j Hj Hr. specialize (Hranked j Hj). lia.
  - intros p q _ Hq. lia.
  - intros j j' Hj. by apply elem_of_nil in Hj.
Qed.

(** C4: environmental selection returns; its result has exactly
    [pop_size] rows, each a copy of a distinct member of the merged pool
    of [2 * pop_size]; the members are taken front by front in increasing
    rank, every front below the last one taken being copied whole, and
    within the last front a member that is taken has a crowding distance
    at least that of any member left out. *)
Theorem environmental_selection_spec argsort (pop_size dim : nat)
    (P_pos P_scores Q_pos Q_scores : matrix) :
  argsort_ok argsort →
  length P_pos = pop_size → length P_scores = pop_size →
  length Q_pos = pop_size → length Q_scores = pop_size →
  well_shaped (P_scores ++ Q_scores) →
  ∃ R_ranks R_crowding chosen cut next_pos next_scores,
    non_dominated_sort argsort (P_scores ++ Q_scores)
    = Some (R_ranks, R_crowding) ∧
    environmental_selection argsort pop_size dim P_pos P_scores Q_pos Q_scores
    = Some (next_pos, next_scores) ∧
    length (P_scores ++ Q_scores) = (2 * pop_size)%nat ∧
    length R_ranks = (2 * pop_size)%nat ∧
    length next_pos = pop_size ∧ length next_scores = pop_size ∧
    length chosen = pop_size ∧ NoDup chosen ∧
    next_pos = take_rows (P_pos ++ Q_pos) chosen ∧
    next_scores = take_rows (P_scores ++ Q_scores) chosen ∧
    (∀ j, j ∈ chosen → (j < 2 * pop_size)%nat ∧ 1 ≤ R_ranks !!! j ≤ cut) ∧
    (∀ j, (j < 2 * pop_size)%nat → R_ranks !!! j < cut → j ∈ chosen) ∧
    (∀ p q, (p ≤ q)%nat → (q < pop_size)%nat →
            R_ranks !!! (chosen !!! p) ≤ R_ranks !!! (chosen !!! q)) ∧
    (∀ j j', j ∈ chosen → (j' < 2 * pop_size)%nat → j' ∉ chosen →
             R_ranks !!! j = cut → R_ranks !!! j' = cut →
             ele (R_crowding !!! j') (R_crowding !!! j)).
Proof.
  intros Hok HPp HPs HQp HQs Hshape.
  set (R_scores := P_scores ++ Q_scores) in *.
  set (R_pos := P_pos ++ Q_pos).
  assert (length R_scores = (2 * pop_size)%nat) as Hpool.
  { unfold R_scores. rewrite length_app. lia. }
  destruct (non_dominated_sort_unfold argsort R_scores)
    as (st & _ & Hinv & Hexit & Hnds).
  set (R_ranks := ps_ranks st) in *.
  set (R_crowding := crowding argsort R_scores (ps_fronts st)) in *.
  assert (length R_ranks = (2 * pop_size)%nat) as Hlr.
  { unfold R_ranks. by rewrite (pi_len_ranks _ _ Hinv). }
  assert (∀ j, (j < length R_ranks)%nat → 1 ≤ R_ranks !!! j) as Hranked.
  { intros j Hj. apply (final_ranks_spec R_scores st); [done..|].
    rewrite Hpool. lia. }
  assert (∀ j r, (j < length R_ranks)%nat → 1 ≤ r ≤ R_ranks !!! j →
                 ∃ i, (i < length R_ranks)%nat ∧ R_ranks !!! i = r)
    as Hcontiguous.
  { intros j r Hj Hr. rewrite Hlr in *.
    destruct (final_ranks_contiguous R_scores st Hshape Hinv Hexit j r)
      as (i & Hi & Hri); [lia|done|]. exists i. split; [lia|done]. }
  destruct (select_loop_inv argsort Hok pop_size R_pos R_scores R_ranks
              R_crowding ltac:(lia) Hranked Hcontiguous pop_size []
              (SelectState (np_zeros pop_size dim) (np_zeros pop_size 3) 0 1))
    as (chosen & st' & Hloop & Hsel & Hfull).
  { by apply sel_inv_init. }
  { simpl. lia. }
  destruct Hsel as [Hlp Hls Hc Hcle Hnd Hfn Hrows Hch Hwhole Hlast Hord Hcrowd].
  exists R_ranks, R_crowding, chosen, (sel_front_num st' - 1),
    (sel_pos st'), (sel_scores st').
  split_and!; try done.
  - unfold environmental_selection. fold R_scores R_pos. rewrite Hnds.
    simpl. by rewrite Hloop.
  - lia.
  - apply list_eq_lookup_total.
    + rewrite take_rows_length. lia.
    + intros p Hp. rewrite take_rows_lookup by lia. apply Hrows. lia.
  - apply list_eq_lookup_total.
    + rewrite take_rows_length. lia.
    + intros p Hp. rewrite take_rows_lookup by lia. apply Hrows. lia.
  - intros j Hj. apply Hch in Hj. lia.
  - intros j Hj Hr. apply Hwhole; [lia|].
    specialize (Hranked j). lia.
  - intros p q Hpq Hq. apply Hord; lia.
  - intros j j' Hj Hj' Hnot. apply Hcrowd; [done|lia|done].
Qed.

Lemma environmental_selection_spec_witness :
  argsort_ok merge_argsort ∧
  well_shaped ([[qz 1; qz 2; qz 3]] ++ [[qz 0; qz 2; qz 3]]) ∧
  ∃ next_pos next_scores,
    environmental_selection merge_argsort 1 1
      [[qz 0]] [[qz 1; qz 2; qz 3]] [[qz 1]] [[qz 0; qz 2; qz 3]]
    = Some (next_pos, next_scores) ∧ length next_pos = 1%nat.
Proof.
  assert (well_shaped ([[qz 1; qz 2; qz 3]] ++ [[qz 0; qz 2; qz 3]]))
    as Hshape.
  { intros r Hr. simpl in Hr.
    apply elem_of_cons in Hr as [->|Hr]; [done|].
    apply list_elem_of_singleton in Hr as ->. done. }
  split; [apply merge_argsort_ok|]. split; [done|].
  destruct (environmental_selection_spec merge_argsort 1 1
              [[qz 0]] [[qz 1; qz 2; qz 3]] [[qz 1]] [[qz 0; qz 2; qz 3]]
              merge_argsort_ok eq_refl eq_refl eq_refl eq_refl Hshape)
    as (? & ? & ? & ? & next_pos & next_scores & _ & Hsel & _ & _ & Hlen & _).
  by exists next_pos, next_scores.
Defined.
(** ** The monad of the optimiser *)

Section MonadFacts.
Context {G : RandomSource}.

Lemma bind_ok {A B} (m : M G A) (f : A → M G B) w a w' :
  m w = Ok a w' → (m ≫= f) w = f a w'.
Proof. intros H. unfold mbind, M_bind. by rewrite H. Qed.

Lemma bind_raise {A B} (m : M G A) (f : A → M G B) w e :
  m w = Raise e → (m ≫= f) w = Raise e.
Proof. intros H. unfold mbind, M_bind. by rewrite H. Qed.

Lemma frames_ret {A} (a : A) : frames (mret a : M G A).
Proof. by intros w. Qed.

Lemma frames_raise {A} e : frames (raise G e : M G A).
Proof. by intros w. Qed.

Lemma frames_bind {A B} (m : M G A) (f : A → M G B) :
  frames m → (∀ a, frames (f a)) → frames (m ≫= f).
Proof.
  intros Hm Hf w. unfold mbind, M_bind. specialize (Hm w).
  destruct (m w) as [a w'| |]; [|done|done].
  specialize (Hf a w'). destruct (f a w'); [congruence|done|done].
Qed.

Lemma frames_draw {A} (f : rng_state G → A * rng_state G) :
  frames (draw G f).
Proof. intros w. unfold draw. by destruct (f (gen w)). Qed.

Lemma frames_load l : frames (load G l).
Proof. by intros w. Qed.

Lemma frames_draws {A} k (f : rng_state G → A * rng_state G) :
  frames (draws G k f).
Proof.
  induction k as [|k IH]; simpl; [apply frames_ret|].
  apply frames_bind; [apply frames_draw|]. intros x.
  apply frames_bind; [done|]. intros xs. apply frames_ret.
Qed.

Lemma frames_for_fold {A B} (l : list A) (body : B → A → M G B) b :
  (∀ b x, frames (body b x)) → frames (for_fold G l body b).
Proof.
  intros Hbody. revert b. induction l as [|x l IH]; intros b; simpl.
  - apply frames_ret.
  - apply frames_bind; [apply Hbody|]. intros b'. apply IH.
Qed.

Lemma frames_np_rand d : frames (np_rand G d).
Proof.
  unfold np_rand. destruct (d <? 0); [apply frames_raise|].
  apply frames_draws.
Qed.

Lemma frames_np_rand2 rows cols : frames (np_rand2 G rows cols).
Proof.
  unfold np_rand2. destruct (_ || _); [apply frames_raise|].
  apply frames_for_fold. intros acc _.
  apply frames_bind; [apply frames_draws|]. intros r. apply frames_ret.
Qed.

Lemma frames_np_normal2 mu sigma rows cols :
  frames (np_normal2 G mu sigma rows cols).
Proof.
  unfold np_normal2. destruct (_ || _); [apply frames_raise|].
  apply frames_for_fold. intros acc _.
  apply frames_bind; [apply frames_draws|]. intros r. apply frames_ret.
Qed.

Lemma frames_np_randint low high : frames (np_randint G low high).
Proof.
  unfold np_randint. destruct (high <=? low); [apply frames_raise|].
  apply frames_draw.
Qed.

Lemma frames_np_choice a : frames (np_choice G a).
Proof.
  unfold np_choice. destruct a; [apply frames_raise|].
  apply frames_bind; [apply frames_draw|]. intros k. apply frames_ret.
Qed.

Lemma frames_py_div x y : frames (py_div G x y).
Proof.
  unfold py_div. case_decide; [apply frames_raise|apply frames_ret].
Qed.

Lemma frames_budgeted {A} (o : option A) :
  is_Some o → frames (budgeted G o).
Proof. intros [a ->]. apply frames_ret. Qed.

Lemma frames_levy L n m beta : frames (levy G L n m beta).
Proof.
  unfold levy. apply frames_bind.
  - destruct (m_gamma L (1 + beta)%Qc); [|apply frames_ret].
    destruct (m_gamma L _); [|apply frames_ret].
    apply frames_bind; [apply frames_py_div|]. intros ratio.
    apply frames_bind; [apply frames_py_div|]. intros e. apply frames_ret.
  - intros sigma_u. apply frames_bind; [apply frames_np_normal2|].
    intros u. apply frames_bind; [apply frames_np_normal2|].
    intros v. apply frames_bind; [apply frames_py_div|].
    intros e. apply frames_ret.
Qed.

Lemma ends_with_self {A B} (fin : B → M G A) x :
  (∀ w, fin x w ≠ OutOfFuel) → ends_with fin (fin x).
Proof.
  intros Hfuel w. specialize (Hfuel w).
  destruct (fin x w) as [a w'| |] eqn:Hrun; [|done|done].
  by exists x, w.
Qed.

Lemma ends_with_bind {A B C} (fin : C → M G B) (m : M G A)
    (f : A → M G B) :
  frames m → (∀ a, ends_with fin (f a)) → ends_with fin (m ≫= f).
Proof.
  intros Hm Hf w. unfold mbind, M_bind. specialize (Hm w).
  destruct (m w) as [a w1| |]; [|done|done].
  specialize (Hf a w1). destruct (f a w1) as [b w'| |]; [|done|done].
  destruct Hf as (x & w0 & Hheap & Hfin).
  exists x, w0. split; [congruence|done].
Qed.
End MonadFacts.
(** ** The dominance-gated replacement *)

Lemma dd_range a b :
  determine_dominance a b = 1 ∨ determine_dominance a b = -1 ∨
  determine_dominance a b = 0.
Proof.
  unfold determine_dominance.
  destruct (_ && _); [auto|]. destruct (_ && _); auto.
Qed.

(** The test [determine_dominance(new, current) >= 0] passes exactly when
    the current score does not dominate the new one. *)
Lemma accept_test_iff (score_new current : vec) :
  0 ≤ determine_dominance score_new current ↔ ¬ dominates current score_new.
Proof.
  rewrite <-dd_minus_one_iff.
  destruct (dd_range score_new current) as [-> | [-> | ->]]; lia.
Qed.

Lemma reject_test_iff (score_new current : vec) :
  ¬ 0 ≤ determine_dominance score_new current ↔ dominates current score_new.
Proof.
  rewrite <-dd_minus_one_iff.
  destruct (dd_range score_new current) as [-> | [-> | ->]]; lia.
Qed.

(** A row write through a reference reads back as the updated array. *)
Lemma store_lookup_total (h : gmap loc matrix) l i (row : vec) :
  alter (λ m, <[i := row]> m) l h !!! l = <[i := row]> (h !!! l).
Proof.
  rewrite lookup_total_alter_eq, lookup_total_alt.
  by destruct (h !! l).
Qed.

Section Accept.
Context {G : RandomSource}.
Variable evaluate_objectives : vec → problem → vec.
Variable pb : problem.
Variable Q : population.
Variable i : nat.

Let clipped (X : vec) : vec := np_clip X (lb pb) (ub pb).
Let score (X : vec) : vec := evaluate_objectives (clipped X) pb.
Let slot (w : world G) : vec := (heap w !!! scores Q) !!! i.

(** The world after an accepted candidate. *)
Let overwritten (X : vec) (w : world G) : world G :=
  World (alter (λ m, <[i := score X]> m) (scores Q)
           (alter (λ m, <[i := clipped X]> m) (pos Q) (heap w)))
        (gen w).

Lemma try_accept_accepted X w :
  ¬ dominates (slot w) (score X) →
  try_accept G evaluate_objectives pb Q i X w = Ok tt (overwritten X w).
Proof.
  intros Hacc%accept_test_iff. unfold try_accept.
  rewrite (bind_ok _ _ w (heap w !!! scores Q) w) by done.
  fold (clipped X) (score X) (slot w).
  apply Z.leb_le in Hacc. by rewrite Hacc.
Qed.

Lemma try_accept_rejected X w :
  dominates (slot w) (score X) →
  try_accept G evaluate_objectives pb Q i X w = Ok tt w.
Proof.
  intros Hrej. unfold try_accept.
  rewrite (bind_ok _ _ w (heap w !!! scores Q) w) by done.
  fold (clipped X) (score X) (slot w).
  destruct (Z.leb_spec 0 (determine_dominance (score X) (slot w)))
    as [Hle|Hlt]; [|done].
  by apply accept_test_iff in Hle.
Qed.

Lemma try_accept_not_out_of_fuel X w :
  try_accept G evaluate_objectives pb Q i X w ≠ OutOfFuel.
Proof.
  destruct (decide (0 ≤ determine_dominance (score X) (slot w))) as [H|H].
  - apply accept_test_iff in H. by rewrite try_accept_accepted.
  - apply reject_test_iff in H. by rewrite try_accept_rejected.
Qed.



Lemma overwritten_other X w l :
  l ≠ pos Q → l ≠ scores Q → heap (overwritten X w) !!! l = heap w !!! l.
Proof.
  intros H1 H2. unfold overwritten. simpl.
  by rewrite !lookup_total_alter_ne.
Qed.


Lemma try_accept_ok X w :
  ∃ w', try_accept G evaluate_objectives pb Q i X w = Ok tt w'.
Proof.
  destruct (decide (0 ≤ determine_dominance (score X) (slot w))) as [H|H].
  - apply accept_test_iff in H. rewrite try_accept_accepted by done.
    by eexists.
  - apply reject_test_iff in H. rewrite try_accept_rejected by done.
    by eexists.
Qed.

Lemma ends_with_try_accept X :
  ends_with (try_accept G evaluate_objectives pb Q i)
            (try_accept G evaluate_objectives pb Q i X).
Proof. apply ends_with_self. apply try_accept_not_out_of_fuel. Qed.

Lemma ends_with_two_candidates X_A X_B :
  ends_with (λ Xs : vec * vec,
               for_ G [Xs.1; Xs.2] (try_accept G evaluate_objectives pb Q i))
            (for_ G [X_A; X_B] (try_accept G evaluate_objectives pb Q i)).
Proof.
  apply (ends_with_self
           (λ Xs : vec * vec,
              for_ G [Xs.1; Xs.2] (try_accept G evaluate_objectives pb Q i))
           (X_A, X_B)).
  intros w. simpl.
  destruct (try_accept_ok X_A w) as [w_A HA].
  destruct (try_accept_ok X_B w_A) as [w_B HB].
  rewrite (bind_ok _ _ w tt w_A) by done.
  by rewrite (bind_ok _ _ w_A tt w_B).
Qed.
End Accept.

(** The three phases touch the store only through the gated replacement,
    at the end of the step. *)
Lemma exploration_step_ends G L evaluate_objectives pop_size max_gen pb
    t P Q front i :
  ends_with (λ Xs : vec * vec,
               for_ G [Xs.1; Xs.2] (try_accept G evaluate_objectives pb Q i))
            (exploration_step G L evaluate_objectives pop_size max_gen pb
                              t P Q front i).
Proof.
  unfold exploration_step.
  apply ends_with_bind; [apply frames_np_choice|]. intros leader_idx.
  apply ends_with_bind; [apply frames_load|]. intros p.
  apply ends_with_bind; [apply frames_np_randint|]. intros I1.
  apply ends_with_bind; [apply frames_np_randint|]. intros I2.
  apply ends_with_bind; [apply frames_draw|]. intros perm.
  apply ends_with_bind; [apply frames_np_randint|]. intros k.
  apply ends_with_bind; [apply frames_np_rand|]. intros a.
  apply ends_with_bind; [apply frames_np_rand|]. intros b.
  apply ends_with_bind; [apply frames_draw|]. intros r1.
  apply ends_with_bind.
  - case_bool_decide; [apply frames_ret|].
    apply frames_bind; [apply frames_draw|]. intros r2.
    case_bool_decide; [apply frames_ret|].
    apply frames_bind; [apply frames_np_rand|]. intros r3. apply frames_ret.
  - intros X_P2. apply ends_with_two_candidates.
Qed.

Lemma defense_step_ends G L evaluate_objectives pb P Q i :
  ends_with (try_accept G evaluate_objectives pb Q i)
            (defense_step G L evaluate_objectives pb P Q i).
Proof.
  unfold defense_step.
  apply ends_with_bind; [apply frames_np_rand|]. intros r.
  apply ends_with_bind; [apply frames_load|]. intros p.
  apply ends_with_bind; [apply frames_levy|]. intros lv.
  do 4 (apply ends_with_bind; [apply frames_draw|]; intros ?).
  apply ends_with_bind; [apply frames_py_div|]. intros coef.
  apply ends_with_try_accept.
Qed.

Lemma escape_step_ends G evaluate_objectives pb t Q i :
  ends_with (try_accept G evaluate_objectives pb Q i)
            (escape_step G evaluate_objectives pb t Q i).
Proof.
  unfold escape_step.
  apply ends_with_bind; [apply frames_np_rand|]. intros d.
  apply ends_with_bind; [apply frames_load|]. intros q.
  apply ends_with_bind; [apply frames_draw|]. intros r.
  apply ends_with_try_accept.
Qed.


(** ** Initialisation and what it checks *)

Section Totality.
Context {G : RandomSource}.

Lemma total_ret {A} (a : A) : total (mret a : M G A).
Proof. intros w. by exists a, w. Qed.

Lemma total_bind {A B} (m : M G A) (f : A → M G B) :
  total m → (∀ a, total (f a)) → total (m ≫= f).
Proof.
  intros Hm Hf w. destruct (Hm w) as (a & w' & Hrun).
  rewrite (bind_ok _ _ _ _ _ Hrun). apply Hf.
Qed.

Lemma total_draw {A} (f : rng_state G → A * rng_state G) :
  total (draw G f).
Proof. intros w. unfold draw. destruct (f (gen w)). by eexists _, _. Qed.

Lemma total_load l : total (load G l).
Proof. intros w. by eexists _, _. Qed.

Lemma total_alloc m : total (alloc G m).
Proof. intros w. by eexists _, _. Qed.

Lemma total_store_row l i row : total (store_row G l i row).
Proof. intros w. by eexists _, _. Qed.

Lemma total_draws {A} k (f : rng_state G → A * rng_state G) :
  total (draws G k f).
Proof.
  induction k as [|k IH]; simpl; [apply total_ret|].
  apply total_bind; [apply total_draw|]. intros x.
  apply total_bind; [done|]. intros xs. apply total_ret.
Qed.

Lemma total_for_ {A} (l : list A) (body : A → M G unit) :
  (∀ x, total (body x)) → total (for_ G l body).
Proof.
  intros Hbody. induction l as [|x l IH]; simpl; [apply total_ret|].
  apply total_bind; [apply Hbody|]. by intros _.
Qed.

Lemma total_for_fold {A B} (l : list A) (body : B → A → M G B) b :
  (∀ b x, total (body b x)) → total (for_fold G l body b).
Proof.
  intros Hbody. revert b. induction l as [|x l IH]; intros b; simpl.
  - apply total_ret.
  - apply total_bind; [apply Hbody|]. intros b'. apply IH.
Qed.

Lemma total_budgeted {A} (o : option A) : is_Some o → total (budgeted G o).
Proof. intros [a ->]. apply total_ret. Qed.

Lemma total_np_rand2 rows cols :
  0 ≤ rows → 0 ≤ cols → total (np_rand2 G rows cols).
Proof.
  intros Hr Hc. unfold np_rand2.
  destruct (Z.ltb_spec rows 0); [lia|]. destruct (Z.ltb_spec cols 0); [lia|].
  simpl. apply total_for_fold. intros acc _.
  apply total_bind; [apply total_draws|]. intros r. apply total_ret.
Qed.

Lemma np_rand2_negative rows cols w :
  rows < 0 ∨ cols < 0 → np_rand2 G rows cols w = Raise ValueError.
Proof.
  intros Hneg. unfold np_rand2.
  destruct (Z.ltb_spec rows 0); [done|].
  destruct (Z.ltb_spec cols 0); [done|lia].
Qed.
End Totality.

Lemma non_dominated_sort_is_Some argsort scores :
  is_Some (non_dominated_sort argsort scores).
Proof.
  destruct (non_dominated_sort_unfold argsort scores) as (st & _ & _ & _ & ->).
  by eexists.
Qed.

Lemma init_population_total G argsort evaluate_objectives pop_size pb :
  0 ≤ pop_size → 0 ≤ dimension pb →
  total (init_population G argsort evaluate_objectives pop_size pb).
Proof.
  intros Hp Hd. unfold init_population.
  apply total_bind; [by apply total_np_rand2|]. intros r.
  apply total_bind; [apply total_alloc|]. intros pos_l.
  apply total_bind; [apply total_alloc|]. intros scores_l.
  apply total_bind.
  { apply total_for_. intros i.
    apply total_bind; [apply total_load|]. intros p. apply total_store_row. }
  intros _. apply total_bind; [apply total_load|]. intros s.
  apply total_bind.
  { apply total_budgeted, non_dominated_sort_is_Some. }
  intros [ranks crowd]. apply total_ret.
Qed.

Lemma first_front_total G P : total (first_front G P).
Proof.
  unfold first_front.
  apply total_bind; [apply total_load|]. intros p.
  apply total_bind; [apply total_load|]. intros s. apply total_ret.
Qed.

Lemma seqZ_nonpos m len : len ≤ 0 → seqZ m len = [].
Proof. intros Hlen. unfold seqZ. by replace (Z.to_nat len) with 0%nat by lia. Qed.

(** C3, as the code has it: [moho] validates nothing itself.
    Initialisation raises, a [ValueError] of the array constructor,
    exactly when [pop_size] or [dimension] is negative; with both
    non-negative it returns whatever the bounds, the parity of [pop_size]
    and [max_gen] are, and with [max_gen < 1] the run is the
    initialisation followed by the extraction of its first front. *)
Theorem initialisation_checks G L argsort evaluate_objectives
    (pop_size max_gen : Z) (pb : problem) (w : world G) :
  ((pop_size < 0 ∨ dimension pb < 0) →
     init_population G argsort evaluate_objectives pop_size pb w
     = Raise ValueError ∧
     moho G L argsort evaluate_objectives pop_size max_gen pb w
     = Raise ValueError) ∧
  (0 ≤ pop_size → 0 ≤ dimension pb →
     ∃ P w',
       init_population G argsort evaluate_objectives pop_size pb w = Ok P w' ∧
       (max_gen < 1 →
          evolve G L argsort evaluate_objectives pop_size max_gen pb max_gen w
          = Ok P w' ∧
          ∃ front,
            first_front G P w' = Ok front w' ∧
            moho G L argsort evaluate_objectives pop_size max_gen pb w
            = Ok front w')).
Proof.
  split.
  - intros Hneg.
    assert (init_population G argsort evaluate_objectives pop_size pb w
            = Raise ValueError) as Hinit.
    { unfold init_population. apply bind_raise. by apply np_rand2_negative. }
    split; [done|]. unfold moho, evolve.
    apply bind_raise. by apply bind_raise.
  - intros Hp Hd.
    destruct (init_population_total G argsort evaluate_objectives pop_size pb
                Hp Hd w) as (P & w' & Hinit).
    exists P, w'. split; [done|]. intros Hgen.
    assert (evolve G L argsort evaluate_objectives pop_size max_gen pb
              max_gen w = Ok P w') as Hev.
    { unfold evolve. rewrite (bind_ok _ _ _ _ _ Hinit).
      rewrite seqZ_nonpos by lia. done. }
    split; [done|].
    destruct (first_front_total G P w') as (front & w'' & Hfront).
    assert (w'' = w') as ->.
    { unfold first_front, mbind, M_bind, load, mret, M_ret in Hfront.
      by injection Hfront. }
    exists front. split; [done|]. unfold moho.
    by rewrite (bind_ok _ _ _ _ _ Hev).
Qed.

Lemma initialisation_checks_witness :
  0 ≤ 4 ∧ 0 ≤ dimension (unit_box 2) ∧ 0 < 1 ∧
  ∃ P w',
    evolve lcg_source toy_math merge_argsort toy_objectives 4 0 (unit_box 2)
           0 (empty_world 7) = Ok P w'.
Proof.
  split; [lia|]. split; [simpl; lia|]. split; [lia|].
  destruct (initialisation_checks lcg_source toy_math merge_argsort
              toy_objectives 4 0 (unit_box 2) (empty_world 7)) as [_ Hok].
  destruct Hok as (P & w' & _ & Hrun); [lia|simpl; lia|].
  exists P, w'. apply Hrun. lia.
Defined.

(** A malformed configuration, [max_gen = 0], that is not reported: the
    run returns. *)
Lemma malformed_not_reported :
  malformed 4 0 (unit_box 2) ∧
  returns (moho lcg_source toy_math merge_argsort toy_objectives 4 0
                (unit_box 2) (empty_world 7)) ∧
  ¬ raises (init_population lcg_source merge_argsort toy_objectives 4
                            (unit_box 2) (empty_world 7)).
Proof.
  split; [|split].
  - unfold malformed. do 4 right. lia.
  - vm_compute. exact I.
  - vm_compute. tauto.
Qed.

(** C1, as the code has it: the offspring dictionary [Q = P.copy()] holds
    the parent's arrays themselves, not copies of them, so an accepted
    candidate written through the offspring dictionary is read back
    through the parent dictionary: the parent's stored position changes
    during the generation. *)
Lemma offspring_write_changes_parent :
  let P := Population 0%nat 1%nat [1] [PInf] in
  let Q := dict_copy P in
  let w := @World lcg_source
             (<[0%nat := [[qfrac 1 2; qfrac 1 2]]]>
                (<[1%nat := [[qz 1; qz 1; qz 1]]]> ∅)) 7 in
  pos Q = pos P ∧ scores Q = scores P ∧
  heap w !!! pos P = [[qfrac 1 2; qfrac 1 2]] ∧
  match try_accept lcg_source toy_objectives (unit_box 2) Q 0%nat
                   [qz 0; qz 0] w with
  | Ok _ w' =>
      heap w' !!! pos P = [[0%Qc; 0%Qc]] ∧
      heap w' !!! pos P ≠ heap w !!! pos P
  | _ => False
  end.
Proof.
  split_and!; [reflexivity|reflexivity|reflexivity|].
  vm_compute. split.
  - repeat (f_equal; try (apply Qc_is_canon; reflexivity)).
  - intros [= H1 H2].
Qed.

(** ** Invariants of the store *)

Section Hoare.
Context {G : RandomSource}.
Implicit Types Pre : gmap loc matrix → Prop.

Lemma hoare_ret {A} Pre (a : A) (J : A → gmap loc matrix → Prop) :
  (∀ h, Pre h → J a h) → hoare Pre (mret a : M G A) J.
Proof. intros HJ w HI. by apply HJ. Qed.

Lemma hoare_bind {A B} Pre (m : M G A) (f : A → M G B) K J :
  hoare Pre m K → (∀ a, hoare (K a) (f a) J) → hoare Pre (m ≫= f) J.
Proof.
  intros Hm Hf w HI. unfold mbind, M_bind. specialize (Hm w HI).
  destruct (m w) as [a w'| |]; [|done|done]. by apply Hf.
Qed.

Lemma hoare_frames {A} Pre (m : M G A) :
  frames m → hoare Pre m (λ _, Pre).
Proof.
  intros Hm w HI. specialize (Hm w).
  destruct (m w) as [a w'| |]; [|done|done]. by rewrite Hm.
Qed.

Lemma hoare_ends_with {A B} Pre (fin : B → M G A) (m : M G A) J :
  ends_with fin m → (∀ x, hoare Pre (fin x) J) → hoare Pre m J.
Proof.
  intros Hm Hfin w HI. specialize (Hm w).
  destruct (m w) as [a w'| |]; [|done|done].
  destruct Hm as (x & w0 & Hheap & Hrun).
  assert (Pre (heap w0)) as HI0 by (by rewrite Hheap).
  specialize (Hfin x w0 HI0). by rewrite Hrun in Hfin.
Qed.

Lemma hoare_for_ {A} Pre (l : list A) (body : A → M G unit) :
  (∀ x, hoare Pre (body x) (λ _, Pre)) → hoare Pre (for_ G l body) (λ _, Pre).
Proof.
  intros Hbody. induction l as [|x l IH]; simpl.
  - by apply hoare_ret.
  - eapply hoare_bind; [apply Hbody|]. intros u. apply IH.
Qed.

Lemma hoare_for_fold {A B} (Pre : B → gmap loc matrix → Prop) (l : list A)
    (body : B → A → M G B) b :
  (∀ b x, hoare (Pre b) (body b x) Pre) →
  hoare (Pre b) (for_fold G l body b) Pre.
Proof.
  intros Hbody. revert b. induction l as [|x l IH]; intros b; simpl.
  - by apply hoare_ret.
  - eapply hoare_bind; [apply Hbody|]. intros b'. apply IH.
Qed.
End Hoare.

Section Steps.
Context {G : RandomSource}.
Variable L : MathLib.
Variable evaluate_objectives : vec → problem → vec.
Variable pb : problem.
Variable Good : vec → Prop.
Variable N : nat.
Hypothesis Hlen : ∀ x, length (evaluate_objectives x pb) = 3%nat.
Hypothesis Hclip : ∀ X, Good (np_clip X (lb pb) (ub pb)).

Lemma elem_of_insert_row (m : matrix) i (row x : vec) :
  x ∈ <[i := row]> m → x = row ∨ x ∈ m.
Proof.
  intros (j & Hj)%list_elem_of_lookup.
  destruct (decide (i = j)) as [->|Hne].
  - destruct (decide (j < length m)%nat) as [Hlt|Hge].
    + rewrite list_lookup_insert_eq in Hj by done. left. by injection Hj.
    + rewrite list_insert_ge in Hj by lia. right.
      by apply list_elem_of_lookup_2 in Hj.
  - rewrite list_lookup_insert_ne in Hj by done. right.
    by apply list_elem_of_lookup_2 in Hj.
Qed.

(** The gated replacement keeps the store well formed. *)
Lemma hoare_try_accept Q i X :
  hoare (stored Good N Q) (try_accept G evaluate_objectives pb Q i X)
        (λ _, stored Good N Q).
Proof.
  intros w [Hd Hlp Hls Hshape Hgood].
  set (cur := (heap w !!! scores Q) !!! i).
  set (c := np_clip X (lb pb) (ub pb)).
  destruct (decide (0 ≤ determine_dominance
                          (evaluate_objectives c pb) cur)) as [Hacc|Hrej].
  - apply accept_test_iff in Hacc. rewrite try_accept_accepted by done.
    simpl. split.
    + done.
    + rewrite lookup_total_alter_ne, store_lookup_total by done.
      by rewrite length_insert.
    + rewrite store_lookup_total, lookup_total_alter_ne by done.
      by rewrite length_insert.
    + intros s. rewrite store_lookup_total, lookup_total_alter_ne by done.
      intros [->|Hs]%elem_of_insert_row; [apply Hlen|by apply Hshape].
    + intros x. rewrite lookup_total_alter_ne, store_lookup_total by done.
      intros [->|Hx]%elem_of_insert_row; [apply Hclip|by apply Hgood].
  - apply reject_test_iff in Hrej. rewrite try_accept_rejected by done.
    by split.
Qed.

Lemma hoare_two_candidates Q i (Xs : vec * vec) :
  hoare (stored Good N Q)
        (for_ G [Xs.1; Xs.2] (try_accept G evaluate_objectives pb Q i))
        (λ _, stored Good N Q).
Proof. apply hoare_for_. intros X. apply hoare_try_accept. Qed.

(** Each step of the three phases keeps the store well formed. *)
Lemma hoare_exploration_step pop_size max_gen t P Q front i :
  hoare (stored Good N Q)
        (exploration_step G L evaluate_objectives pop_size max_gen pb
                          t P Q front i)
        (λ _, stored Good N Q).
Proof.
  eapply hoare_ends_with; [apply exploration_step_ends|].
  apply hoare_two_candidates.
Qed.

Lemma hoare_defense_step P Q i :
  hoare (stored Good N Q) (defense_step G L evaluate_objectives pb P Q i)
        (λ _, stored Good N Q).
Proof.
  eapply hoare_ends_with; [apply defense_step_ends|].
  intros X. apply hoare_try_accept.
Qed.

Lemma hoare_escape_step t Q i :
  hoare (stored Good N Q) (escape_step G evaluate_objectives pb t Q i)
        (λ _, stored Good N Q).
Proof.
  eapply hoare_ends_with; [apply escape_step_ends|].
  intros X. apply hoare_try_accept.
Qed.
End Steps.
(** ** Allocation, and the arrays of random numbers *)

Section Arrays.
Context {G : RandomSource}.

Lemma alloc_run (m : matrix) (w : world G) :
  alloc G m w
  = Ok (fresh (dom (heap w)))
       (World (<[fresh (dom (heap w)) := m]> (heap w)) (gen w)).
Proof. done. Qed.

Lemma draws_run {A} k (f : rng_state G → A * rng_state G) (w : world G) :
  ∃ xs g, draws G k f w = Ok xs (World (heap w) g) ∧ length xs = k ∧
          ∀ x, x ∈ xs → ∃ s, x = (f s).1.
Proof.
  revert w. induction k as [|k IH]; intros w; simpl.
  - exists [], (gen w). destruct w. split_and!; [done|done|].
    intros x Hx. by apply elem_of_nil in Hx.
  - unfold mbind, M_bind, draw.
    destruct (f (gen w)) as [x g1] eqn:Hf.
    destruct (IH (World (heap w) g1)) as (xs & g & -> & Hlen & Hxs).
    exists (x :: xs), g. simpl. split_and!; [done|by rewrite Hlen|].
    intros y [->|Hy]%elem_of_cons; [|by apply Hxs].
    exists (gen w). by rewrite Hf.
Qed.

Lemma rows_fold_run {A} (f : rng_state G → A * rng_state G) cols
    (l : list nat) : ∀ acc (w : world G),
  ∃ rows g,
    for_fold G l (λ acc _, r ← draws G cols f; mret (acc ++ [r])) acc w
    = Ok (acc ++ rows) (World (heap w) g) ∧
    length rows = length l ∧
    ∀ r x, r ∈ rows → x ∈ r → ∃ s, x = (f s).1.
Proof.
  induction l as [|i l IH]; intros acc w; simpl.
  - exists [], (gen w). destruct w. rewrite app_nil_r.
    split_and!; [done|done|]. intros r x Hr. by apply elem_of_nil in Hr.
  - destruct (draws_run cols f w) as (r & g1 & Hr & _ & Hrx).
    assert ((r ← draws G cols f; mret (acc ++ [r]) : M G _) w
            = Ok (acc ++ [r]) (World (heap w) g1)) as Hbody.
    { by rewrite (bind_ok _ _ _ _ _ Hr). }
    rewrite (bind_ok _ _ _ _ _ Hbody).
    destruct (IH (acc ++ [r]) (World (heap w) g1))
      as (rows & g & -> & Hlen & Hrows).
    exists (r :: rows), g. simpl.
    split_and!; [by rewrite <-app_assoc|by rewrite Hlen|].
    intros r' x [->|Hr']%elem_of_cons Hx; [by apply Hrx|].
    by apply (Hrows r').
Qed.

(** [np.random.rand(rows, cols)] returns [rows] rows of draws and leaves
    the store alone. *)
Lemma np_rand2_run rows cols (w : world G) :
  0 ≤ rows → 0 ≤ cols →
  ∃ r g, np_rand2 G rows cols w = Ok r (World (heap w) g) ∧
         length r = Z.to_nat rows ∧
         ∀ row x, row ∈ r → x ∈ row → ∃ s, x = (rand G s).1.
Proof.
  intros Hr Hc. unfold np_rand2.
  destruct (Z.ltb_spec rows 0); [lia|]. destruct (Z.ltb_spec cols 0); [lia|].
  simpl.
  destruct (rows_fold_run (rand G) (Z.to_nat cols)
              (seq 0 (Z.to_nat rows)) [] w) as (r & g & Hrun & Hlen & Hx).
  exists r, g. split_and!; [done| |done]. by rewrite Hlen, length_seq.
Qed.
End Arrays.

Lemma rows_of_three_well_shaped (m : matrix) :
  (∀ r, r ∈ m → length r = 3%nat) → well_shaped m.
Proof.
  intros Hm r Hr. rewrite (Hm r Hr).
  destruct m as [|r0 m]; [by apply elem_of_nil in Hr|].
  simpl. symmetry. apply Hm. left.
Qed.

Lemma elem_of_take_rows (m : matrix) idx x :
  (∀ j, j ∈ idx → (j < length m)%nat) → x ∈ take_rows m idx → x ∈ m.
Proof.
  intros Hidx (j & -> & Hj)%list_elem_of_fmap.
  apply list_elem_of_lookup_total_2. by apply Hidx.
Qed.

(** ** Clipping and the box *)

Lemma Qcmax_ge_r x y : (y ≤ Qcmax x y)%Qc.
Proof.
  unfold Qcmax. case_decide as H; [apply Qcle_refl|].
  apply Qclt_le_weak. by apply Qcnot_le_lt.
Qed.

Lemma Qcmin_le_r x y : (Qcmin x y ≤ y)%Qc.
Proof. unfold Qcmin. case_decide; [done|apply Qcle_refl]. Qed.

Lemma Qcmin_ge x y z : (z ≤ x)%Qc → (z ≤ y)%Qc → (z ≤ Qcmin x y)%Qc.
Proof. intros. unfold Qcmin. by case_decide. Qed.

(** A clipped position is inside the box as soon as no lower bound
    exceeds its upper bound. *)
Lemma np_clip_in_box pb X :
  box_nonempty pb → in_box pb (np_clip X (lb pb) (ub pb)).
Proof.
  intros Hbox k v Hk Hv. unfold np_clip in Hv.
  rewrite list_lookup_imap in Hv.
  destruct (X !! k) as [x|]; [|done]. injection Hv as <-.
  specialize (Hbox k Hk). apply Qclt_le_weak in Hbox. split.
  - apply Qcmin_ge; [apply Qcmax_ge_r|done].
  - apply Qcmin_le_r.
Qed.

(** A point of the unit cube scaled to the box is inside the box. *)
Lemma scale_to_box_in_box pb (r : vec) :
  box_nonempty pb →
  (∀ x, x ∈ r → (0 ≤ x)%Qc ∧ (x < 1)%Qc) →
  in_box pb (scale_to_box (lb pb) (ub pb) r).
Proof.
  intros Hbox Hr k v Hk Hv. unfold scale_to_box in Hv.
  rewrite list_lookup_imap in Hv.
  destruct (r !! k) as [x|] eqn:Hx; [|done]. injection Hv as <-.
  apply list_elem_of_lookup_2 in Hx. destruct (Hr x Hx) as [H0 H1].
  specialize (Hbox k Hk).
  set (lo := bound_at (lb pb) k) in *. set (hi := bound_at (ub pb) k) in *.
  assert (0 ≤ hi - lo)%Qc as Hw.
  { apply Qclt_le_weak in Hbox.
    apply (Qcplus_le_mono_r _ _ lo). ring_simplify. done. }
  split.
  - rewrite <-(Qcplus_0_r lo) at 1. apply Qcplus_le_mono_l.
    by apply Qcmult_nonneg_nonneg.
  - apply Qcle_trans with (lo + 1 * (hi - lo))%Qc.
    + apply Qcplus_le_mono_l. apply Qcmult_le_compat_r; [|done].
      by apply Qclt_le_weak.
    + ring_simplify. apply Qcle_refl.
Qed.
(** The rows environmental selection returns: [pop_size] rows of the
    merged pool, positions and scores taken at the same pool indices. *)
Lemma environmental_selection_rows argsort (pop_size dim : nat)
    (P_pos P_scores Q_pos Q_scores : matrix) :
  argsort_ok argsort →
  length P_pos = pop_size → length P_scores = pop_size →
  length Q_pos = pop_size → length Q_scores = pop_size →
  well_shaped (P_scores ++ Q_scores) →
  ∃ chosen next_pos next_scores,
    environmental_selection argsort pop_size dim P_pos P_scores Q_pos Q_scores
    = Some (next_pos, next_scores) ∧
    length chosen = pop_size ∧ NoDup chosen ∧
    next_pos = take_rows (P_pos ++ Q_pos) chosen ∧
    next_scores = take_rows (P_scores ++ Q_scores) chosen ∧
    (∀ j, j ∈ chosen → (j < 2 * pop_size)%nat).
Proof.
  intros Hok HPp HPs HQp HQs Hshape.
  set (R_scores := P_scores ++ Q_scores) in *.
  set (R_pos := P_pos ++ Q_pos).
  assert (length R_scores = (2 * pop_size)%nat) as Hpool.
  { unfold R_scores. rewrite length_app. lia. }
  destruct (non_dominated_sort_unfold argsort R_scores)
    as (st & _ & Hinv & Hexit & Hnds).
  set (R_ranks := ps_ranks st) in *.
  set (R_crowding := crowding argsort R_scores (ps_fronts st)) in *.
  assert (length R_ranks = (2 * pop_size)%nat) as Hlr.
  { unfold R_ranks. by rewrite (pi_len_ranks _ _ Hinv). }
  assert (∀ j, (j < length R_ranks)%nat → 1 ≤ R_ranks !!! j) as Hranked.
  { intros j Hj. apply (final_ranks_spec R_scores st); [done..|].
    rewrite Hpool. lia. }
  assert (∀ j r, (j < length R_ranks)%nat → 1 ≤ r ≤ R_ranks !!! j →
                 ∃ i, (i < length R_ranks)%nat ∧ R_ranks !!! i = r)
    as Hcontiguous.
  { intros j r Hj Hr. rewrite Hlr in *.
    destruct (final_ranks_contiguous R_scores st Hshape Hinv Hexit j r)
      as (i & Hi & Hri); [lia|done|]. exists i. split; [lia|done]. }
  destruct (select_loop_inv argsort Hok pop_size R_pos R_scores R_ranks
              R_crowding ltac:(lia) Hranked Hcontiguous pop_size []
              (SelectState (np_zeros pop_size dim) (np_zeros pop_size 3) 0 1))
    as (chosen & st' & Hloop & Hsel & Hfull).
  { by apply sel_inv_init. }
  { simpl. lia. }
  destruct Hsel as [Hlp Hls Hc Hcle Hnd Hfn Hrows Hch _ _ _ _].
  exists chosen, (sel_pos st'), (sel_scores st').
  split_and!.
  - unfold environmental_selection. fold R_scores R_pos. rewrite Hnds.
    simpl. by rewrite Hloop.
  - lia.
  - done.
  - apply list_eq_lookup_total.
    + rewrite take_rows_length. lia.
    + intros p Hp. rewrite take_rows_lookup by lia. apply Hrows. lia.
  - apply list_eq_lookup_total.
    + rewrite take_rows_length. lia.
    + intros p Hp. rewrite take_rows_lookup by lia. apply Hrows. lia.
  - intros j Hj. apply Hch in Hj. lia.
Qed.

(** ** The invariants of a run *)

Section Run.
Context {G : RandomSource}.
Variable L : MathLib.
Variable argsort : list efloat → list nat.
Variable evaluate_objectives : vec → problem → vec.
Variables (pop_size max_gen : Z) (pb : problem).
Variable Good : vec → Prop.
Hypothesis Hok : argsort_ok argsort.
Hypothesis Hlen : ∀ x, length (evaluate_objectives x pb) = 3%nat.
Hypothesis Hclip : ∀ X, Good (np_clip X (lb pb) (ub pb)).
Hypothesis Hinit : ∀ (w : world G) r w',
  np_rand2 G pop_size (dimension pb) w = Ok r w' →
  ∀ row, row ∈ r → Good (scale_to_box (lb pb) (ub pb) row).

Let N := Z.to_nat pop_size.

Lemma budgeted_run {A} (o : option A) a (w : world G) :
  o = Some a → budgeted G o w = Ok a w.
Proof. by intros ->. Qed.

Lemma load_run l (w : world G) : load G l w = Ok (heap w !!! l) w.
Proof. done. Qed.

(** Lines 248-281 keep the store well formed, and the new dictionary
    carries the ranks of its own scores. *)
Lemma hoare_next_population P Q :
  hoare (λ h, stored Good N P h ∧ stored Good N Q h)
        (next_population G argsort pop_size pb P Q)
        (λ P' h', stored Good N P' h' ∧ ranked argsort N P').
Proof.
  intros w [HP HQ]. unfold next_population.
  rewrite (bind_ok _ _ _ _ _ (load_run (pos P) w)).
  rewrite (bind_ok _ _ _ _ _ (load_run (pos Q) w)).
  rewrite (bind_ok _ _ _ _ _ (load_run (scores P) w)).
  rewrite (bind_ok _ _ _ _ _ (load_run (scores Q) w)).
  set (p_pos := heap w !!! pos P). set (q_pos := heap w !!! pos Q).
  set (p_scores := heap w !!! scores P).
  set (q_scores := heap w !!! scores Q).
  assert (length p_pos = N) as HlPp by apply (st_len_pos _ _ _ _ HP).
  assert (length q_pos = N) as HlQp by apply (st_len_pos _ _ _ _ HQ).
  assert (length p_scores = N) as HlPs by apply (st_len_scores _ _ _ _ HP).
  assert (length q_scores = N) as HlQs by apply (st_len_scores _ _ _ _ HQ).
  assert (∀ r, r ∈ p_scores ++ q_scores → length r = 3%nat) as Hthree.
  { intros r [Hr|Hr]%elem_of_app.
    - by apply (st_shape _ _ _ _ HP).
    - by apply (st_shape _ _ _ _ HQ). }
  destruct (environmental_selection_rows argsort N
              (Z.to_nat (dimension pb)) p_pos p_scores q_pos q_scores Hok)
    as (chosen & next_pos & next_scores & Hsel & Hlc & _ & Hnp & Hns & Hch).
  { done. }
  { done. }
  { done. }
  { done. }
  { by apply rows_of_three_well_shaped. }
  assert (length next_pos = N) as Hlp.
  { by rewrite Hnp, take_rows_length. }
  assert (length next_scores = N) as Hls.
  { by rewrite Hns, take_rows_length. }
  rewrite (bind_ok _ _ _ _ _ (budgeted_run _ _ w Hsel)).
  rewrite (bind_ok _ _ _ _ _ (alloc_run next_pos w)).
  set (pos_l := fresh (dom (heap w))).
  set (w1 := World (<[pos_l := next_pos]> (heap w)) (gen w)).
  rewrite (bind_ok _ _ _ _ _ (alloc_run next_scores w1)).
  set (scores_l := fresh (dom (heap w1))).
  set (w2 := World (<[scores_l := next_scores]> (heap w1)) (gen w1)).
  destruct (non_dominated_sort_is_Some argsort next_scores)
    as [[ranks crowd] Hnds].
  rewrite (bind_ok _ _ _ _ _ (budgeted_run _ _ w2 Hnds)).
  simpl.
  assert (pos_l ≠ scores_l) as Hdistinct.
  { intros Heq. pose proof (is_fresh (dom (heap w1))) as Hfresh.
    fold scores_l in Hfresh. apply Hfresh. rewrite <-Heq. unfold w1. simpl.
    rewrite dom_insert_L. apply elem_of_union_l. by apply elem_of_singleton. }
  assert (∀ j, j ∈ chosen → (j < length (p_pos ++ q_pos))%nat) as Hidx.
  { intros j Hj. apply Hch in Hj. rewrite length_app. lia. }
  assert (∀ j, j ∈ chosen → (j < length (p_scores ++ q_scores))%nat)
    as Hidx'.
  { intros j Hj. apply Hch in Hj. rewrite length_app. lia. }
  split; [split; simpl|].
  - done.
  - rewrite lookup_total_insert_ne, lookup_total_insert_eq by done. done.
  - by rewrite lookup_total_insert_eq.
  - intros s. rewrite lookup_total_insert_eq, Hns.
    intros Hs%elem_of_take_rows; [by apply Hthree|done].
  - intros x.
    rewrite lookup_total_insert_ne, lookup_total_insert_eq, Hnp by done.
    intros [Hx|Hx]%elem_of_take_rows%elem_of_app; [| |done].
    + by apply (st_good _ _ _ _ HP).
    + by apply (st_good _ _ _ _ HQ).
  - exists next_scores. split_and!; [done| |done].
    apply rows_of_three_well_shaped. intros s. rewrite Hns.
    intros Hs%elem_of_take_rows; [by apply Hthree|done].
Qed.

Lemma stored_dict_copy P h :
  stored Good N P h ↔ stored Good N (dict_copy P) h.
Proof. split; intros [? ? ? ? ?]; by split. Qed.

Lemma hoare_conseq {A} (Pre Pre' : gmap loc matrix → Prop) (m : M G A)
    (J J' : A → gmap loc matrix → Prop) :
  (∀ h, Pre' h → Pre h) → (∀ a h, J a h → J' a h) →
  hoare Pre m J → hoare Pre' m J'.
Proof.
  intros Hpre Hpost Hm w HI. specialize (Hm w (Hpre _ HI)).
  destruct (m w); [by apply Hpost|done|done].
Qed.

(** The scoring loop of lines 163-164 writes the scores array only. *)
Lemma score_loop_run pos_l scores_l (l : list nat) : ∀ (w : world G),
  ∃ w',
    for_ G l (λ i, p ← load G pos_l;
                   store_row G scores_l i
                             (evaluate_objectives (p !!! i) pb)) w
    = Ok tt w' ∧
    (∀ l', l' ≠ scores_l → heap w' !!! l' = heap w !!! l') ∧
    length (heap w' !!! scores_l) = length (heap w !!! scores_l) ∧
    ((∀ s, s ∈ heap w !!! scores_l → length s = 3%nat) →
     ∀ s, s ∈ heap w' !!! scores_l → length s = 3%nat).
Proof.
  induction l as [|i l IH]; intros w; simpl.
  { exists w. by split_and!. }
  set (row := evaluate_objectives ((heap w !!! pos_l) !!! i) pb).
  set (w1 := World (alter (λ m, <[i := row]> m) scores_l (heap w)) (gen w)).
  assert ((p ← load G pos_l;
           store_row G scores_l i (evaluate_objectives (p !!! i) pb)) w
          = Ok tt w1) as Hbody by done.
  rewrite (bind_ok _ _ _ _ _ Hbody).
  destruct (IH w1) as (w' & -> & Hother & Hlens & Hshape).
  exists w'. split_and!; [done| | |].
  - intros l' Hne. rewrite Hother by done. unfold w1. simpl.
    by rewrite lookup_total_alter_ne.
  - rewrite Hlens. unfold w1. simpl.
    by rewrite store_lookup_total, length_insert.
  - intros Hthree. apply Hshape. intros s. unfold w1. simpl.
    rewrite store_lookup_total.
    intros [->|Hs]%elem_of_insert_row; [apply Hlen|by apply Hthree].
Qed.

(** Lines 159-166 set up a well-formed store. *)
Lemma hoare_init_population :
  hoare (λ _, True)
        (init_population G argsort evaluate_objectives pop_size pb)
        (λ P h, stored Good N P h ∧ ranked argsort N P).
Proof.
  intros w _. unfold init_population.
  destruct (decide (pop_size < 0 ∨ dimension pb < 0)) as [Hneg|Hpos].
  { by rewrite (bind_raise _ _ _ _ (np_rand2_negative _ _ w Hneg)). }
  destruct (np_rand2_run pop_size (dimension pb) w)
    as (r & g & Hr & Hlr & _); [lia|lia|].
  pose proof (Hinit _ _ _ Hr) as Hgood.
  rewrite (bind_ok _ _ _ _ _ Hr).
  set (w0 := World (heap w) g).
  rewrite (bind_ok _ _ _ _ _ (alloc_run _ w0)).
  set (pos_l := fresh (dom (heap w0))).
  set (pos0 := scale_to_box (lb pb) (ub pb) <$> r).
  set (w1 := World (<[pos_l := pos0]> (heap w0)) (gen w0)).
  rewrite (bind_ok _ _ _ _ _ (alloc_run _ w1)).
  set (scores_l := fresh (dom (heap w1))).
  set (w2 := World (<[scores_l := np_zeros N 3]> (heap w1)) (gen w1)).
  assert (pos_l ≠ scores_l) as Hdistinct.
  { intros Heq. pose proof (is_fresh (dom (heap w1))) as Hfresh.
    fold scores_l in Hfresh. apply Hfresh. rewrite <-Heq. unfold w1. simpl.
    rewrite dom_insert_L. apply elem_of_union_l. by apply elem_of_singleton. }
  destruct (score_loop_run pos_l scores_l (seq 0 N) w2)
    as (w3 & Hloop & Hother & Hlens & Hshape).
  fold N. rewrite (bind_ok _ _ _ _ _ Hloop).
  rewrite (bind_ok _ _ _ _ _ (load_run scores_l w3)).
  destruct (non_dominated_sort_is_Some argsort (heap w3 !!! scores_l))
    as [[ranks crowd] Hnds].
  rewrite (bind_ok _ _ _ _ _ (budgeted_run _ _ w3 Hnds)).
  simpl.
  assert (heap w3 !!! pos_l = pos0) as Hpos0.
  { rewrite Hother by done. unfold w2, w1. simpl.
    by rewrite lookup_total_insert_ne, lookup_total_insert_eq. }
  assert (heap w2 !!! scores_l = np_zeros N 3) as Hzeros.
  { unfold w2. simpl. by rewrite lookup_total_insert_eq. }
  assert (∀ s, s ∈ heap w3 !!! scores_l → length s = 3%nat) as Hthree.
  { apply Hshape. intros s. rewrite Hzeros. unfold np_zeros.
    intros ->%elem_of_replicate_inv. apply length_replicate. }
  split; [split; simpl|].
  - done.
  - rewrite Hpos0. unfold pos0. rewrite length_fmap. by rewrite Hlr.
  - rewrite Hlens, Hzeros. apply length_replicate.
  - done.
  - intros x. rewrite Hpos0. unfold pos0.
    intros (row & -> & Hrow)%list_elem_of_fmap. by apply Hgood.
  - exists (heap w3 !!! scores_l). split_and!; [|by apply rows_of_three_well_shaped|done].
    rewrite Hlens, Hzeros. apply length_replicate.
Qed.

(** One generation, lines 170-283. *)
Lemma hoare_generation P t :
  hoare (stored Good N P)
        (generation G L argsort evaluate_objectives pop_size max_gen pb P t)
        (λ P' h', stored Good N P' h' ∧ ranked argsort N P').
Proof.
  unfold generation.
  apply hoare_conseq with (stored Good N (dict_copy P))
    (λ P' h', stored Good N P' h' ∧ ranked argsort N P');
    [by intros h ?%stored_dict_copy|done|].
  eapply hoare_bind.
  { apply hoare_for_. intros i. by apply hoare_exploration_step. }
  intros []. eapply hoare_bind.
  { apply hoare_for_. intros i. by apply hoare_defense_step. }
  intros []. eapply hoare_bind.
  { apply hoare_for_. intros i. by apply hoare_escape_step. }
  intros [].
  eapply hoare_conseq; [| |apply hoare_next_population].
  - intros h HQ. split; [by apply stored_dict_copy|done].
  - done.
Qed.

(** The parent population after any number of generations. *)
Lemma hoare_evolve gens :
  hoare (λ _, True)
        (evolve G L argsort evaluate_objectives pop_size max_gen pb gens)
        (λ P h, stored Good N P h ∧ ranked argsort N P).
Proof.
  unfold evolve. eapply hoare_bind; [apply hoare_init_population|].
  intros P.
  apply (hoare_for_fold (λ P h, stored Good N P h ∧ ranked argsort N P)).
  intros P' t.
  eapply hoare_conseq; [| |apply hoare_generation].
  - by intros h [? _].
  - done.
Qed.

Lemma ranked_length P : ranked argsort N P → length (ranks P) = N.
Proof.
  intros (s & Hs & _ & Hnds).
  destruct (non_dominated_sort_unfold argsort s)
    as (st & _ & Hinv & _ & Hnds').
  rewrite Hnds' in Hnds. injection Hnds as <- _.
  by rewrite (pi_len_ranks _ _ Hinv).
Qed.

(** The returned front. *)
Lemma hoare_moho :
  hoare (λ _, True)
        (moho G L argsort evaluate_objectives pop_size max_gen pb)
        (λ front _, ∀ x, x ∈ front.1 → Good x).
Proof.
  unfold moho. eapply hoare_bind; [apply hoare_evolve|]. intros P.
  intros w [Hst Hrk]. unfold first_front.
  rewrite (bind_ok _ _ _ _ _ (load_run (pos P) w)).
  rewrite (bind_ok _ _ _ _ _ (load_run (scores P) w)).
  simpl. intros x Hx%elem_of_take_rows; [by apply (st_good _ _ _ _ Hst)|].
  intros j Hj%elem_of_front. rewrite (st_len_pos _ _ _ _ Hst).
  rewrite <-(ranked_length P Hrk). by destruct Hj.
Qed.
End Run.
(** ** The evaluator is only ever asked about positions in the box *)

Section Extensionality.
Context {G : RandomSource}.

Lemma bind_ext {A B} (m1 m2 : M G A) (f g : A → M G B) w :
  m1 w = m2 w → (∀ a w', f a w' = g a w') → (m1 ≫= f) w = (m2 ≫= g) w.
Proof.
  intros Hm Hf. unfold mbind, M_bind. rewrite Hm.
  destruct (m2 w); [apply Hf|done|done].
Qed.

Lemma for_ext {A} (l : list A) (b1 b2 : A → M G unit) w :
  (∀ x w', b1 x w' = b2 x w') → for_ G l b1 w = for_ G l b2 w.
Proof.
  intros Hb. revert w. induction l as [|x l IH]; intros w; simpl; [done|].
  apply bind_ext; [apply Hb|]. intros _ w'. apply IH.
Qed.

Lemma for_fold_ext {A B} (l : list A) (b1 b2 : B → A → M G B) b w :
  (∀ b x w', b1 b x w' = b2 b x w') →
  for_fold G l b1 b w = for_fold G l b2 b w.
Proof.
  intros Hb. revert b w.
  induction l as [|x l IH]; intros b w; simpl; [done|].
  apply bind_ext; [apply Hb|]. intros b' w'. apply IH.
Qed.
End Extensionality.

Section Guarded.
Context {G : RandomSource}.
Variable L : MathLib.
Variable argsort : list efloat → list nat.
Variable evaluate_objectives : vec → problem → vec.
Variables (pop_size max_gen : Z) (pb : problem).
Hypothesis Hbox : box_nonempty pb.
Hypothesis Hunit : rand_unit G.

Lemma guarded_in_box x :
  in_box pb x → guarded evaluate_objectives x pb = evaluate_objectives x pb.
Proof. intros Hx. unfold guarded. by rewrite decide_True. Qed.

Lemma in_box_nil : in_box pb [].
Proof. intros k v _ Hv. by rewrite lookup_nil in Hv. Qed.

Lemma in_box_lookup_total (m : matrix) i :
  (∀ x, x ∈ m → in_box pb x) → in_box pb (m !!! i).
Proof.
  intros Hm. destruct (decide (i < length m)%nat) as [Hi|Hi].
  - by apply Hm, list_elem_of_lookup_total_2.
  - rewrite list_lookup_total_alt, lookup_ge_None_2 by lia. apply in_box_nil.
Qed.

Lemma try_accept_guarded Q i X (w : world G) :
  try_accept G evaluate_objectives pb Q i X w
  = try_accept G (guarded evaluate_objectives) pb Q i X w.
Proof.
  unfold try_accept. by rewrite guarded_in_box by by apply np_clip_in_box.
Qed.

Lemma exploration_step_guarded t P Q front i (w : world G) :
  exploration_step G L evaluate_objectives pop_size max_gen pb t P Q front i w
  = exploration_step G L (guarded evaluate_objectives) pop_size max_gen pb
                     t P Q front i w.
Proof.
  unfold exploration_step.
  do 10 (apply bind_ext; [done|]; intros ? ?).
  apply for_ext. intros X ww. apply try_accept_guarded.
Qed.

Lemma defense_step_guarded P Q i (w : world G) :
  defense_step G L evaluate_objectives pb P Q i w
  = defense_step G L (guarded evaluate_objectives) pb P Q i w.
Proof.
  unfold defense_step.
  do 8 (apply bind_ext; [done|]; intros ? ?).
  apply try_accept_guarded.
Qed.

Lemma escape_step_guarded t Q i (w : world G) :
  escape_step G evaluate_objectives pb t Q i w
  = escape_step G (guarded evaluate_objectives) pb t Q i w.
Proof.
  unfold escape_step.
  do 3 (apply bind_ext; [done|]; intros ? ?).
  apply try_accept_guarded.
Qed.

Lemma generation_guarded P t (w : world G) :
  generation G L argsort evaluate_objectives pop_size max_gen pb P t w
  = generation G L argsort (guarded evaluate_objectives) pop_size max_gen pb
               P t w.
Proof.
  unfold generation.
  apply bind_ext.
  { apply for_ext. intros i w'. apply exploration_step_guarded. }
  intros _ w1. apply bind_ext.
  { apply for_ext. intros i w'. apply defense_step_guarded. }
  intros _ w2. apply bind_ext; [|done].
  apply for_ext. intros i w'. apply escape_step_guarded.
Qed.

Lemma score_loop_guarded pos_l scores_l (l : list nat) : ∀ (w : world G),
  pos_l ≠ scores_l →
  (∀ x, x ∈ heap w !!! pos_l → in_box pb x) →
  for_ G l (λ i, p ← load G pos_l;
                 store_row G scores_l i (evaluate_objectives (p !!! i) pb)) w
  = for_ G l (λ i, p ← load G pos_l;
                   store_row G scores_l i
                     (guarded evaluate_objectives (p !!! i) pb)) w.
Proof.
  induction l as [|i l IH]; intros w Hne Hpos; simpl; [done|].
  set (row := evaluate_objectives ((heap w !!! pos_l) !!! i) pb).
  set (w1 := World (alter (λ m, <[i := row]> m) scores_l (heap w)) (gen w)).
  assert ((p ← load G pos_l;
           store_row G scores_l i (evaluate_objectives (p !!! i) pb)) w
          = Ok tt w1) as Hbody by done.
  assert ((p ← load G pos_l;
           store_row G scores_l i
             (guarded evaluate_objectives (p !!! i) pb)) w
          = Ok tt w1) as Hbody'.
  { unfold mbind, M_bind, load, store_row.
    by rewrite guarded_in_box by by apply in_box_lookup_total. }
  rewrite (bind_ok _ _ _ _ _ Hbody), (bind_ok _ _ _ _ _ Hbody').
  apply IH; [done|]. unfold w1. simpl.
  by rewrite lookup_total_alter_ne.
Qed.

Lemma init_population_guarded (w : world G) :
  init_population G argsort evaluate_objectives pop_size pb w
  = init_population G argsort (guarded evaluate_objectives) pop_size pb w.
Proof.
  unfold init_population.
  destruct (decide (pop_size < 0 ∨ dimension pb < 0)) as [Hneg|Hpos].
  { by rewrite !(bind_raise _ _ _ _ (np_rand2_negative _ _ w Hneg)). }
  destruct (np_rand2_run pop_size (dimension pb) w)
    as (r & g & Hr & _ & Hrows); [lia|lia|].
  rewrite !(bind_ok _ _ _ _ _ Hr).
  set (w0 := World (heap w) g).
  rewrite !(bind_ok _ _ _ _ _ (alloc_run _ w0)).
  set (pos_l := fresh (dom (heap w0))).
  set (pos0 := scale_to_box (lb pb) (ub pb) <$> r).
  set (w1 := World (<[pos_l := pos0]> (heap w0)) (gen w0)).
  rewrite !(bind_ok _ _ _ _ _ (alloc_run _ w1)).
  set (scores_l := fresh (dom (heap w1))).
  set (w2 := World (<[scores_l := np_zeros (Z.to_nat pop_size) 3]>
                      (heap w1)) (gen w1)).
  assert (pos_l ≠ scores_l) as Hdistinct.
  { intros Heq. pose proof (is_fresh (dom (heap w1))) as Hfresh.
    fold scores_l in Hfresh. apply Hfresh. rewrite <-Heq. unfold w1. simpl.
    rewrite dom_insert_L. apply elem_of_union_l. by apply elem_of_singleton. }
  apply bind_ext; [|done].
  apply score_loop_guarded; [done|]. unfold w2, w1. simpl.
  rewrite lookup_total_insert_ne, lookup_total_insert_eq by done.
  unfold pos0. intros x (row & -> & Hrow)%list_elem_of_fmap.
  apply scale_to_box_in_box; [done|].
  intros v Hv. destruct (Hrows row v Hrow Hv) as [s ->]. apply Hunit.
Qed.

Lemma evolve_guarded gens (w : world G) :
  evolve G L argsort evaluate_objectives pop_size max_gen pb gens w
  = evolve G L argsort (guarded evaluate_objectives) pop_size max_gen pb
           gens w.
Proof.
  unfold evolve. apply bind_ext; [apply init_population_guarded|].
  intros P w'. apply for_fold_ext. intros P' t w''.
  apply generation_guarded.
Qed.

(** A run cannot tell the evaluator from one that answers only inside
    the box. *)
Lemma moho_guarded (w : world G) :
  moho G L argsort evaluate_objectives pop_size max_gen pb w
  = moho G L argsort (guarded evaluate_objectives) pop_size max_gen pb w.
Proof. unfold moho. apply bind_ext; [apply evolve_guarded|done]. Qed.
End Guarded.
(** ** Bounds of the stored populations *)

Lemma np_rand2_unit G rows cols (w : world G) r w' :
  rand_unit G → np_rand2 G rows cols w = Ok r w' →
  ∀ row x, row ∈ r → x ∈ row → (0 ≤ x)%Qc ∧ (x < 1)%Qc.
Proof.
  intros Hunit Hrun row x Hrow Hx.
  destruct (decide (rows < 0 ∨ cols < 0)) as [Hneg|Hpos].
  { by rewrite (np_rand2_negative _ _ w Hneg) in Hrun. }
  destruct (np_rand2_run rows cols w) as (r' & g & Hr & _ & Hrows);
    [lia|lia|].
  rewrite Hr in Hrun. injection Hrun as -> _.
  destruct (Hrows row x Hrow Hx) as [s ->]. apply Hunit.
Qed.

Lemma hoare_weaken {G A} (Pre : gmap loc matrix → Prop) (m : M G A)
    (J J' : A → gmap loc matrix → Prop) :
  (∀ a h, J a h → J' a h) → hoare Pre m J → hoare Pre m J'.
Proof.
  intros Hpost Hm w Hpre. specialize (Hm w Hpre).
  destruct (m w); [by apply Hpost|done|done].
Qed.

(** C7: with [lb < ub] on every coordinate, every position stored in the
    parent or the offspring population is inside the box after the
    initialisation, after each step of the three phases, after the
    environmental selection and so after any number of generations, and
    so is every returned position; a candidate is clipped first, and a
    run cannot tell its evaluator from one that answers only inside the
    box. *)
Theorem bounds_invariant G L argsort evaluate_objectives
    (pop_size max_gen : Z) (pb : problem) :
  argsort_ok argsort →
  (∀ x, length (evaluate_objectives x pb) = 3%nat) →
  rand_unit G → box_nonempty pb →
  let inv P h := stored (in_box pb) (Z.to_nat pop_size) P h in
  hoare (λ _, True)
        (init_population G argsort evaluate_objectives pop_size pb) inv ∧
  (∀ P t front i,
     hoare (inv P)
           (exploration_step G L evaluate_objectives pop_size max_gen pb
                             t P (dict_copy P) front i)
           (λ _ h, inv P h ∧ inv (dict_copy P) h)) ∧
  (∀ P i,
     hoare (inv P)
           (defense_step G L evaluate_objectives pb P (dict_copy P) i)
           (λ _ h, inv P h ∧ inv (dict_copy P) h)) ∧
  (∀ P t i,
     hoare (inv P)
           (escape_step G evaluate_objectives pb t (dict_copy P) i)
           (λ _ h, inv P h ∧ inv (dict_copy P) h)) ∧
  (∀ P, hoare (inv P)
              (next_population G argsort pop_size pb P (dict_copy P)) inv) ∧
  (∀ gens,
     hoare (λ _, True)
           (evolve G L argsort evaluate_objectives pop_size max_gen pb gens)
           inv) ∧
  hoare (λ _, True)
        (moho G L argsort evaluate_objectives pop_size max_gen pb)
        (λ front _, ∀ x, x ∈ front.1 → in_box pb x) ∧
  (∀ X, in_box pb (np_clip X (lb pb) (ub pb))) ∧
  (∀ w, moho G L argsort evaluate_objectives pop_size max_gen pb w
        = moho G L argsort (guarded evaluate_objectives) pop_size max_gen pb
               w).
Proof.
  intros Hok Hlen Hunit Hbox inv.
  assert (∀ X, in_box pb (np_clip X (lb pb) (ub pb))) as Hclip.
  { intros X. by apply np_clip_in_box. }
  assert (∀ (w : world G) r w',
            np_rand2 G pop_size (dimension pb) w = Ok r w' →
            ∀ row, row ∈ r → in_box pb (scale_to_box (lb pb) (ub pb) row))
    as Hinit.
  { intros w r w' Hrun row Hrow. apply scale_to_box_in_box; [done|].
    intros x Hx. by apply (np_rand2_unit G _ _ w r w' Hunit Hrun row). }
  assert (∀ A P (m : M G A),
            hoare (inv (dict_copy P)) m (λ _, inv (dict_copy P)) →
            hoare (inv P) m (λ _ h, inv P h ∧ inv (dict_copy P) h)) as Hboth.
  { intros A P m Hm. eapply hoare_conseq; [| |exact Hm].
    - intros h. apply stored_dict_copy.
    - intros a h Hh. split; [by apply stored_dict_copy|done]. }
  split_and!.
  - eapply hoare_weaken; [|by apply hoare_init_population].
    by intros P h [? _].
  - intros P t front i. apply Hboth. by apply hoare_exploration_step.
  - intros P i. apply Hboth. by apply hoare_defense_step.
  - intros P t i. apply Hboth. by apply hoare_escape_step.
  - intros P. eapply hoare_conseq; [| |by apply hoare_next_population].
    + intros h HP. split; [done|]. unfold inv in HP.
      by apply stored_dict_copy in HP.
    + by intros P' h [? _].
  - intros gens. eapply hoare_weaken; [|by apply hoare_evolve].
    by intros P h [? _].
  - by apply hoare_moho.
  - done.
  - intros w. by apply moho_guarded.
Qed.

Lemma lcg_rand_unit : rand_unit lcg_source.
Proof.
  intros s. simpl.
  pose proof (Z.mod_pos_bound (lcg_next s) 1000 ltac:(lia)) as Hmod.
  unfold Qcle, Qclt. simpl. rewrite !Qred_correct.
  unfold Qle, Qlt. simpl. lia.
Qed.

Lemma unit_box_nonempty dim : box_nonempty (unit_box dim).
Proof. intros k _. reflexivity. Qed.

Lemma bounds_invariant_witness :
  argsort_ok merge_argsort ∧
  (∀ x, length (toy_objectives x (unit_box 2)) = 3%nat) ∧
  rand_unit lcg_source ∧ box_nonempty (unit_box 2) ∧
  ∀ X, in_box (unit_box 2) (np_clip X (lb (unit_box 2)) (ub (unit_box 2))).
Proof.
  split_and!; [apply merge_argsort_ok|done|apply lcg_rand_unit
              |apply unit_box_nonempty|].
  apply (bounds_invariant lcg_source toy_math merge_argsort toy_objectives
           4 1 (unit_box 2) merge_argsort_ok (λ _, eq_refl) lcg_rand_unit
           (unit_box_nonempty 2)).
Defined.

(** ** The leaders of a generation *)

(** C10: the ranks of a non-empty array are at least 1 and leave no gap
    down to 1, so some row has rank 1; in a run with [pop_size > 0] the
    ranks carried by the parent dictionary at the start of any generation
    are such ranks, and the leaders are the rank-1 rows: the fall-back on
    the whole index range is not taken. *)
Theorem first_front_never_empty G L argsort evaluate_objectives
    (pop_size max_gen : Z) (pb : problem) (scores : matrix) :
  well_shaped scores → scores ≠ [] →
  argsort_ok argsort →
  (∀ x, length (evaluate_objectives x pb) = 3%nat) →
  0 < pop_size →
  (∃ ranks crowd,
     non_dominated_sort argsort scores = Some (ranks, crowd) ∧
     (∀ j, (j < length scores)%nat → 1 ≤ ranks !!! j) ∧
     (∀ j r, (j < length scores)%nat → 1 ≤ r ≤ ranks !!! j →
             ∃ i, (i < length scores)%nat ∧ ranks !!! i = r) ∧
     (∃ i, (i < length scores)%nat ∧ ranks !!! i = 1) ∧
     np_where (λ r, r =? 1) ranks ≠ [] ∧
     ∀ n, leader_candidates ranks n = np_where (λ r, r =? 1) ranks) ∧
  ∀ gens,
    hoare (λ _, True)
          (evolve G L argsort evaluate_objectives pop_size max_gen pb gens)
          (λ P _, np_where (λ r, r =? 1) (ranks P) ≠ [] ∧
                  leader_candidates (ranks P) pop_size
                  = np_where (λ r, r =? 1) (ranks P)).
Proof.
  intros Hshape Hne Hok Hlen Hpop.
  assert (∀ s : matrix, well_shaped s → s ≠ [] →
            ∃ ranks crowd,
              non_dominated_sort argsort s = Some (ranks, crowd) ∧
              (∀ j, (j < length s)%nat → 1 ≤ ranks !!! j) ∧
              (∀ j r, (j < length s)%nat → 1 ≤ r ≤ ranks !!! j →
                      ∃ i, (i < length s)%nat ∧ ranks !!! i = r) ∧
              (∃ i, (i < length s)%nat ∧ ranks !!! i = 1) ∧
              np_where (λ r, r =? 1) ranks ≠ [] ∧
              ∀ n, leader_candidates ranks n = np_where (λ r, r =? 1) ranks)
    as Hsort.
  { intros s Hs Hs0.
    destruct (non_dominated_sort_unfold argsort s)
      as (st & _ & Hinv & Hexit & Hnds).
    exists (ps_ranks st), (crowding argsort s (ps_fronts st)).
    assert (∀ j, (j < length s)%nat → 1 ≤ ps_ranks st !!! j) as Hpos.
    { intros j Hj. by apply (final_ranks_spec s st). }
    assert (∃ i, (i < length s)%nat ∧ ps_ranks st !!! i = 1) as Hone.
    { assert (0 < length s)%nat as Hlen0.
      { destruct s; [done|simpl; lia]. }
      apply (final_ranks_contiguous s st Hs Hinv Hexit 0%nat 1 Hlen0).
      specialize (Hpos 0%nat Hlen0). lia. }
    assert (np_where (λ r, r =? 1) (ps_ranks st) ≠ []) as Hfront.
    { destruct Hone as (i & Hi & Hri). intros Hnil.
      assert (i ∈ np_where (λ r, r =? 1) (ps_ranks st)) as Hin.
      { apply elem_of_front. by rewrite (pi_len_ranks _ _ Hinv). }
      rewrite Hnil in Hin. by apply elem_of_nil in Hin. }
    split_and!; [done|done| |done|done|].
    - intros j r. by apply final_ranks_contiguous.
    - intros n. unfold leader_candidates.
      by destruct (np_where _ (ps_ranks st)). }
  split; [by apply Hsort|].
  intros gens.
  eapply hoare_weaken;
    [|apply (hoare_evolve L argsort evaluate_objectives pop_size max_gen
               pb (λ _, True) Hok Hlen)]; [|done|done].
  intros P h [_ (s & Hs & Hws & Hnds)]. simpl.
  destruct (Hsort s Hws) as (ranks' & crowd' & Hnds' & _ & _ & _ & Hfront & Hlead).
  { intros ->. simpl in Hs. lia. }
  rewrite Hnds in Hnds'. injection Hnds' as <- _. by split.
Qed.

Lemma first_front_never_empty_witness :
  well_shaped [[qz 1; qz 5]; [qz 5; qz 1]] ∧
  [[qz 1; qz 5]; [qz 5; qz 1]] ≠ [] ∧
  argsort_ok merge_argsort ∧ 0 < 4 ∧
  ∃ ranks crowd,
    non_dominated_sort merge_argsort [[qz 1; qz 5]; [qz 5; qz 1]]
    = Some (ranks, crowd) ∧
    np_where (λ r, r =? 1) ranks ≠ [].
Proof.
  assert (well_shaped [[qz 1; qz 5]; [qz 5; qz 1]]) as Hshape.
  { intros r [->|Hr]%elem_of_cons; [done|].
    by apply list_elem_of_singleton in Hr as ->. }
  split_and!; [done|done|apply merge_argsort_ok|lia|].
  destruct (first_front_never_empty lcg_source toy_math merge_argsort
              toy_objectives 4 1 (unit_box 2) [[qz 1; qz 5]; [qz 5; qz 1]]
              Hshape ltac:(done) merge_argsort_ok (λ _, eq_refl)
              ltac:(lia))
    as [(ranks & crowd & Hnds & _ & _ & _ & Hfront & _) _].
  by exists ranks, crowd.
Defined.

Lemma non_dominated_sort_fronts_witness :
  well_shaped [[qz 1; qz 5]; [qz 5; qz 1]] ∧
  ∃ ranks crowd,
    non_dominated_sort merge_argsort [[qz 1; qz 5]; [qz 5; qz 1]]
    = Some (ranks, crowd) ∧
    length ranks = 2%nat.
Proof.
  assert (well_shaped [[qz 1; qz 5]; [qz 5; qz 1]]) as Hshape.
  { intros r [->|Hr]%elem_of_cons; [done|].
    by apply list_elem_of_singleton in Hr as ->. }
  split; [done|].
  destruct (non_dominated_sort_fronts merge_argsort
              [[qz 1; qz 5]; [qz 5; qz 1]] Hshape)
    as (ranks & crowd & Hnds & Hlen & _).
  by exists ranks, crowd.
Defined.

(** ** Two runs on generators that draw alike *)

Section SameRun.
Context {G1 G2 : RandomSource}.
Variable R : rng_state G1 → rng_state G2 → Prop.
Hypothesis HR : bisimilar G1 G2 R.

Lemma same_run_ret {A} (a : A) : same_run R (mret a) (mret a).
Proof. by intros w1 w2 Hw. Qed.

Lemma same_run_raise {A} e : same_run R (raise G1 e : M G1 A) (raise G2 e).
Proof. by intros w1 w2 Hw. Qed.

Lemma same_run_bind {A B} (m1 : M G1 A) (m2 : M G2 A)
    (f1 : A → M G1 B) (f2 : A → M G2 B) :
  same_run R m1 m2 → (∀ a, same_run R (f1 a) (f2 a)) →
  same_run R (m1 ≫= f1) (m2 ≫= f2).
Proof.
  intros Hm Hf w1 w2 Hw. unfold mbind, M_bind. specialize (Hm w1 w2 Hw).
  destruct (m1 w1) as [a1 w1'| |], (m2 w2) as [a2 w2'| |]; try done.
  destruct Hm as [-> Hw']. by apply Hf.
Qed.

Lemma same_run_draw {A} (f1 : rng_state G1 → A * rng_state G1)
    (f2 : rng_state G2 → A * rng_state G2) :
  (∀ s1 s2, R s1 s2 → (f1 s1).1 = (f2 s2).1 ∧ R (f1 s1).2 (f2 s2).2) →
  same_run R (draw G1 f1) (draw G2 f2).
Proof.
  intros Hf w1 w2 [Hheap Hgen]. unfold draw.
  specialize (Hf _ _ Hgen).
  destruct (f1 (gen w1)) as [a1 g1], (f2 (gen w2)) as [a2 g2].
  simpl in *. destruct Hf as [-> Hg]. by split.
Qed.

Lemma same_run_load l : same_run R (load G1 l) (load G2 l).
Proof. intros w1 w2 [Hheap Hgen]. simpl. by rewrite Hheap. Qed.

Lemma same_run_alloc m : same_run R (alloc G1 m) (alloc G2 m).
Proof.
  intros w1 w2 [Hheap Hgen]. unfold alloc. simpl. rewrite Hheap.
  by split.
Qed.

Lemma same_run_store_row l i row :
  same_run R (store_row G1 l i row) (store_row G2 l i row).
Proof.
  intros w1 w2 [Hheap Hgen]. unfold store_row. simpl. rewrite Hheap.
  by split.
Qed.

Lemma same_run_budgeted {A} (o : option A) :
  same_run R (budgeted G1 o) (budgeted G2 o).
Proof. destruct o; [apply same_run_ret|by intros w1 w2 Hw]. Qed.

Lemma same_run_for_ {A} (l : list A) (b1 : A → M G1 unit)
    (b2 : A → M G2 unit) :
  (∀ x, same_run R (b1 x) (b2 x)) →
  same_run R (for_ G1 l b1) (for_ G2 l b2).
Proof.
  intros Hb. induction l as [|x l IH]; simpl; [apply same_run_ret|].
  apply same_run_bind; [apply Hb|]. intros u. apply IH.
Qed.

Lemma same_run_for_fold {A B} (l : list A) (b1 : B → A → M G1 B)
    (b2 : B → A → M G2 B) b :
  (∀ b x, same_run R (b1 b x) (b2 b x)) →
  same_run R (for_fold G1 l b1 b) (for_fold G2 l b2 b).
Proof.
  intros Hb. revert b. induction l as [|x l IH]; intros b; simpl.
  - apply same_run_ret.
  - apply same_run_bind; [apply Hb|]. intros b'. apply IH.
Qed.

Lemma same_run_draws {A} k (f1 : rng_state G1 → A * rng_state G1)
    (f2 : rng_state G2 → A * rng_state G2) :
  (∀ s1 s2, R s1 s2 → (f1 s1).1 = (f2 s2).1 ∧ R (f1 s1).2 (f2 s2).2) →
  same_run R (draws G1 k f1) (draws G2 k f2).
Proof.
  intros Hf. induction k as [|k IH]; simpl; [apply same_run_ret|].
  apply same_run_bind; [by apply same_run_draw|]. intros x.
  apply same_run_bind; [done|]. intros xs. apply same_run_ret.
Qed.

Lemma same_run_rand : same_run R (draw G1 (rand G1)) (draw G2 (rand G2)).
Proof. apply same_run_draw, (bs_rand _ _ _ HR). Qed.

Lemma same_run_np_rand d : same_run R (np_rand G1 d) (np_rand G2 d).
Proof.
  unfold np_rand. destruct (d <? 0); [apply same_run_raise|].
  apply same_run_draws, (bs_rand _ _ _ HR).
Qed.

Lemma same_run_np_rand2 rows cols :
  same_run R (np_rand2 G1 rows cols) (np_rand2 G2 rows cols).
Proof.
  unfold np_rand2. destruct (_ || _); [apply same_run_raise|].
  apply same_run_for_fold. intros acc _.
  apply same_run_bind; [apply same_run_draws, (bs_rand _ _ _ HR)|].
  intros r. apply same_run_ret.
Qed.

Lemma same_run_np_normal2 mu sigma rows cols :
  same_run R (np_normal2 G1 mu sigma rows cols)
           (np_normal2 G2 mu sigma rows cols).
Proof.
  unfold np_normal2. destruct (_ || _); [apply same_run_raise|].
  apply same_run_for_fold. intros acc _.
  apply same_run_bind; [apply same_run_draws, (bs_normal _ _ _ HR)|].
  intros r. apply same_run_ret.
Qed.

Lemma same_run_np_randint low high :
  same_run R (np_randint G1 low high) (np_randint G2 low high).
Proof.
  unfold np_randint. destruct (high <=? low); [apply same_run_raise|].
  apply same_run_draw, (bs_randint _ _ _ HR).
Qed.

Lemma same_run_np_choice a : same_run R (np_choice G1 a) (np_choice G2 a).
Proof.
  unfold np_choice. destruct a; [apply same_run_raise|].
  apply same_run_bind; [apply same_run_draw, (bs_randint _ _ _ HR)|].
  intros k. apply same_run_ret.
Qed.

Lemma same_run_py_div x y : same_run R (py_div G1 x y) (py_div G2 x y).
Proof.
  unfold py_div. case_decide; [apply same_run_raise|apply same_run_ret].
Qed.

Lemma same_run_levy L n m beta :
  same_run R (levy G1 L n m beta) (levy G2 L n m beta).
Proof.
  unfold levy. apply same_run_bind.
  - destruct (m_gamma L (1 + beta)%Qc); [|apply same_run_ret].
    destruct (m_gamma L _); [|apply same_run_ret].
    apply same_run_bind; [apply same_run_py_div|]. intros ratio.
    apply same_run_bind; [apply same_run_py_div|]. intros e.
    apply same_run_ret.
  - intros sigma_u. apply same_run_bind; [apply same_run_np_normal2|].
    intros u. apply same_run_bind; [apply same_run_np_normal2|].
    intros v. apply same_run_bind; [apply same_run_py_div|].
    intros e. apply same_run_ret.
Qed.

Variable L : MathLib.
Variable argsort : list efloat → list nat.
Variable evaluate_objectives : vec → problem → vec.
Variables (pop_size max_gen : Z) (pb : problem).

Lemma same_run_try_accept Q i X :
  same_run R (try_accept G1 evaluate_objectives pb Q i X)
           (try_accept G2 evaluate_objectives pb Q i X).
Proof.
  unfold try_accept. apply same_run_bind; [apply same_run_load|].
  intros q_scores. destruct (0 <=? _); [|apply same_run_ret].
  apply same_run_bind; [apply same_run_store_row|]. intros u.
  apply same_run_store_row.
Qed.

Lemma same_run_init_population :
  same_run R (init_population G1 argsort evaluate_objectives pop_size pb)
           (init_population G2 argsort evaluate_objectives pop_size pb).
Proof.
  unfold init_population.
  apply same_run_bind; [apply same_run_np_rand2|]. intros r.
  apply same_run_bind; [apply same_run_alloc|]. intros pos_l.
  apply same_run_bind; [apply same_run_alloc|]. intros scores_l.
  apply same_run_bind.
  { apply same_run_for_. intros i.
    apply same_run_bind; [apply same_run_load|]. intros p.
    apply same_run_store_row. }
  intros u. apply same_run_bind; [apply same_run_load|]. intros s.
  apply same_run_bind; [apply same_run_budgeted|].
  intros [ranks crowd]. apply same_run_ret.
Qed.

Lemma same_run_exploration_step t P Q front i :
  same_run R
    (exploration_step G1 L evaluate_objectives pop_size max_gen pb
                      t P Q front i)
    (exploration_step G2 L evaluate_objectives pop_size max_gen pb
                      t P Q front i).
Proof.
  unfold exploration_step.
  apply same_run_bind; [apply same_run_np_choice|]. intros leader_idx.
  apply same_run_bind; [apply same_run_load|]. intros p.
  apply same_run_bind; [apply same_run_np_randint|]. intros I1.
  apply same_run_bind; [apply same_run_np_randint|]. intros I2.
  apply same_run_bind;
    [apply same_run_draw, (bs_permutation _ _ _ HR)|]. intros perm.
  apply same_run_bind; [apply same_run_np_randint|]. intros k.
  apply same_run_bind; [apply same_run_np_rand|]. intros a.
  apply same_run_bind; [apply same_run_np_rand|]. intros b.
  apply same_run_bind; [apply same_run_rand|]. intros r1.
  apply same_run_bind.
  - case_bool_decide; [apply same_run_ret|].
    apply same_run_bind; [apply same_run_rand|]. intros r2.
    case_bool_decide; [apply same_run_ret|].
    apply same_run_bind; [apply same_run_np_rand|]. intros r3.
    apply same_run_ret.
  - intros X_P2. apply same_run_for_. intros X.
    apply same_run_try_accept.
Qed.

Lemma same_run_defense_step P Q i :
  same_run R (defense_step G1 L evaluate_objectives pb P Q i)
           (defense_step G2 L evaluate_objectives pb P Q i).
Proof.
  unfold defense_step.
  apply same_run_bind; [apply same_run_np_rand|]. intros r.
  apply same_run_bind; [apply same_run_load|]. intros p.
  apply same_run_bind; [apply same_run_levy|]. intros lv.
  do 4 (apply same_run_bind; [apply same_run_rand|]; intros ?).
  apply same_run_bind; [apply same_run_py_div|]. intros coef.
  apply same_run_try_accept.
Qed.

Lemma same_run_escape_step t Q i :
  same_run R (escape_step G1 evaluate_objectives pb t Q i)
           (escape_step G2 evaluate_objectives pb t Q i).
Proof.
  unfold escape_step.
  apply same_run_bind; [apply same_run_np_rand|]. intros d.
  apply same_run_bind; [apply same_run_load|]. intros q.
  apply same_run_bind; [apply same_run_rand|]. intros r.
  apply same_run_try_accept.
Qed.

Lemma same_run_next_population P Q :
  same_run R (next_population G1 argsort pop_size pb P Q)
           (next_population G2 argsort pop_size pb P Q).
Proof.
  unfold next_population.
  do 4 (apply same_run_bind; [apply same_run_load|]; intros ?).
  apply same_run_bind; [apply same_run_budgeted|].
  intros [P_next_pos P_next_scores].
  apply same_run_bind; [apply same_run_alloc|]. intros pos_l.
  apply same_run_bind; [apply same_run_alloc|]. intros scores_l.
  apply same_run_bind; [apply same_run_budgeted|].
  intros [ranks crowd]. apply same_run_ret.
Qed.

Lemma same_run_generation P t :
  same_run R
    (generation G1 L argsort evaluate_objectives pop_size max_gen pb P t)
    (generation G2 L argsort evaluate_objectives pop_size max_gen pb P t).
Proof.
  unfold generation.
  apply same_run_bind.
  { apply same_run_for_. intros i. apply same_run_exploration_step. }
  intros u1. apply same_run_bind.
  { apply same_run_for_. intros i. apply same_run_defense_step. }
  intros u2. apply same_run_bind.
  { apply same_run_for_. intros i. apply same_run_escape_step. }
  intros u3. apply same_run_next_population.
Qed.

Lemma same_run_evolve gens :
  same_run R
    (evolve G1 L argsort evaluate_objectives pop_size max_gen pb gens)
    (evolve G2 L argsort evaluate_objectives pop_size max_gen pb gens).
Proof.
  unfold evolve. apply same_run_bind; [apply same_run_init_population|].
  intros P. apply same_run_for_fold. intros P' t.
  apply same_run_generation.
Qed.

Lemma same_run_first_front P :
  same_run R (first_front G1 P) (first_front G2 P).
Proof.
  unfold first_front.
  do 2 (apply same_run_bind; [apply same_run_load|]; intros ?).
  apply same_run_ret.
Qed.

Lemma same_run_moho :
  same_run R (moho G1 L argsort evaluate_objectives pop_size max_gen pb)
           (moho G2 L argsort evaluate_objectives pop_size max_gen pb).
Proof.
  unfold moho. apply same_run_bind; [apply same_run_evolve|].
  intros P. apply same_run_first_front.
Qed.
End SameRun.

(** C8: two runs with the same configuration and the same evaluator, on
    generators that draw alike (as two generators seeded alike do), from
    the same store: after any number of generations both have raised the
    same exception or both hold the same parent dictionary (the same
    ranks and crowding distances) over the same store (the same positions
    and scores), and they end alike, with the same returned front. *)
Theorem run_depends_on_draws_only (G1 G2 : RandomSource)
    (R : rng_state G1 → rng_state G2 → Prop) L argsort evaluate_objectives
    (pop_size max_gen : Z) (pb : problem) :
  bisimilar G1 G2 R →
  (∀ gens,
     same_run R
       (evolve G1 L argsort evaluate_objectives pop_size max_gen pb gens)
       (evolve G2 L argsort evaluate_objectives pop_size max_gen pb gens)) ∧
  same_run R (moho G1 L argsort evaluate_objectives pop_size max_gen pb)
           (moho G2 L argsort evaluate_objectives pop_size max_gen pb) ∧
  ∀ w1 w2, same_world R w1 w2 →
    match moho G1 L argsort evaluate_objectives pop_size max_gen pb w1,
          moho G2 L argsort evaluate_objectives pop_size max_gen pb w2 with
    | Ok front1 _, Ok front2 _ => front1 = front2
    | Raise e1, Raise e2 => e1 = e2
    | OutOfFuel, OutOfFuel => True
    | _, _ => False
    end.
Proof.
  intros HR. split_and!.
  - intros gens. by apply same_run_evolve.
  - by apply same_run_moho.
  - intros w1 w2 Hw.
    pose proof (same_run_moho R HR L argsort evaluate_objectives pop_size
                  max_gen pb w1 w2 Hw) as Hsame.
    destruct (moho G1 _ _ _ _ _ _ w1) as [f1 w1'| |],
             (moho G2 _ _ _ _ _ _ w2) as [f2 w2'| |]; try done.
    by destruct Hsame.
Qed.

Lemma lcg_bisimilar : bisimilar lcg_source lcg_source eq.
Proof. split; intros; subst; by split. Qed.

Lemma run_depends_on_draws_only_witness :
  bisimilar lcg_source lcg_source eq ∧
  same_run eq
    (moho lcg_source toy_math merge_argsort toy_objectives 4 1 (unit_box 2))
    (moho lcg_source toy_math merge_argsort toy_objectives 4 1 (unit_box 2)).
Proof.
  split; [exact lcg_bisimilar|].
  destruct (run_depends_on_draws_only lcg_source lcg_source eq toy_math
              merge_argsort toy_objectives 4 1 (unit_box 2) lcg_bisimilar)
    as (_ & H & _).
  exact H.
Defined.
(** * Further properties of the optimiser *)

(** ** The dominance test (lines 36-49) *)


(** On vectors of one length the answer [1] is transitive; and an answer
    [1] followed or preceded by an answer that is not [-1] never turns
    into [-1]: what dominates a vector is not dominated by anything that
    vector is not dominated by. *)
Theorem determine_dominance_trans (a b c : vec) :
  length a = length b → length b = length c →
  (determine_dominance a b = 1 → determine_dominance b c = 1 →
   determine_dominance a c = 1) ∧
  (determine_dominance a b = 1 → 0 ≤ determine_dominance b c →
   0 ≤ determine_dominance a c).
Proof.
  intros Hab Hbc. split.
  - rewrite !dd_one_iff. by apply dominates_trans.
  - intros H1 H2.
    destruct (dd_range a c) as [H|[H|H]]; rewrite H; [lia| |lia].
    exfalso. apply dd_one_iff in H1. apply dd_minus_one_iff in H.
    assert (dominates c b) as Hcb by (apply (dominates_trans c a b); congruence).
    apply dd_minus_one_iff in Hcb. lia.
Qed.

Lemma determine_dominance_trans_witness :
  determine_dominance [qz 0; qz 0] [qz 2; qz 2] = 1.
Proof.
  destruct (determine_dominance_trans [qz 0; qz 0] [qz 1; qz 1]
              [qz 2; qz 2] eq_refl eq_refl) as [H _].
  apply H; reflexivity.
Defined.

(** ** The Levy flight (lines 19-33) *)

Section Levy.
Context {G : RandomSource}.

Lemma rows_fold_shape {A} (f : rng_state G → A * rng_state G) cols
    (l : list nat) : ∀ acc (w : world G),
  ∃ rows g,
    for_fold G l (λ acc _, r ← draws G cols f; mret (acc ++ [r])) acc w
    = Ok (acc ++ rows) (World (heap w) g) ∧
    length rows = length l ∧
    ∀ r, r ∈ rows → length r = cols.
Proof.
  induction l as [|i l IH]; intros acc w; simpl.
  - exists [], (gen w). destruct w. rewrite app_nil_r.
    split_and!; [done|done|]. intros r Hr. by apply elem_of_nil in Hr.
  - destruct (draws_run cols f w) as (r & g1 & Hr & Hlr & _).
    assert ((r ← draws G cols f; mret (acc ++ [r]) : M G _) w
            = Ok (acc ++ [r]) (World (heap w) g1)) as Hbody.
    { by rewrite (bind_ok _ _ _ _ _ Hr). }
    rewrite (bind_ok _ _ _ _ _ Hbody).
    destruct (IH (acc ++ [r]) (World (heap w) g1))
      as (rows & g & -> & Hlen & Hrows).
    exists (r :: rows), g. simpl.
    split_and!; [by rewrite <-app_assoc|by rewrite Hlen|].
    intros r' [->|Hr']%elem_of_cons; [done|by apply Hrows].
Qed.

(** [np.random.normal(loc, scale, (rows, cols))] raises on a negative
    size and otherwise returns [rows] rows of [cols] draws. *)
Lemma np_normal2_run mu sigma rows cols (w : world G) :
  (rows < 0 ∨ cols < 0) ∧
  np_normal2 G mu sigma rows cols w = Raise ValueError ∨
  0 ≤ rows ∧ 0 ≤ cols ∧
  ∃ r g, np_normal2 G mu sigma rows cols w = Ok r (World (heap w) g) ∧
         length r = Z.to_nat rows ∧
         ∀ row, row ∈ r → length row = Z.to_nat cols.
Proof.
  unfold np_normal2.
  destruct (Z.ltb_spec rows 0); [left; split; [lia|done]|].
  destruct (Z.ltb_spec cols 0); [left; split; [lia|done]|].
  right. split_and!; [done|done|]. simpl.
  destruct (rows_fold_shape (normal G mu sigma) (Z.to_nat cols)
              (seq 0 (Z.to_nat rows)) [] w) as (r & g & Hrun & Hlen & Hx).
  exists r, g. split_and!; [done| |done]. by rewrite Hlen, length_seq.
Qed.

Lemma zip_rows_shape (f : Qc → Qc → Qc) (u v : matrix) n m :
  length u = n → length v = n →
  (∀ r, r ∈ u → length r = m) → (∀ r, r ∈ v → length r = m) →
  length (zip_with (zip_with f) u v) = n ∧
  ∀ r, r ∈ zip_with (zip_with f) u v → length r = m.
Proof.
  intros Hu Hv Hur Hvr. split.
  - rewrite length_zip_with. lia.
  - intros r (a & b & -> & Ha & Hb)%elem_of_zip_with.
    rewrite length_zip_with, (Hur a Ha), (Hvr b Hb). lia.
Qed.
End Levy.

(** [levy(n, m, beta)], when it returns, returns an array of [n] rows of
    [m] entries and has not touched the arrays of the populations; it
    returns only for sizes that are not negative and a [beta] that is not
    zero. *)
Theorem levy_shape G L (n m : Z) (beta : Qc) (w : world G) :
  match levy G L n m beta w with
  | Ok z w' =>
      heap w' = heap w ∧ 0 ≤ n ∧ 0 ≤ m ∧ beta ≠ 0%Qc ∧
      length z = Z.to_nat n ∧ ∀ row, row ∈ z → length row = Z.to_nat m
  | Raise _ => True
  | OutOfFuel => False
  end.
Proof.
  pose proof (frames_levy L n m beta w) as Hframes.
  unfold levy in *.
  set (scale := match m_gamma L (1 + beta)%Qc with
                | Some _ => _ | None => _ end) in *.
  unfold mbind, M_bind in *.
  destruct (scale w) as [sigma_u w1| |]; [|done|done].
  destruct (np_normal2_run 0%Qc sigma_u n m w1)
    as [[_ Hu]|(Hn & Hm & u & g1 & Hu & Hlu & Hru)];
    rewrite Hu in *; [done|].
  destruct (np_normal2_run 0%Qc 1%Qc n m (World (heap w1) g1))
    as [[_ Hv]|(_ & _ & v & g2 & Hv & Hlv & Hrv)];
    rewrite Hv in *; [done|].
  unfold py_div in *. case_decide as Hbeta; [done|]. simpl in *.
  destruct (zip_rows_shape
              (λ a b, (a / m_pow L (Qcabs b) (1 / beta))%Qc) u v
              (Z.to_nat n) (Z.to_nat m) Hlu Hlv Hru Hrv) as [Hlz Hrz].
  by split_and!.
Qed.

(** [levy] with [beta = 0] and sizes that are not negative raises
    [ZeroDivisionError], whether [math.gamma] answers or raises: the
    handler of the function catches [ValueError] only. *)
Theorem levy_zero_beta G L (n m : Z) (w : world G) :
  0 ≤ n → 0 ≤ m →
  levy G L n m 0%Qc w = Raise ZeroDivisionError.
Proof.
  intros Hn Hm. unfold levy.
  assert (∀ sigma_u (w1 : world G),
            (u ← np_normal2 G 0%Qc sigma_u n m;
             v ← np_normal2 G 0%Qc 1%Qc n m;
             e ← py_div G 1%Qc 0%Qc;
             mret (zip_with (zip_with
                     (λ a b, (a / m_pow L (Qcabs b) e)%Qc)) u v)) w1
            = Raise ZeroDivisionError) as Htail.
  { intros sigma_u w1.
    destruct (np_normal2_run 0%Qc sigma_u n m w1)
      as [[Hneg _]|(_ & _ & u & g1 & Hu & _)]; [lia|].
    rewrite (bind_ok _ _ _ _ _ Hu).
    destruct (np_normal2_run 0%Qc 1%Qc n m (World (heap w1) g1))
      as [[Hneg _]|(_ & _ & v & g2 & Hv & _)]; [lia|].
    rewrite (bind_ok _ _ _ _ _ Hv). done. }
  destruct (m_gamma L (1 + 0)%Qc) as [g1|].
  - destruct (m_gamma L ((1 + 0) / Qc_of_Z 2)%Qc) as [g2|].
    + apply bind_raise. apply bind_raise.
      unfold py_div. rewrite decide_True; [done|]. ring.
    + unfold mbind at 1, M_bind at 1. simpl. apply Htail.
  - unfold mbind at 1, M_bind at 1. simpl. apply Htail.
Qed.

Lemma levy_zero_beta_witness :
  levy lcg_source toy_math 1 2 0%Qc (empty_world 7) = Raise ZeroDivisionError.
Proof. apply (levy_zero_beta lcg_source toy_math 1 2 (empty_world 7)); lia. Defined.

(** ** Scores follow positions *)

Section Evaluated.
Context {G : RandomSource}.
Variable L : MathLib.
Variable argsort : list efloat → list nat.
Variable evaluate_objectives : vec → problem → vec.
Variables (pop_size max_gen : Z) (pb : problem).
Hypothesis Hok : argsort_ok argsort.
Hypothesis Hlen : ∀ x, length (evaluate_objectives x pb) = 3%nat.

Local Abbreviation N := (Z.to_nat pop_size).
Local Abbreviation inv := (evaluated evaluate_objectives pb N).

Lemma evaluated_dict_copy P h : inv P h ↔ inv (dict_copy P) h.
Proof. split; intros [? ? ? ?]; by split. Qed.

Lemma evaluated_shape P h s : inv P h → s ∈ h !!! scores P → length s = 3%nat.
Proof.
  intros HP (i & Hi)%list_elem_of_lookup.
  pose proof (lookup_lt_Some _ _ _ Hi) as Hlt.
  rewrite (ev_len_scores _ _ _ _ _ HP) in Hlt.
  apply list_lookup_total_correct in Hi. rewrite <-Hi.
  rewrite (ev_rows _ _ _ _ _ HP) by done. apply Hlen.
Qed.

(** The gated replacement writes a position and its own score. *)
Lemma evaluated_try_accept Q i X :
  hoare (inv Q) (try_accept G evaluate_objectives pb Q i X) (λ _, inv Q).
Proof.
  intros w [Hd Hlp Hls Hrows].
  set (cur := (heap w !!! scores Q) !!! i).
  set (c := np_clip X (lb pb) (ub pb)).
  destruct (decide (0 ≤ determine_dominance
                          (evaluate_objectives c pb) cur)) as [Hacc|Hrej].
  - apply accept_test_iff in Hacc. rewrite try_accept_accepted by done.
    simpl. split.
    + done.
    + rewrite lookup_total_alter_ne, store_lookup_total by done.
      by rewrite length_insert.
    + rewrite store_lookup_total, lookup_total_alter_ne by done.
      by rewrite length_insert.
    + intros j Hj.
      rewrite store_lookup_total, lookup_total_alter_ne by done.
      rewrite lookup_total_alter_ne, store_lookup_total by done.
      destruct (decide (i = j)) as [->|Hne].
      * by rewrite !list_lookup_total_insert_eq by lia.
      * rewrite !list_lookup_total_insert_ne by done. by apply Hrows.
  - apply reject_test_iff in Hrej. rewrite try_accept_rejected by done.
    by split.
Qed.

Lemma evaluated_exploration_step t P Q front i :
  hoare (inv Q)
        (exploration_step G L evaluate_objectives pop_size max_gen pb
                          t P Q front i)
        (λ _, inv Q).
Proof.
  eapply hoare_ends_with; [apply exploration_step_ends|].
  intros Xs. apply hoare_for_. intros X. apply evaluated_try_accept.
Qed.

Lemma evaluated_defense_step P Q i :
  hoare (inv Q) (defense_step G L evaluate_objectives pb P Q i) (λ _, inv Q).
Proof.
  eapply hoare_ends_with; [apply defense_step_ends|].
  intros X. apply evaluated_try_accept.
Qed.

Lemma evaluated_escape_step t Q i :
  hoare (inv Q) (escape_step G evaluate_objectives pb t Q i) (λ _, inv Q).
Proof.
  eapply hoare_ends_with; [apply escape_step_ends|].
  intros X. apply evaluated_try_accept.
Qed.

(** Lines 248-281: selection takes positions and scores at the same pool
    indices, and the new dictionary carries the ranks of its own scores. *)
Lemma evaluated_next_population P Q :
  hoare (λ h, inv P h ∧ inv Q h)
        (next_population G argsort pop_size pb P Q)
        (λ P' h', inv P' h' ∧ ranks_current argsort P' h').
Proof.
  intros w [HP HQ]. unfold next_population.
  rewrite (bind_ok _ _ _ _ _ (load_run (pos P) w)).
  rewrite (bind_ok _ _ _ _ _ (load_run (pos Q) w)).
  rewrite (bind_ok _ _ _ _ _ (load_run (scores P) w)).
  rewrite (bind_ok _ _ _ _ _ (load_run (scores Q) w)).
  set (p_pos := heap w !!! pos P). set (q_pos := heap w !!! pos Q).
  set (p_scores := heap w !!! scores P).
  set (q_scores := heap w !!! scores Q).
  assert (length p_pos = N) as HlPp by apply (ev_len_pos _ _ _ _ _ HP).
  assert (length q_pos = N) as HlQp by apply (ev_len_pos _ _ _ _ _ HQ).
  assert (length p_scores = N) as HlPs by apply (ev_len_scores _ _ _ _ _ HP).
  assert (length q_scores = N) as HlQs by apply (ev_len_scores _ _ _ _ _ HQ).
  assert (∀ r, r ∈ p_scores ++ q_scores → length r = 3%nat) as Hthree.
  { intros r [Hr|Hr]%elem_of_app.
    - by apply (evaluated_shape P (heap w)).
    - by apply (evaluated_shape Q (heap w)). }
  destruct (environmental_selection_rows argsort N
              (Z.to_nat (dimension pb)) p_pos p_scores q_pos q_scores Hok)
    as (chosen & next_pos & next_scores & Hsel & Hlc & _ & Hnp & Hns & Hch).
  { done. }
  { done. }
  { done. }
  { done. }
  { by apply rows_of_three_well_shaped. }
  rewrite (bind_ok _ _ _ _ _ (budgeted_run _ _ w Hsel)).
  rewrite (bind_ok _ _ _ _ _ (alloc_run next_pos w)).
  set (pos_l := fresh (dom (heap w))).
  set (w1 := World (<[pos_l := next_pos]> (heap w)) (gen w)).
  rewrite (bind_ok _ _ _ _ _ (alloc_run next_scores w1)).
  set (scores_l := fresh (dom (heap w1))).
  set (w2 := World (<[scores_l := next_scores]> (heap w1)) (gen w1)).
  destruct (non_dominated_sort_is_Some argsort next_scores)
    as [[ranks crowd] Hnds].
  rewrite (bind_ok _ _ _ _ _ (budgeted_run _ _ w2 Hnds)).
  simpl.
  assert (pos_l ≠ scores_l) as Hdistinct.
  { intros Heq. pose proof (is_fresh (dom (heap w1))) as Hfresh.
    fold scores_l in Hfresh. apply Hfresh. rewrite <-Heq. unfold w1. simpl.
    rewrite dom_insert_L. apply elem_of_union_l. by apply elem_of_singleton. }
  split; [split; simpl|].
  - done.
  - rewrite lookup_total_insert_ne, lookup_total_insert_eq by done.
    by rewrite Hnp, take_rows_length.
  - rewrite lookup_total_insert_eq. by rewrite Hns, take_rows_length.
  - intros k Hk.
    rewrite lookup_total_insert_eq.
    rewrite lookup_total_insert_ne, lookup_total_insert_eq by done.
    rewrite Hnp, Hns, !take_rows_lookup by lia.
    assert (chosen !!! k < 2 * N)%nat as Hj.
    { apply Hch. apply list_elem_of_lookup_total_2. lia. }
    destruct (decide (chosen !!! k < N)%nat) as [Hlt|Hge].
    + rewrite !lookup_total_app_l by lia.
      by apply (ev_rows _ _ _ _ _ HP).
    + rewrite !lookup_total_app_r by lia.
      rewrite HlPp, HlPs. apply (ev_rows _ _ _ _ _ HQ). lia.
  - unfold ranks_current. simpl. by rewrite lookup_total_insert_eq.
Qed.

(** The scoring loop of lines 163-164 fills the scores array with the
    evaluations of the rows of the positions array. *)
Lemma score_loop_rows pos_l scores_l (p : matrix) (l : list nat) :
  pos_l ≠ scores_l →
  ∀ (w : world G) (filled : nat → Prop),
    heap w !!! pos_l = p →
    (∀ i, filled i → (i < length (heap w !!! scores_l))%nat →
          (heap w !!! scores_l) !!! i = evaluate_objectives (p !!! i) pb) →
    ∃ w',
      for_ G l (λ i, p ← load G pos_l;
                     store_row G scores_l i
                               (evaluate_objectives (p !!! i) pb)) w
      = Ok tt w' ∧
      heap w' !!! pos_l = p ∧
      length (heap w' !!! scores_l) = length (heap w !!! scores_l) ∧
      ∀ i, filled i ∨ i ∈ l → (i < length (heap w !!! scores_l))%nat →
           (heap w' !!! scores_l) !!! i = evaluate_objectives (p !!! i) pb.
Proof.
  intros Hne. induction l as [|i l IH]; intros w filled Hp Hfilled; simpl.
  { exists w. split_and!; [done|done|done|].
    intros i [Hi|Hi]; [by apply Hfilled|by apply elem_of_nil in Hi]. }
  set (row := evaluate_objectives ((heap w !!! pos_l) !!! i) pb).
  set (w1 := World (alter (λ m, <[i := row]> m) scores_l (heap w)) (gen w)).
  assert ((p ← load G pos_l;
           store_row G scores_l i (evaluate_objectives (p !!! i) pb)) w
          = Ok tt w1) as Hbody by done.
  rewrite (bind_ok _ _ _ _ _ Hbody).
  assert (heap w1 !!! scores_l = <[i := row]> (heap w !!! scores_l)) as Hs1.
  { unfold w1. simpl. by rewrite store_lookup_total. }
  destruct (IH w1 (λ j, filled j ∨ j = i)) as (w' & -> & Hp' & Hlens & Hrows).
  { unfold w1. simpl. by rewrite lookup_total_alter_ne. }
  { intros j Hj. rewrite Hs1, length_insert. intros Hlt.
    destruct (decide (i = j)) as [->|Hij].
    - rewrite list_lookup_total_insert_eq by done. unfold row. by rewrite Hp.
    - rewrite list_lookup_total_insert_ne by done.
      destruct Hj as [Hj|Hj]; [by apply Hfilled|congruence]. }
  exists w'. rewrite Hs1, length_insert in Hlens. rewrite Hs1, length_insert in Hrows.
  split_and!; [done|done|done|].
  intros j Hj Hlt. apply Hrows; [|done].
  destruct Hj as [Hj|[->|Hj]%elem_of_cons]; auto.
Qed.

(** Lines 159-166: the initial population is scored row by row. *)
Lemma evaluated_init_population :
  hoare (λ _, True)
        (init_population G argsort evaluate_objectives pop_size pb)
        (λ P h, inv P h ∧ ranks_current argsort P h).
Proof.
  intros w _. unfold init_population.
  destruct (decide (pop_size < 0 ∨ dimension pb < 0)) as [Hneg|Hpos].
  { by rewrite (bind_raise _ _ _ _ (np_rand2_negative _ _ w Hneg)). }
  destruct (np_rand2_run pop_size (dimension pb) w)
    as (r & g & Hr & Hlr & _); [lia|lia|].
  rewrite (bind_ok _ _ _ _ _ Hr).
  set (w0 := World (heap w) g).
  rewrite (bind_ok _ _ _ _ _ (alloc_run _ w0)).
  set (pos_l := fresh (dom (heap w0))).
  set (pos0 := scale_to_box (lb pb) (ub pb) <$> r).
  set (w1 := World (<[pos_l := pos0]> (heap w0)) (gen w0)).
  rewrite (bind_ok _ _ _ _ _ (alloc_run _ w1)).
  set (scores_l := fresh (dom (heap w1))).
  set (w2 := World (<[scores_l := np_zeros N 3]> (heap w1)) (gen w1)).
  assert (pos_l ≠ scores_l) as Hdistinct.
  { intros Heq. pose proof (is_fresh (dom (heap w1))) as Hfresh.
    fold scores_l in Hfresh. apply Hfresh. rewrite <-Heq. unfold w1. simpl.
    rewrite dom_insert_L. apply elem_of_union_l. by apply elem_of_singleton. }
  assert (heap w2 !!! scores_l = np_zeros N 3) as Hzeros.
  { unfold w2. simpl. by rewrite lookup_total_insert_eq. }
  assert (length (heap w2 !!! scores_l) = N) as Hlz.
  { rewrite Hzeros. apply length_replicate. }
  destruct (score_loop_rows pos_l scores_l pos0 (seq 0 N) Hdistinct w2
              (λ _, False))
    as (w3 & Hloop & Hpos0 & Hlens & Hrows).
  { unfold w2, w1. simpl.
    by rewrite lookup_total_insert_ne, lookup_total_insert_eq. }
  { done. }
  rewrite (bind_ok _ _ _ _ _ Hloop).
  rewrite (bind_ok _ _ _ _ _ (load_run scores_l w3)).
  destruct (non_dominated_sort_is_Some argsort (heap w3 !!! scores_l))
    as [[ranks crowd] Hnds].
  rewrite (bind_ok _ _ _ _ _ (budgeted_run _ _ w3 Hnds)).
  simpl. split; [split; simpl|done].
  - done.
  - rewrite Hpos0. unfold pos0. rewrite length_fmap. by rewrite Hlr.
  - by rewrite Hlens.
  - intros i Hi. rewrite Hpos0. apply Hrows; [|lia].
    right. apply elem_of_seq. lia.
Qed.

(** One generation, lines 170-283. *)
Lemma evaluated_generation P t :
  hoare (inv P)
        (generation G L argsort evaluate_objectives pop_size max_gen pb P t)
        (λ P' h', inv P' h' ∧ ranks_current argsort P' h').
Proof.
  unfold generation.
  apply hoare_conseq with (inv (dict_copy P))
    (λ P' h', inv P' h' ∧ ranks_current argsort P' h');
    [by intros h ?%evaluated_dict_copy|done|].
  eapply hoare_bind.
  { apply hoare_for_. intros i. apply evaluated_exploration_step. }
  intros []. eapply hoare_bind.
  { apply hoare_for_. intros i. apply evaluated_defense_step. }
  intros []. eapply hoare_bind.
  { apply hoare_for_. intros i. apply evaluated_escape_step. }
  intros [].
  eapply hoare_conseq; [| |apply evaluated_next_population].
  - intros h HQ. split; [by apply evaluated_dict_copy|done].
  - done.
Qed.

Lemma evaluated_evolve gens :
  hoare (λ _, True)
        (evolve G L argsort evaluate_objectives pop_size max_gen pb gens)
        (λ P h, inv P h ∧ ranks_current argsort P h).
Proof.
  unfold evolve. eapply hoare_bind; [apply evaluated_init_population|].
  intros P.
  apply (hoare_for_fold (λ P h, inv P h ∧ ranks_current argsort P h)).
  intros P' t.
  eapply hoare_conseq; [| |apply evaluated_generation].
  - by intros h [? _].
  - done.
Qed.

(** The ranks of an array: as many as rows, rank 1 for the rows that no
    row dominates and for those only. *)
Lemma ranks_of_store (scores : matrix) ranks crowd :
  well_shaped scores →
  non_dominated_sort argsort scores = Some (ranks, crowd) →
  length ranks = length scores ∧
  (scores ≠ [] → ∃ i, (i < length scores)%nat ∧ ranks !!! i = 1) ∧
  ∀ j, (j < length scores)%nat →
       (ranks !!! j = 1 ↔
        ∀ i, (i < length scores)%nat →
             ¬ dominates (scores !!! i) (scores !!! j)).
Proof.
  intros Hshape Hnds.
  destruct (non_dominated_sort_unfold argsort scores)
    as (st & _ & Hinv & Hexit & Hnds').
  rewrite Hnds' in Hnds. injection Hnds as <- _.
  pose proof (final_ranks_spec scores st Hshape Hinv Hexit) as Hspec.
  split_and!.
  - by rewrite (pi_len_ranks _ _ Hinv).
  - intros Hne.
    assert (0 < length scores)%nat as Hpos.
    { destruct scores; [done|simpl; lia]. }
    destruct (Hspec 0%nat Hpos) as (Hge & _).
    apply (final_ranks_contiguous scores st Hshape Hinv Hexit 0%nat 1);
      [done|lia].
  - intros j Hj. destruct (Hspec j Hj) as (Hge & Hlt & Hprev). split.
    + intros Hone i Hi Hdom. specialize (Hlt i Hi Hdom).
      destruct (Hspec i Hi) as (Hgei & _). lia.
    + intros Hnone. destruct Hprev as [Hone|(i & Hi & Hdom & _)]; [done|].
      by destruct (Hnone i Hi).
Qed.

(** Lines 286-287 on a population whose scores follow its positions and
    whose ranks are current. *)
Lemma first_front_run P (w : world G) :
  inv P (heap w) → ranks_current argsort P (heap w) →
  let p := heap w !!! pos P in
  let s := heap w !!! scores P in
  let idx := np_where (λ r, r =? 1) (ranks P) in
  first_front G P w = Ok (take_rows p idx, take_rows s idx) w ∧
  (length idx ≤ N)%nat ∧ (0 < pop_size → idx ≠ []) ∧
  (∀ j, j ∈ idx ↔ (j < N)%nat ∧
                   ∀ i, (i < N)%nat → ¬ dominates (s !!! i) (s !!! j)) ∧
  (∀ k, (k < length idx)%nat →
        take_rows s idx !!! k
        = evaluate_objectives (take_rows p idx !!! k) pb).
Proof.
  intros HP Hrk p s idx.
  assert (length s = N) as Hls by apply (ev_len_scores _ _ _ _ _ HP).
  assert (well_shaped s) as Hshape.
  { apply rows_of_three_well_shaped. intros r.
    apply (evaluated_shape P (heap w) r HP). }
  destruct (ranks_of_store s (ranks P) (crowding_distances P) Hshape Hrk)
    as (Hlr & Hsome & Hone).
  rewrite Hls in *.
  assert (∀ j, j ∈ idx ↔ (j < N)%nat ∧
            ∀ i, (i < N)%nat → ¬ dominates (s !!! i) (s !!! j)) as Hidx.
  { intros j. unfold idx. rewrite elem_of_front, Hlr. split.
    - intros [Hj Hr]. split; [done|]. by apply Hone.
    - intros [Hj Hr]. split; [done|]. by apply Hone. }
  split_and!.
  - done.
  - unfold idx, np_where. etrans; [apply List.filter_length_le|].
    by rewrite length_seq, Hlr.
  - intros Hpos Hnil.
    destruct Hsome as (i & Hi & Hri).
    { intros Hs. rewrite Hs in Hls. simpl in Hls. lia. }
    assert (i ∈ idx) as Hin.
    { unfold idx. apply elem_of_front. rewrite Hlr. by split. }
    rewrite Hnil in Hin. by apply elem_of_nil in Hin.
  - done.
  - intros k Hk. rewrite !take_rows_lookup by done.
    apply (ev_rows _ _ _ _ _ HP). apply Hidx.
    by apply list_elem_of_lookup_total_2.
Qed.
End Evaluated.

(** After the initialisation and after every generation, the parent
    dictionary holds two arrays of [pop_size] rows in which every score
    is the evaluator's answer at the position of the same index, and the
    ranks and crowding distances it carries are those of the scores it
    stores. *)
Theorem scores_follow_positions G L argsort evaluate_objectives
    (pop_size max_gen : Z) (pb : problem) (gens : Z) :
  argsort_ok argsort →
  (∀ x, length (evaluate_objectives x pb) = 3%nat) →
  hoare (λ _, True)
        (evolve G L argsort evaluate_objectives pop_size max_gen pb gens)
        (λ P h, evaluated evaluate_objectives pb (Z.to_nat pop_size) P h ∧
                ranks_current argsort P h).
Proof. intros Hok Hlen. by apply evaluated_evolve. Qed.

Lemma scores_follow_positions_witness :
  argsort_ok merge_argsort ∧
  hoare (λ _, True)
        (evolve lcg_source toy_math merge_argsort toy_objectives 4 1
                (unit_box 2) 1)
        (λ P h, evaluated toy_objectives (unit_box 2) 4 P h ∧
                ranks_current merge_argsort P h).
Proof.
  split; [apply merge_argsort_ok|].
  exact (scores_follow_positions lcg_source toy_math merge_argsort
           toy_objectives 4 1 (unit_box 2) 1 merge_argsort_ok
           (λ _, eq_refl)).
Defined.

(** What [moho] returns: as many positions as scores, at most [pop_size]
    of them and at least one when [pop_size > 0]; each returned score is
    the evaluator's answer at the returned position of the same index;
    and no returned score dominates another. *)
Theorem returned_front_sound G L argsort evaluate_objectives
    (pop_size max_gen : Z) (pb : problem) :
  argsort_ok argsort →
  (∀ x, length (evaluate_objectives x pb) = 3%nat) →
  hoare (λ _, True)
        (moho G L argsort evaluate_objectives pop_size max_gen pb)
        (λ front _,
           length front.1 = length front.2 ∧
           (length front.1 ≤ Z.to_nat pop_size)%nat ∧
           (0 < pop_size → front.1 ≠ []) ∧
           (∀ k, (k < length front.1)%nat →
                 front.2 !!! k = evaluate_objectives (front.1 !!! k) pb) ∧
           (∀ a b, a ∈ front.2 → b ∈ front.2 →
                   determine_dominance a b = 0)).
Proof.
  intros Hok Hlen. unfold moho.
  eapply hoare_bind; [by apply evaluated_evolve|]. intros P w [HP Hrk].
  destruct (first_front_run argsort evaluate_objectives pop_size pb Hlen
              P w HP Hrk) as (-> & Hle & Hne & Hidx & Hrows).
  set (idx := np_where (λ r, r =? 1) (ranks P)) in *.
  simpl. rewrite !take_rows_length. split_and!.
  - done.
  - done.
  - intros Hpos Hnil. apply (Hne Hpos).
    apply (f_equal length) in Hnil. rewrite take_rows_length in Hnil.
    by destruct idx.
  - done.
  - assert (∀ a b, a ∈ take_rows (heap w !!! scores P) idx →
                   b ∈ take_rows (heap w !!! scores P) idx →
                   ¬ dominates a b) as Hnd.
    { intros a b (i & -> & Hi)%list_elem_of_fmap
                 (j & -> & Hj)%list_elem_of_fmap.
      apply Hidx in Hi as [Hi _]. apply Hidx in Hj as [_ Hj]. by apply Hj. }
    intros a b Ha Hb. apply dd_zero_iff. split; by apply Hnd.
Qed.

Lemma returned_front_sound_witness :
  argsort_ok merge_argsort ∧
  hoare (λ _, True)
        (moho lcg_source toy_math merge_argsort toy_objectives 4 1
              (unit_box 2))
        (λ front _, length front.1 = length front.2).
Proof.
  split; [apply merge_argsort_ok|].
  pose proof (returned_front_sound lcg_source toy_math merge_argsort
                toy_objectives 4 1 (unit_box 2) merge_argsort_ok
                (λ _, eq_refl)) as H.
  intros w Hw. specialize (H w Hw).
  destruct (moho _ _ _ _ _ _ _ w); [|done|done]. by destruct H.
Defined.



(** * The choice of a compromise and its decoding *)

Lemma argmin_from_spec (a : vec) : ∀ best least i (pre : vec),
  length pre = i → (best < i)%nat → pre !!! best = least →
  (∀ j, (j < i)%nat → (least ≤ pre !!! j)%Qc) →
  (∀ j, (j < best)%nat → (least < pre !!! j)%Qc) →
  let k := argmin_from best least i a in
  (k < i + length a)%nat ∧
  (∀ j, (j < i + length a)%nat → ((pre ++ a) !!! k ≤ (pre ++ a) !!! j)%Qc) ∧
  (∀ j, (j < k)%nat → ((pre ++ a) !!! k < (pre ++ a) !!! j)%Qc).
Proof.
  induction a as [|y a IH]; intros best least i pre Hlen Hbest Hval Hle Hlt;
    simpl.
  - rewrite app_nil_r, Nat.add_0_r. subst least. by split_and!.
  - assert ((pre ++ y :: a) = (pre ++ [y]) ++ a) as Happ
        by (by rewrite <-app_assoc).
    rewrite Happ.
    replace (i + S (length a))%nat with (S i + length a)%nat by lia.
    assert (length (pre ++ [y]) = S i) as Hlen'.
    { rewrite length_app. simpl. lia. }
    assert (∀ j, (j < i)%nat → (pre ++ [y]) !!! j = pre !!! j) as Hold.
    { intros j Hj. by rewrite lookup_total_app_l by lia. }
    assert ((pre ++ [y]) !!! i = y) as Hnew.
    { rewrite lookup_total_app_r by lia. by rewrite Hlen, Nat.sub_diag. }
    case_decide as Hy.
    + apply IH; [done|lia|done| |].
      * intros j Hj. destruct (decide (j = i)) as [->|Hne].
        -- rewrite Hnew. apply Qcle_refl.
        -- rewrite Hold by lia. apply Qcle_trans with least.
           ++ by apply Qclt_le_weak.
           ++ apply Hle. lia.
      * intros j Hj. rewrite Hold by lia.
        apply Qclt_le_trans with least; [done|]. apply Hle. lia.
    + apply IH; [done|lia| | |].
      * by rewrite Hold.
      * intros j Hj. destruct (decide (j = i)) as [->|Hne].
        -- rewrite Hnew. by apply Qcnot_lt_le.
        -- rewrite Hold by lia. apply Hle. lia.
      * intros j Hj. rewrite Hold by lia. by apply Hlt.
Qed.

(** [np.argmin] of a non-empty array: the first position of a least
    entry. *)
Lemma np_argmin_spec (a : vec) :
  a ≠ [] →
  (np_argmin a < length a)%nat ∧
  (∀ j, (j < length a)%nat → (a !!! np_argmin a ≤ a !!! j)%Qc) ∧
  (∀ j, (j < np_argmin a)%nat → (a !!! np_argmin a < a !!! j)%Qc).
Proof.
  destruct a as [|x a]; [done|]. intros _. simpl.
  apply (argmin_from_spec a 0%nat x 1%nat [x]); [done|lia|done| |].
  - intros [|j] Hj; [apply Qcle_refl|lia].
  - intros j Hj. lia.
Qed.

Lemma compromise_distances_length (front_scores : matrix) :
  length (compromise_distances front_scores) = length front_scores.
Proof.
  unfold compromise_distances, normalized_scores. by rewrite !length_fmap.
Qed.

(** An array of scores without rows makes [select_best_compromise] raise
    [ValueError].  Given as many positions as scores, at least one, it
    returns, and what it returns is a row of the positions, the row of
    the scores at the same index, and that index; a front of one solution
    gives index 0. *)
Theorem select_best_compromise_member (front_pos front_scores : matrix) :
  length front_pos = length front_scores →
  (front_scores = [] →
   select_best_compromise front_pos front_scores
   = Throw (Builtin ValueError)) ∧
  (front_scores ≠ [] →
   ∃ p s k,
     select_best_compromise front_pos front_scores = Return (p, s, k) ∧
     front_pos !! k = Some p ∧ front_scores !! k = Some s ∧
     (length front_scores = 1%nat → k = 0%nat)).
Proof.
  intros Hlen. split.
  - intros ->. reflexivity.
  - intros Hne. unfold select_best_compromise.
    assert (0 < length front_scores)%nat as Hpos.
    { destruct front_scores; [done|simpl; lia]. }
    case_decide as Hone.
    + destruct (lookup_lt_is_Some_2 front_pos 0%nat) as [p Hp]; [lia|].
      rewrite Hp. exists p, (front_scores !!! 0%nat), 0%nat.
      split_and!; [done|done| |done].
      apply list_lookup_lookup_total_lt. lia.
    + rewrite decide_False by lia.
      set (D := compromise_distances front_scores).
      destruct (np_argmin_spec D) as (Hk & _).
      { intros HD. apply (f_equal length) in HD.
        unfold D in HD. rewrite compromise_distances_length in HD.
        simpl in HD. lia. }
      unfold D in Hk at 2. rewrite compromise_distances_length in Hk.
      destruct (lookup_lt_is_Some_2 front_pos (np_argmin D)) as [p Hp];
        [lia|].
      rewrite Hp. exists p, (front_scores !!! np_argmin D), (np_argmin D).
      split_and!; [done|done| |lia].
      by apply list_lookup_lookup_total_lt.
Qed.

Lemma select_best_compromise_member_witness :
  ∃ p s k,
    select_best_compromise [[qz 1]; [qz 2]] [[qz 0; qz 4]; [qz 3; qz 1]]
    = Return (p, s, k) ∧
    [[qz 1]; [qz 2]] !! k = Some p.
Proof.
  destruct (select_best_compromise_member
              [[qz 1]; [qz 2]] [[qz 0; qz 4]; [qz 3; qz 1]] eq_refl)
    as [_ H].
  destruct (H ltac:(done)) as (p & s & k & Hrun & Hp & _).
  by exists p, s, k.
Defined.

(** Among two solutions or more, the index [select_best_compromise]
    returns is that of the first solution whose entry of [D], the mean
    absolute deviation of its normalised scores from their mean, is the
    least. *)
Theorem select_best_compromise_least (front_pos front_scores : matrix)
    p s k :
  (2 ≤ length front_scores)%nat →
  select_best_compromise front_pos front_scores = Return (p, s, k) →
  let D := compromise_distances front_scores in
  (k < length front_scores)%nat ∧
  (∀ j, (j < length front_scores)%nat → (D !!! k ≤ D !!! j)%Qc) ∧
  (∀ j, (j < k)%nat → (D !!! k < D !!! j)%Qc).
Proof.
  intros Htwo Hrun D. unfold select_best_compromise in Hrun.
  rewrite decide_False in Hrun by lia.
  rewrite decide_False in Hrun by lia.
  fold D in Hrun.
  destruct (front_pos !! np_argmin D) as [p'|]; [|done].
  injection Hrun as _ _ <-.
  destruct (np_argmin_spec D) as (Hk & Hle & Hlt).
  { intros HD. apply (f_equal length) in HD.
    unfold D in HD. rewrite compromise_distances_length in HD.
    simpl in HD. lia. }
  unfold D in Hk at 2. rewrite compromise_distances_length in Hk.
  split_and!; [done| |done].
  intros j Hj. apply Hle. unfold D.
  by rewrite compromise_distances_length.
Qed.

Lemma select_best_compromise_least_witness :
  ∃ p s k,
    select_best_compromise [[qz 1]; [qz 2]; [qz 3]]
                           [[qz 0; qz 4]; [qz 2; qz 2]; [qz 4; qz 0]]
    = Return (p, s, k) ∧ (k < 3)%nat.
Proof.
  eexists _, _, _. split; [vm_compute; reflexivity|].
  eapply (select_best_compromise_least
            [[qz 1]; [qz 2]; [qz 3]]
            [[qz 0; qz 4]; [qz 2; qz 2]; [qz 4; qz 0]]).
  - simpl. lia.
  - vm_compute. reflexivity.
Defined.

(** ** The deviations [D] lie between 0 and 1 *)





















(** ** The compromise does not depend on the units of the objectives *)









Section Rescale.
Variables (a b : vec) (m : matrix).
Hypothesis Hshape : well_shaped m.
Hypothesis Ha : length a = n_obj_of m.
Hypothesis Hb : length b = n_obj_of m.
Hypothesis Hpos : ∀ k, (k < n_obj_of m)%nat → (0 < a !!! k)%Qc.






End Rescale.



(** ** Decoding a solution into sensor positions *)

Lemma fmap_lookup_seq {A} `{!Inhabited A} (l : list A) :
  (λ j, l !!! j) <$> seq 0 (length l) = l.
Proof.
  apply list_eq_lookup_total.
  - by rewrite length_fmap, length_seq.
  - intros p Hp. rewrite length_fmap, length_seq in Hp.
    rewrite (list_lookup_total_fmap (λ j, l !!! j))
      by (by rewrite length_seq).
    by rewrite lookup_total_seq_lt.
Qed.

Lemma fmap_seq_lookup_id n (l : list nat) :
  (∀ a, a ∈ l → (a < n)%nat) → (λ a, seq 0 n !!! a) <$> l = l.
Proof.
  intros Hl. rewrite <-(list_fmap_id l) at 2. apply list_fmap_ext.
  intros i a Ha. simpl. apply lookup_total_seq_lt, Hl.
  by apply list_elem_of_lookup_2 in Ha.
Qed.

Lemma optimal_sensor_indices_crowding argsort (best_pos : vec) (k : nat) :
  argsort_ok argsort →
  take k (reverse (argsort (Fin <$> best_pos)))
  = select_by_crowding argsort (Fin <$> best_pos)
      (seq 0 (length best_pos)) k.
Proof.
  intros Hok. unfold select_by_crowding.
  replace (length best_pos) with (length (Fin <$> best_pos))
    by (by rewrite length_fmap).
  rewrite fmap_lookup_seq. symmetry. apply fmap_seq_lookup_id.
  intros a Ha%elem_of_take. destruct Ha as (i & Hi & _).
  apply list_elem_of_lookup_2 in Hi. rewrite elem_of_reverse in Hi.
  destruct (Hok (Fin <$> best_pos)) as [Hperm _].
  rewrite Hperm in Hi. apply elem_of_seq in Hi. lia.
Qed.

(** The indices read off a solution, for a number of sensors between 0
    and the dimension: exactly that many indices of coordinates, no index
    twice, and no coordinate left out exceeds a coordinate taken; asking
    for the dimension or more gives every index once. *)
Theorem optimal_sensor_indices_top argsort (best_pos : vec) (n_sensors : Z) :
  argsort_ok argsort →
  0 ≤ n_sensors →
  let chosen := optimal_sensor_indices argsort best_pos n_sensors in
  (n_sensors ≤ Z.of_nat (length best_pos) →
   length chosen = Z.to_nat n_sensors) ∧
  (Z.of_nat (length best_pos) ≤ n_sensors →
   chosen ≡ₚ seq 0 (length best_pos)) ∧
  NoDup chosen ∧
  (∀ j, j ∈ chosen → (j < length best_pos)%nat) ∧
  (∀ j j', j ∈ chosen → (j' < length best_pos)%nat → j' ∉ chosen →
           (best_pos !!! j' ≤ best_pos !!! j)%Qc).
Proof.
  intros Hok Hn chosen.
  set (keys := Fin <$> best_pos).
  assert (length keys = length best_pos) as Hlk
      by (unfold keys; by rewrite length_fmap).
  destruct (Hok keys) as [Hperm _].
  assert (length (argsort keys) = length best_pos) as Hls.
  { by rewrite Hperm, length_seq. }
  assert (chosen = take (Z.to_nat n_sensors) (reverse (argsort keys)))
    as Hchosen.
  { unfold chosen, optimal_sensor_indices, py_prefix.
    by rewrite decide_True by done. }
  assert (Z.of_nat (length best_pos) ≤ n_sensors →
          chosen = reverse (argsort keys)) as Hall.
  { intros Hge. rewrite Hchosen. apply take_ge.
    rewrite length_reverse, Hls. lia. }
  set (k := Nat.min (Z.to_nat n_sensors) (length best_pos)).
  assert (chosen = take k (reverse (argsort keys))) as Hk.
  { rewrite Hchosen. unfold k.
    destruct (decide (Z.to_nat n_sensors ≤ length best_pos)%nat).
    - by rewrite Nat.min_l by done.
    - rewrite Nat.min_r by lia.
      rewrite !take_ge; [done|rewrite length_reverse; lia..]. }
  unfold keys in Hk.
  rewrite (optimal_sensor_indices_crowding argsort best_pos k Hok) in Hk.
  destruct (select_by_crowding_spec argsort keys (seq 0 (length best_pos)) k
              Hok) as (Hlen & Hnd & Hin & Htop).
  { apply NoDup_seq. }
  { rewrite length_seq. unfold k. lia. }
  fold keys in Hk. rewrite <-Hk in *.
  split_and!.
  - intros Hle. rewrite Hlen. unfold k. lia.
  - intros Hge. rewrite (Hall Hge), reverse_Permutation.
    by rewrite Hperm, Hlk.
  - done.
  - intros j Hj%Hin. apply elem_of_seq in Hj. lia.
  - intros j j' Hj Hj' Hnot.
    assert (j < length best_pos)%nat as Hjlt.
    { apply Hin in Hj. apply elem_of_seq in Hj. lia. }
    specialize (Htop j j' Hj).
    unfold keys in Htop.
    rewrite !(list_lookup_total_fmap Fin) in Htop by done.
    apply Htop; [|done]. apply elem_of_seq. lia.
Qed.

Lemma optimal_sensor_indices_top_witness :
  argsort_ok merge_argsort ∧ 0 ≤ 2 ∧
  length (optimal_sensor_indices merge_argsort
            [qfrac 1 2; qfrac 9 10; qfrac 1 10; qfrac 7 10] 2) = 2%nat.
Proof.
  split_and!; [apply merge_argsort_ok|lia|].
  destruct (optimal_sensor_indices_top merge_argsort
              [qfrac 1 2; qfrac 9 10; qfrac 1 10; qfrac 7 10] 2
              merge_argsort_ok ltac:(lia)) as (H & _).
  apply H. simpl. lia.
Defined.

(** * The sequencing script *)

(** ** Overlap in plan (lines 155-158) *)






(** ** The support relation (lines 161-179) *)

Lemma elem_of_enumerate {A} (l : list A) i x :
  (i, x) ∈ enumerate l ↔ l !! i = Some x.
Proof.
  unfold enumerate. rewrite list_elem_of_lookup. split.
  - intros (k & Hk). apply lookup_zip_with_Some in Hk
      as (a & b & [= -> ->] & Ha & Hb).
    apply lookup_seq in Ha as [-> _]. done.
  - intros Hx. exists i. apply lookup_zip_with_Some. exists i, x.
    split_and!; [done| |done]. apply lookup_seq. split; [done|].
    by apply lookup_lt_Some in Hx.
Qed.

Lemma enumerate_fst {A} (l : list A) : (enumerate l).*1 = seq 0 (length l).
Proof. unfold enumerate. apply fst_zip. by rewrite length_seq. Qed.

Lemma NoDup_enumerate_fst {A} (l : list A) : NoDup (enumerate l).*1.
Proof. rewrite enumerate_fst. apply NoDup_seq. Qed.

Section Support.
Variable H : Host.
Implicit Types (adj : gmap Z (list Z)) (E : list (nat * (Z * component H))).

(** The inner loop appends, to the list of [id_i], the ids it selects. *)
Lemma inner_loop_spec i id_i (data_i : component H) E : ∀ adj,
  let selected :=
    (λ jkv : nat * (Z * component H), jkv.2.1)
      <$> filter (λ jkv : nat * (Z * component H),
                    jkv.1 ≠ i ∧ rests_on H data_i jkv.2.2) E in
  foldl (λ support_adj '(j, (id_j, data_j)),
           if decide (i = j) then support_adj
           else if rests_on H data_i data_j
                then append_to support_adj id_i id_j
                else support_adj) adj E
  = match selected with
    | [] => adj
    | _ :: _ => <[id_i := default [] (adj !! id_i) ++ selected]> adj
    end.
Proof.
  induction E as [|[j [id_j data_j]] E IH]; intros adj; simpl; [done|].
  rewrite IH. clear IH.
  rewrite filter_cons. simpl.
  destruct (decide (i = j)) as [->|Hne].
  { rewrite decide_False by (intros [? _]; done). done. }
  destruct (rests_on H data_i data_j) eqn:Hrest.
  - rewrite decide_True by (split; [done|exact I]).
    rewrite fmap_cons. simpl.
    set (rest := (λ jkv : nat * (Z * component H), jkv.2.1) <$> _).
    unfold append_to. rewrite lookup_insert_eq. simpl.
    destruct rest as [|x rest]; [done|].
    rewrite insert_insert_eq. f_equal. by rewrite <-app_assoc.
  - rewrite decide_False; [done|]. by intros [_ []].
Qed.

Lemma outer_loop_spec (comp_data_map : list (Z * component H)) E : ∀ adj,
  NoDup ((λ e : nat * (Z * component H), e.2.1) <$> E) →
  (∀ e, e ∈ E → adj !! e.2.1 = None) →
  let final :=
    foldl (λ support_adj '(i, (id_i, data_i)),
             foldl (λ support_adj '(j, (id_j, data_j)),
                      if decide (i = j) then support_adj
                      else if rests_on H data_i data_j
                           then append_to support_adj id_i id_j
                           else support_adj)
                   support_adj (enumerate comp_data_map))
          adj E in
  (∀ i id_i data_i, (i, (id_i, data_i)) ∈ E →
     final !! id_i = recorded (carried comp_data_map i data_i)) ∧
  (∀ k, k ∉ (λ e : nat * (Z * component H), e.2.1) <$> E →
        final !! k = adj !! k).
Proof.
  induction E as [|[i [id_i data_i]] E IH]; intros adj Hnd Hnone; simpl.
  { split; [|done]. intros i id_i data_i Hin. by apply elem_of_nil in Hin. }
  rewrite fmap_cons in Hnd. apply NoDup_cons in Hnd as [Hfresh Hnd].
  simpl in Hfresh.
  rewrite inner_loop_spec. fold (carried comp_data_map i data_i).
  set (adj1 := match carried comp_data_map i data_i with
               | [] => adj | _ :: _ => _ end).
  assert (adj1 !! id_i = recorded (carried comp_data_map i data_i)) as Hhead.
  { unfold adj1.
    assert (adj !! id_i = None) as Hfree
        by (apply (Hnone (i, (id_i, data_i))); left).
    rewrite Hfree. simpl.
    destruct (carried comp_data_map i data_i); simpl; [done|].
    by rewrite lookup_insert_eq. }
  assert (∀ k, k ≠ id_i → adj1 !! k = adj !! k) as Hother.
  { intros k Hk. unfold adj1.
    destruct (carried comp_data_map i data_i); [done|].
    by rewrite lookup_insert_ne. }
  destruct (IH adj1 Hnd) as [Hin Hout].
  { intros e He. rewrite Hother.
    - apply Hnone. by right.
    - intros Heq. apply Hfresh. rewrite <-Heq.
      apply list_elem_of_fmap. by exists e. }
  split.
  - intros j id_j data_j [Heq|Hj]%elem_of_cons.
    + injection Heq as -> -> ->. by rewrite Hout.
    + by apply Hin.
  - intros k Hk. apply not_elem_of_cons in Hk as [Hk1 Hk2].
    simpl in Hk1. rewrite Hout by done. by apply Hother.
Qed.
End Support.

Lemma enumerate_keys {A} (l : list (Z * A)) :
  (λ e : nat * (Z * A), e.2.1) <$> enumerate l = l.*1.
Proof.
  unfold enumerate.
  trans (fst <$> (snd <$> zip (seq 0 (length l)) l)).
  { by rewrite <-list_fmap_compose. }
  rewrite snd_zip; [done|]. rewrite length_seq. lia.
Qed.

Lemma elem_of_carried {H} (comp_data_map : list (Z * component H)) i
    (data_i : component H) x :
  x ∈ carried comp_data_map i data_i ↔
  ∃ j data_j, comp_data_map !! j = Some (x, data_j) ∧ j ≠ i ∧
              (Qcabs (z_min data_j - z_max data_i) ≤ SUPPORT_TOLERANCE)%Qc ∧
              bbox_xy_overlap (bbox data_i) (bbox data_j) = true.
Proof.
  unfold carried. rewrite list_elem_of_fmap. split.
  - intros ([j [id_j data_j]] & -> & Hin%list_elem_of_filter).
    destruct Hin as [[Hne Hrest] Hin]. simpl in *.
    apply elem_of_enumerate in Hin. exists j, data_j.
    unfold rests_on in Hrest.
    apply Is_true_true, andb_true_iff in Hrest as [Hz Hxy].
    apply bool_decide_eq_true in Hz. by split_and!.
  - intros (j & data_j & Hj & Hne & Hz & Hxy).
    exists (j, (x, data_j)). split; [done|].
    apply list_elem_of_filter. split; [|by apply elem_of_enumerate].
    split; [done|]. simpl. unfold rests_on.
    apply Is_true_true, andb_true_iff. split; [|done].
    by apply bool_decide_eq_true.
Qed.

(** On a dictionary (distinct keys), [calculate_support_constraint] lists
    under the key of entry [i] the keys of the entries, other than entry
    [i] itself, whose bottom lies within the tolerance of the top of
    entry [i] and whose box overlaps its box in plan, in the order of the
    dictionary; an entry that carries nothing has no key, nor has any id
    that is not a key of the dictionary; no list is empty, repeats an id,
    holds its own key or an id outside the dictionary. *)
Theorem support_constraint_spec H (comp_data_map : list (Z * component H)) :
  NoDup (comp_data_map.*1) →
  let support_adj := calculate_support_constraint H comp_data_map in
  (∀ i id_i data_i, comp_data_map !! i = Some (id_i, data_i) →
     default [] (support_adj !! id_i) = carried comp_data_map i data_i ∧
     (support_adj !! id_i = None ↔ carried comp_data_map i data_i = []) ∧
     ∀ x, x ∈ default [] (support_adj !! id_i) ↔
          ∃ j data_j,
            comp_data_map !! j = Some (x, data_j) ∧ j ≠ i ∧
            (Qcabs (z_min data_j - z_max data_i) ≤ SUPPORT_TOLERANCE)%Qc ∧
            bbox_xy_overlap (bbox data_i) (bbox data_j) = true) ∧
  (∀ k, k ∉ (comp_data_map.*1) → support_adj !! k = None) ∧
  (∀ k l, support_adj !! k = Some l →
          l ≠ [] ∧ NoDup l ∧ (k ∉ l) ∧ (∀ x, x ∈ l → x ∈ (comp_data_map.*1))).
Proof.
  intros Hnd support_adj.
  destruct (outer_loop_spec H comp_data_map (enumerate comp_data_map) ∅)
    as [Hin Hout].
  { by rewrite enumerate_keys. }
  { intros e _. apply lookup_empty. }
  fold (calculate_support_constraint H comp_data_map) in Hin, Hout.
  fold support_adj in Hin, Hout. rewrite enumerate_keys in Hout.
  assert (∀ i id_i data_i, comp_data_map !! i = Some (id_i, data_i) →
            support_adj !! id_i = recorded (carried comp_data_map i data_i))
    as Hrec.
  { intros i id_i data_i Hi. apply Hin. by apply elem_of_enumerate. }
  assert (∀ i j a b (da db : component H),
            comp_data_map !! i = Some (a, da) →
            comp_data_map !! j = Some (b, db) → a = b → i = j) as Hinj.
  { intros i j a b da db Hi Hj ->.
    apply (NoDup_lookup _ i j b Hnd).
    - by rewrite list_lookup_fmap, Hi.
    - by rewrite list_lookup_fmap, Hj. }
  split_and!.
  - intros i id_i data_i Hi. rewrite (Hrec i id_i data_i Hi).
    assert (default [] (recorded (carried comp_data_map i data_i))
            = carried comp_data_map i data_i) as Hdef.
    { by destruct (carried comp_data_map i data_i). }
    split_and!.
    + done.
    + by destruct (carried comp_data_map i data_i).
    + intros x. rewrite Hdef. apply elem_of_carried.
  - intros k Hk. rewrite Hout by done. apply lookup_empty.
  - intros k l Hl.
    destruct (decide (k ∈ (comp_data_map.*1))) as [Hk|Hk].
    2:{ rewrite Hout in Hl by done. by rewrite lookup_empty in Hl. }
    apply list_elem_of_fmap in Hk as ([k' data_k] & -> & Hk).
    apply list_elem_of_lookup in Hk as (i & Hi). simpl in *.
    rewrite (Hrec i k' data_k Hi) in Hl.
    assert (l = carried comp_data_map i data_k ∧ l ≠ []) as [-> Hne].
    { destruct (carried comp_data_map i data_k); [done|].
      simpl in Hl. by injection Hl as <-. }
    split_and!.
    + done.
    + unfold carried. apply NoDup_fmap_2_strong.
      * intros [j1 [a da]] [j2 [b db]] [_ H1]%list_elem_of_filter
               [_ H2]%list_elem_of_filter Heq. simpl in Heq.
        apply elem_of_enumerate in H1, H2.
        pose proof (Hinj _ _ _ _ _ _ H1 H2 Heq) as ->.
        rewrite H1 in H2. by injection H2 as -> ->.
      * apply NoDup_filter. apply (NoDup_fmap_1 fst).
        apply NoDup_enumerate_fst.
    + intros (j & data_j & Hj & Hne' & _)%elem_of_carried.
      apply Hne'. by apply (Hinj _ _ _ _ _ _ Hj Hi).
    + intros x (j & data_j & Hj & _)%elem_of_carried.
      apply list_elem_of_fmap. exists (x, data_j). split; [done|].
      by apply list_elem_of_lookup_2 in Hj.
Qed.

Lemma support_constraint_spec_witness :
  NoDup (portal.*1) ∧
  calculate_support_constraint box_host portal !! 3 = None.
Proof.
  assert (NoDup (portal.*1)) as Hnd.
  { apply (bool_decide_unpack (NoDup (portal.*1))). vm_compute. exact I. }
  split; [done|].
  destruct (support_constraint_spec box_host portal Hnd) as (Hin & _).
  destruct (Hin 2%nat 3 (block 0 0 3 5 1 4) eq_refl) as (_ & Hnone & _).
  apply Hnone. vm_compute. reflexivity.
Defined.

(** ** Removability (lines 196-239) *)

Lemma dict_get_elem {A} (d : list (Z * A)) k :
  k ∈ (d.*1) → ∃ v, dict_get d k = Return v ∧ (k, v) ∈ d.
Proof.
  induction d as [|[k' v] d IH]; simpl.
  - intros Hk. by apply elem_of_nil in Hk.
  - intros Hk. case_decide as Heq.
    + subst k'. exists v. split; [done|left].
    + apply elem_of_cons in Hk as [Hk|Hk]; [congruence|].
      destruct (IH Hk) as (v' & Hv & Hin). exists v'. split; [done|by right].
Qed.

Lemma dict_get_Return {A} (d : list (Z * A)) k v :
  dict_get d k = Return v → (k, v) ∈ d.
Proof.
  induction d as [|[k' v'] d IH]; simpl; [done|].
  case_decide as Heq.
  - intros [= ->]. subst k'. left.
  - intros Hd. right. by apply IH.
Qed.

Section Removable.
Variable H : Host.
Variable comp_data_map : list (Z * component H).
Variable support_adj : gmap Z (list Z).
Variable z_project_max : Qc.

Lemma create_scan_box_cases (b : BoundingBoxXYZ) :
  create_scan_box H b z_project_max = Throw ApiException ∨
  ∃ o, create_scan_box H b z_project_max = Return o ∧
       ((z_project_max ≤ coord_Z (Max b))%Qc → o = None).
Proof.
  unfold create_scan_box.
  destruct (create_profile H _ _ _ _) as [loop|]; [|by left].
  right. case_decide as Hh.
  - by exists None.
  - eexists. split; [done|]. intros Hle. destruct Hh. qc_arith.
Qed.

Lemma path_is_clear_total comp_id (data_i : component H) scan others :
  (∀ x, x ∈ others → x ∈ (comp_data_map.*1)) →
  ∃ r, path_is_clear H comp_data_map comp_id data_i scan others = Return r.
Proof.
  induction others as [|x others IH]; intros Hin; simpl; [by eexists|].
  assert (∀ y, y ∈ others → y ∈ (comp_data_map.*1)) as Hin'
      by (intros y Hy; apply Hin; by right).
  case_decide; [by apply IH|].
  destruct (dict_get_elem comp_data_map x) as (data_j & -> & _);
    [apply Hin; left|].
  simpl. case_decide; [by apply IH|].
  destruct (negb _); [by apply IH|].
  destruct (check_collision _ _ _); [by eexists|by apply IH].
Qed.

Lemma path_is_clear_sublist comp_id (data_i : component H) scan
    others others' :
  others' `sublist_of` others →
  path_is_clear H comp_data_map comp_id data_i scan others = Return true →
  path_is_clear H comp_data_map comp_id data_i scan others' = Return true.
Proof.
  intros Hsub. induction Hsub as [|x l1 l2 Hsub IH|x l1 l2 Hsub IH]; simpl.
  - done.
  - case_decide; [done|].
    destruct (dict_get comp_data_map x) as [data_j| |]; simpl; [|done..].
    case_decide; [done|]. destruct (negb _); [done|].
    destruct (check_collision _ _ _); [done|done].
  - intros Hrun. apply IH. revert Hrun.
    case_decide; [done|].
    destruct (dict_get comp_data_map x) as [data_j| |]; simpl; [|done..].
    case_decide; [done|]. destruct (negb _); [done|].
    destruct (check_collision _ _ _); [done|done].
Qed.

Lemma carries_unremoved_spec comp_id (unremoved : list Z) :
  existsb (λ supported_id, bool_decide (supported_id ∈ unremoved))
          (default [] (support_adj !! comp_id)) = false ↔
  ∀ y, y ∈ default [] (support_adj !! comp_id) → y ∉ unremoved.
Proof.
  rewrite <-not_true_iff_false, existsb_exists. split.
  - intros Hno y Hy Hin. apply Hno. exists y. split.
    + by apply list_elem_of_In.
    + by apply bool_decide_eq_true.
  - intros Hno (y & Hy%list_elem_of_In & Hin%bool_decide_eq_true).
    by apply (Hno y).
Qed.

Lemma is_removable_run comp_id (unremoved : list Z) :
  comp_id ∈ (comp_data_map.*1) →
  (∀ x, x ∈ unremoved → x ∈ (comp_data_map.*1)) →
  is_removable H comp_id unremoved comp_data_map support_adj z_project_max
  = Throw ApiException ∧ profile_fails H comp_data_map z_project_max ∨
  ∃ r,
    is_removable H comp_id unremoved comp_data_map support_adj z_project_max
    = Return r ∧
    (r = true →
     ∀ y, y ∈ default [] (support_adj !! comp_id) → y ∉ unremoved).
Proof.
  intros Hid Hin. unfold is_removable.
  destruct (existsb _ _) eqn:Hcar.
  { right. by exists false. }
  pose proof (proj1 (carries_unremoved_spec _ _) Hcar) as Hno.
  destruct (dict_get_elem comp_data_map comp_id Hid) as (data_i & -> & Hd).
  simpl.
  destruct (create_scan_box_cases (bbox data_i)) as [Hthrow|(o & -> & _)].
  { left. rewrite Hthrow. split; [done|]. by exists comp_id, data_i. }
  right. simpl. destruct o as [scan|]; [|by exists true].
  destruct (path_is_clear_total comp_id data_i scan unremoved Hin)
    as (r & ->).
  by exists r.
Qed.
End Removable.

(** [is_removable] answers [False] for a component that carries a
    component still in place, before it looks anything up; and for a
    component that carries nothing in place and whose box reaches the top
    of the project it answers [True] without a collision test, unless the
    profile of its box cannot be built. *)
Theorem is_removable_cases H (comp_id : Z) (unremoved : list Z)
    (comp_data_map : list (Z * component H))
    (support_adj : gmap Z (list Z)) (z_project_max : Qc) :
  ((∃ y, y ∈ default [] (support_adj !! comp_id) ∧ y ∈ unremoved) →
   is_removable H comp_id unremoved comp_data_map support_adj z_project_max
   = Return false) ∧
  (∀ data_i,
     (∀ y, y ∈ default [] (support_adj !! comp_id) → y ∉ unremoved) →
     dict_get comp_data_map comp_id = Return data_i →
     (z_project_max ≤ coord_Z (Max (bbox data_i)))%Qc →
     is_removable H comp_id unremoved comp_data_map support_adj z_project_max
     = Return true ∨
     is_removable H comp_id unremoved comp_data_map support_adj z_project_max
     = Throw ApiException).
Proof.
  split.
  - intros (y & Hy & Hin). unfold is_removable.
    destruct (existsb _ _) eqn:Hcar; [done|].
    pose proof (proj1 (carries_unremoved_spec _ _ _) Hcar) as Hno.
    by destruct (Hno y).
  - intros data_i Hno Hd Htop. unfold is_removable.
    rewrite (proj2 (carries_unremoved_spec _ _ _) Hno), Hd. simpl.
    destruct (create_scan_box_cases H z_project_max (bbox data_i))
      as [->|(o & -> & Hnone)]; [by right|].
    left. by rewrite (Hnone Htop).
Qed.

Lemma is_removable_cases_witness :
  is_removable box_host 1 [1; 2; 3] portal
    (calculate_support_constraint box_host portal)
    (project_top box_host portal)
  = Return false.
Proof.
  destruct (is_removable_cases box_host 1 [1; 2; 3] portal
              (calculate_support_constraint box_host portal)
              (project_top box_host portal)) as [Hcarrier _].
  apply Hcarrier. exists 3. split.
  - vm_compute. left.
  - set_solver.
Defined.

(** Taking components away never takes removability away: a component
    that [is_removable] finds removable among the members of a set is
    removable among the members of any part of it. *)
Theorem is_removable_monotone H (comp_id : Z) (unremoved unremoved' : list Z)
    (comp_data_map : list (Z * component H))
    (support_adj : gmap Z (list Z)) (z_project_max : Qc) :
  unremoved' `sublist_of` unremoved →
  is_removable H comp_id unremoved comp_data_map support_adj z_project_max
  = Return true →
  is_removable H comp_id unremoved' comp_data_map support_adj z_project_max
  = Return true.
Proof.
  intros Hsub. unfold is_removable.
  destruct (existsb _ (default [] (support_adj !! comp_id))) eqn:Hcar;
    [done|].
  pose proof (proj1 (carries_unremoved_spec _ _ _) Hcar) as Hno.
  assert (existsb (λ supported_id, bool_decide (supported_id ∈ unremoved'))
                  (default [] (support_adj !! comp_id)) = false) as ->.
  { apply carries_unremoved_spec. intros y Hy Hin.
    apply (Hno y Hy). by apply (elem_of_sublist unremoved' unremoved). }
  destruct (dict_get comp_data_map comp_id) as [data_i| |]; simpl; [|done..].
  destruct (create_scan_box H (bbox data_i) z_project_max)
    as [[scan|]| |]; simpl; [|done..].
  by apply path_is_clear_sublist.
Qed.

Lemma is_removable_monotone_witness :
  is_removable box_host 1 [1] portal
    (calculate_support_constraint box_host portal)
    (project_top box_host portal)
  = Return true.
Proof.
  apply (is_removable_monotone box_host 1 [1; 2] [1]).
  - apply sublist_skip, sublist_cons, sublist_nil.
  - vm_compute. reflexivity.
Defined.

(** ** The peeling loop (lines 242-272) *)

Lemma StronglySorted_le_lt (l : list Z) :
  StronglySorted Z.le l → NoDup l → StronglySorted Z.lt l.
Proof.
  induction 1 as [|x l Hs IH Hall]; intros Hnd; constructor.
  - apply IH. by apply NoDup_cons in Hnd as [_ ?].
  - apply NoDup_cons in Hnd as [Hx _].
    apply Forall_forall. intros y Hy.
    rewrite Forall_forall in Hall. specialize (Hall y Hy).
    assert (x ≠ y) by (intros ->; done). lia.
Qed.

Lemma sorted_group (r : list Z) :
  NoDup r → r ≠ [] →
  merge_sort Z.le r ≠ [] ∧ StronglySorted Z.lt (merge_sort Z.le r) ∧
  merge_sort Z.le r ≡ₚ r.
Proof.
  intros Hnd Hne.
  pose proof (merge_sort_Permutation Z.le r) as Hperm.
  split_and!; [|apply StronglySorted_le_lt|done].
  - intros Hnil. rewrite Hnil in Hperm. symmetry in Hperm.
    by apply Permutation_nil_r in Hperm.
  - apply StronglySorted_merge_sort; apply _.
  - by rewrite Hperm.
Qed.

Lemma remove_group (l r : list Z) :
  NoDup l → NoDup r → (∀ x, x ∈ r → x ∈ l) →
  r ++ filter (λ x, x ∉ r) l ≡ₚ l.
Proof.
  intros Hl Hr Hsub. apply NoDup_Permutation.
  - apply NoDup_app. split_and!; [done| |by apply NoDup_filter].
    intros x Hx [Hnot _]%list_elem_of_filter. done.
  - done.
  - intros x. rewrite elem_of_app, list_elem_of_filter. split.
    + intros [Hx|[_ Hx]]; [by apply Hsub|done].
    + intros Hx. destruct (decide (x ∈ r)); [by left|by right].
Qed.

Lemma concat_length_ge (gs : list (list Z)) :
  (∀ g, g ∈ gs → g ≠ []) → (length gs ≤ length (concat gs))%nat.
Proof.
  induction gs as [|g gs IH]; intros Hne; simpl; [done|].
  rewrite length_app.
  assert (0 < length g)%nat.
  { destruct g; [by destruct (Hne [] ltac:(left))|simpl; lia]. }
  assert (length gs ≤ length (concat gs))%nat
    by (apply IH; intros g' Hg'; apply Hne; by right).
  lia.
Qed.

Lemma elem_of_concat (x : Z) (gs : list (list Z)) :
  x ∈ concat gs ↔ ∃ g, g ∈ gs ∧ x ∈ g.
Proof.
  induction gs as [|g gs IH]; simpl.
  - split; [by intros ?%elem_of_nil|by intros (g & ?%elem_of_nil & _)].
  - rewrite elem_of_app, IH. split.
    + intros [Hx|(g' & Hg' & Hx)]; [exists g; split; [left|done]|].
      exists g'. split; [by right|done].
    + intros (g' & [->|Hg']%elem_of_cons & Hx); [by left|].
      right. by exists g'.
Qed.

Section Sequence.
Variable H : Host.
Variable comp_data_map : list (Z * component H).
Variable support_adj : gmap Z (list Z).
Variable z_project_max : Qc.

Local Abbreviation keys := (comp_data_map.*1).
Local Abbreviation fails := (profile_fails H comp_data_map z_project_max).

Lemma removable_this_round_run candidates unremoved :
  (∀ x, x ∈ candidates → x ∈ keys) → (∀ x, x ∈ unremoved → x ∈ keys) →
  removable_this_round H candidates unremoved comp_data_map support_adj
                       z_project_max
  = Throw ApiException ∧ fails ∨
  ∃ found,
    removable_this_round H candidates unremoved comp_data_map support_adj
                         z_project_max
    = Return found ∧
    found `sublist_of` candidates ∧
    ∀ x, x ∈ found →
         ∀ y, y ∈ default [] (support_adj !! x) → y ∉ unremoved.
Proof.
  intros Hc Hu. induction candidates as [|c candidates IH]; simpl.
  { right. exists []. split_and!; [done|done|].
    intros x Hx. by apply elem_of_nil in Hx. }
  destruct (is_removable_run H comp_data_map support_adj z_project_max
              c unremoved) as [[-> Hfail]|(r & -> & Hr)];
    [apply Hc; left|done|by left|].
  simpl. destruct IH as [[-> Hfail]|(found & -> & Hsub & Hfound)].
  { intros x Hx. apply Hc. by right. }
  { by left. }
  right. simpl. destruct r.
  - exists (c :: found). split_and!; [done|by apply sublist_skip|].
    intros x [->|Hx]%elem_of_cons; [by apply Hr|by apply Hfound].
  - exists found. split_and!; [done|by apply sublist_cons|done].
Qed.

Lemma max_by_z_max_run rest : ∀ best best_key,
  (∀ x, x ∈ rest → x ∈ keys) →
  ∃ x, max_by_z_max H comp_data_map best best_key rest = Return x ∧
       (x = best ∨ x ∈ rest).
Proof.
  induction rest as [|y rest IH]; intros best best_key Hin; simpl.
  { exists best. by split; [|left]. }
  destruct (dict_get_elem comp_data_map y) as (data & -> & _);
    [apply Hin; left|].
  simpl.
  assert (∀ x, x ∈ rest → x ∈ keys) as Hin'
      by (intros x Hx; apply Hin; by right).
  case_decide.
  - destruct (IH y (z_max data) Hin') as (x & -> & Hx).
    exists x. split; [done|]. right.
    destruct Hx as [->|Hx]; [left|by right].
  - destruct (IH best best_key Hin') as (x & -> & Hx).
    exists x. split; [done|].
    destruct Hx as [->|Hx]; [by left|right; by right].
Qed.

Lemma fallback_comp_run unremoved :
  unremoved ≠ [] → (∀ x, x ∈ unremoved → x ∈ keys) →
  ∃ x, fallback_comp H comp_data_map unremoved = Return x ∧ x ∈ unremoved.
Proof.
  destruct unremoved as [|u unremoved]; [done|]. intros _ Hin. simpl.
  destruct (dict_get_elem comp_data_map u) as (data & -> & _);
    [apply Hin; left|].
  simpl.
  destruct (max_by_z_max_run unremoved u (z_max data)) as (x & -> & Hx).
  { intros x Hx. apply Hin. by right. }
  exists x. split; [done|]. destruct Hx as [->|Hx]; [left|by right].
Qed.

(** Removing a non-empty group keeps the invariant. *)
Lemma sequence_advance st (r w : list Z) :
  sequence_inv keys support_adj st →
  r ≠ [] → NoDup r → (∀ x, x ∈ r → x ∈ unremoved_set st) →
  (∀ x, x ∈ w → x ∈ r) →
  (∀ x, x ∈ r → x ∉ w →
        ∀ y, y ∈ default [] (support_adj !! x) → y ∉ unremoved_set st) →
  let st' :=
    SequenceState (filter (λ x, x ∉ r) (unremoved_set st))
                  (disassembly_sequence_groups st ++ [merge_sort Z.le r])
                  (forced st ++ w) in
  sequence_inv keys support_adj st' ∧
  (length (unremoved_set st') < length (unremoved_set st))%nat.
Proof.
  intros [Hnd Hperm Hgroups Hforced Horder] Hne Hr Hsub Hw Hfree st'.
  destruct (sorted_group r Hr Hne) as (Hgne & Hsorted & Hg).
  set (g := merge_sort Z.le r) in *.
  pose proof (remove_group (unremoved_set st) r Hnd Hr Hsub) as Hsplit.
  split; [split; simpl|].
  - by apply NoDup_filter.
  - rewrite concat_app. simpl. rewrite app_nil_r, <-app_assoc.
    by rewrite Hg, Hsplit.
  - intros g0 [Hg0|Hg0%list_elem_of_singleton]%elem_of_app;
      [by apply Hgroups|by subst g0].
  - intros x [Hx|Hx]%elem_of_app; rewrite concat_app, elem_of_app.
    + left. by apply Hforced.
    + right. simpl. rewrite app_nil_r, Hg. by apply Hw.
  - intros gi g0 x y Hgi Hx Hnot Hy Hkey.
    assert ((x ∉ forced st) ∧ (x ∉ w)) as [Hnf Hnw].
    { split; intros Hin; apply Hnot, elem_of_app; [by left|by right]. }
    destruct (decide (gi < length (disassembly_sequence_groups st))%nat)
      as [Hlt|Hge].
    + rewrite lookup_app_l in Hgi by done.
      destruct (Horder gi g0 x y Hgi Hx Hnf Hy Hkey)
        as (gj & g' & Hlt' & Hgj & Hy').
      exists gj, g'. split_and!; [done| |done].
      rewrite lookup_app_l by lia. done.
    + rewrite lookup_app_r in Hgi by lia.
      apply list_lookup_singleton_Some in Hgi as [Hidx <-].
      assert (x ∈ r) as Hxr by (by rewrite <-Hg).
      assert (y ∈ concat (disassembly_sequence_groups st)) as Hyc.
      { rewrite <-Hperm in Hkey. apply elem_of_app in Hkey as [?|Hyu]; [done|].
        by destruct (Hfree x Hxr Hnw y Hy). }
      apply elem_of_concat in Hyc as (g' & Hg' & Hyg').
      apply list_elem_of_lookup in Hg' as (gj & Hgj).
      exists gj, g'. split_and!; [|by rewrite lookup_app_l
                                        by (by apply lookup_lt_Some in Hgj)
                                   |done].
      apply lookup_lt_Some in Hgj. lia.
  - simpl.
    pose proof (Permutation_length Hsplit) as Hlen.
    rewrite length_app in Hlen.
    assert (0 < length r)%nat by (destruct r; [done|simpl; lia]).
    lia.
Qed.

(** One iteration: an exception of the API, or a shorter set. *)
Lemma sequence_step_run st :
  sequence_inv keys support_adj st → unremoved_set st ≠ [] →
  sequence_step H comp_data_map support_adj z_project_max st
  = Throw ApiException ∧ fails ∨
  ∃ st',
    sequence_step H comp_data_map support_adj z_project_max st = Return st' ∧
    sequence_inv keys support_adj st' ∧
    (length (unremoved_set st') < length (unremoved_set st))%nat.
Proof.
  intros Hinv Hne. unfold sequence_step.
  assert (∀ x, x ∈ unremoved_set st → x ∈ keys) as Hin.
  { intros x Hx. rewrite <-(sq_perm _ _ _ Hinv). apply elem_of_app. by right. }
  destruct (removable_this_round_run (unremoved_set st) (unremoved_set st)
              Hin Hin) as [[-> Hfail]|(found & -> & Hsub & Hfound)];
    [by left|].
  right. simpl. destruct found as [|x found].
  - destruct (fallback_comp_run (unremoved_set st) Hne Hin)
      as (fb & -> & Hfb).
    simpl. eexists. split; [done|].
    apply (sequence_advance st [fb] [fb]); [done|done| | |done|].
    + apply NoDup_singleton.
    + by intros x ->%list_elem_of_singleton.
    + intros x Hx Hnot. done.
  - simpl. eexists. split; [done|].
    apply (sequence_advance st (x :: found) []); [done|done| | | |].
    + apply (sublist_NoDup _ (unremoved_set st)); [|done].
      apply (sq_nodup _ _ _ Hinv).
    + intros y Hy. by apply (elem_of_sublist (x :: found)).
    + intros y Hy. by apply elem_of_nil in Hy.
    + intros y Hy _. by apply Hfound.
Qed.

(** The loop ends within as many iterations as there are components in
    place. *)
Lemma sequence_loop_run fuel : ∀ st,
  sequence_inv keys support_adj st →
  (length (unremoved_set st) ≤ fuel)%nat →
  sequence_loop H fuel comp_data_map support_adj z_project_max st
  = Throw ApiException ∧ fails ∨
  ∃ st',
    sequence_loop H fuel comp_data_map support_adj z_project_max st
    = Return st' ∧
    sequence_inv keys support_adj st' ∧ unremoved_set st' = [].
Proof.
  induction fuel as [|fuel IH]; intros st Hinv Hfuel.
  - destruct (unremoved_set st) as [|u us] eqn:Hu; [|simpl in Hfuel; lia].
    right. exists st. simpl. rewrite Hu. by split_and!.
  - simpl. destruct (unremoved_set st) as [|u us] eqn:Hu.
    { right. exists st. by split_and!. }
    destruct (sequence_step_run st Hinv) as [[-> Hfail]|(st1 & -> & Hinv1 & Hlt)];
      [by rewrite Hu|by left|].
    simpl. apply IH; [done|]. rewrite Hu in Hlt. simpl in *. lia.
Qed.
End Sequence.

Lemma sequence_inv_init (keys U : list Z) (support_adj : gmap Z (list Z)) :
  NoDup U → U ≡ₚ keys →
  sequence_inv keys support_adj (SequenceState U [] []).
Proof.
  intros Hnd Hperm. split; simpl.
  - done.
  - done.
  - intros g Hg. by apply elem_of_nil in Hg.
  - intros x Hx. by apply elem_of_nil in Hx.
  - intros gi g x y Hgi. by rewrite lookup_nil in Hgi.
Qed.

(** The whole of [generate_macro_sequence]. *)
Lemma generate_macro_sequence_run H (comp_data_map : list (Z * component H))
    (support_adj : gmap Z (list Z)) :
  host_ok H → NoDup (comp_data_map.*1) →
  generate_macro_sequence H comp_data_map support_adj
  = Throw ApiException ∧
  profile_fails H comp_data_map (project_top H comp_data_map) ∨
  ∃ st,
    generate_macro_sequence H comp_data_map support_adj
    = Return (disassembly_sequence_groups st,
              reverse (disassembly_sequence_groups st), forced st) ∧
    sequence_inv (comp_data_map.*1) support_adj st ∧ unremoved_set st = [].
Proof.
  intros Hhost Hnd.
  destruct (decide (comp_data_map = [])) as [->|Hne].
  { right. exists (SequenceState [] [] []). split_and!; [done| |done].
    apply sequence_inv_init; [constructor|done]. }
  set (U := set_iteration H (comp_data_map.*1)).
  pose proof (Hhost _ Hnd) as HU. fold U in HU.
  assert (generate_macro_sequence H comp_data_map support_adj
          = st ← sequence_loop H (length U) comp_data_map support_adj
                   (project_top H comp_data_map) (SequenceState U [] []);
            Return (disassembly_sequence_groups st,
                    reverse (disassembly_sequence_groups st), forced st))
    as ->.
  { unfold generate_macro_sequence. by destruct comp_data_map. }
  destruct (sequence_loop_run H comp_data_map support_adj
              (project_top H comp_data_map) (length U)
              (SequenceState U [] []))
    as [[-> Hfail]|(st & -> & Hinv & Hdone)].
  - apply sequence_inv_init; [by rewrite HU|done].
  - done.
  - by left.
  - right. by exists st.
Qed.

Lemma box_host_ok : host_ok box_host.
Proof. by intros keys _. Qed.

Lemma portal_keys : NoDup (portal.*1).
Proof. apply (bool_decide_unpack (NoDup (portal.*1))). vm_compute. exact I. Qed.

(** On a dictionary, under any iteration order of sets,
    [generate_macro_sequence] leaves its loop: it returns, or the API has
    refused the profile of the box of some component; it raises no
    [KeyError].  When it returns, the disassembly groups share out the
    ids of the dictionary, each id in exactly one group; no group is
    empty; every group is strictly increasing; there are at most as many
    groups as components; the assembly groups are the disassembly groups
    in reverse order; and only ids of the dictionary are forced. *)
Theorem macro_sequence_partition H (comp_data_map : list (Z * component H))
    (support_adj : gmap Z (list Z)) :
  host_ok H → NoDup (comp_data_map.*1) →
  match generate_macro_sequence H comp_data_map support_adj with
  | Return (disassembly, assembly, forced) =>
      assembly = reverse disassembly ∧
      concat disassembly ≡ₚ comp_data_map.*1 ∧
      (∀ g, g ∈ disassembly → g ≠ [] ∧ StronglySorted Z.lt g) ∧
      (length disassembly ≤ length comp_data_map)%nat ∧
      (∀ x, x ∈ forced → x ∈ (comp_data_map.*1))
  | Throw e =>
      e = ApiException ∧
      profile_fails H comp_data_map (project_top H comp_data_map)
  | Unfinished => False
  end.
Proof.
  intros Hhost Hnd.
  destruct (generate_macro_sequence_run H comp_data_map support_adj
              Hhost Hnd) as [[-> Hfail]|(st & -> & Hinv & Hdone)]; [done|].
  destruct Hinv as [_ Hperm Hgroups Hforced _].
  rewrite Hdone, app_nil_r in Hperm.
  split_and!; [done|done|done| |].
  - rewrite <-(length_fmap fst comp_data_map), <-Hperm.
    apply concat_length_ge. intros g Hg. by apply Hgroups.
  - intros x Hx. rewrite <-Hperm. by apply Hforced.
Qed.

Lemma macro_sequence_partition_witness :
  host_ok box_host ∧ NoDup (portal.*1) ∧
  generate_macro_sequence box_host portal
    (calculate_support_constraint box_host portal)
  = Return ([[3]; [1; 2]], [[1; 2]; [3]], []) ∧
  concat [[3]; [1; 2]] ≡ₚ portal.*1.
Proof.
  split_and!; [exact box_host_ok|exact portal_keys|by vm_compute|].
  pose proof (macro_sequence_partition box_host portal
                (calculate_support_constraint box_host portal)
                box_host_ok portal_keys) as Hrun.
  assert (generate_macro_sequence box_host portal
            (calculate_support_constraint box_host portal)
          = Return ([[3]; [1; 2]], [[1; 2]; [3]], [])) as Heq
      by (by vm_compute).
  rewrite Heq in Hrun. by destruct Hrun as (_ & Hperm & _).
Defined.

(** In the groups [generate_macro_sequence] returns, whatever a component
    carries according to [support_adj], among the ids of the dictionary,
    is removed in a group before the group of the component, and so
    assembled in a group after it, unless the removal of the component
    was forced. *)
Theorem macro_sequence_respects_support H
    (comp_data_map : list (Z * component H))
    (support_adj : gmap Z (list Z)) disassembly assembly forced gi g x y :
  host_ok H → NoDup (comp_data_map.*1) →
  generate_macro_sequence H comp_data_map support_adj
  = Return (disassembly, assembly, forced) →
  disassembly !! gi = Some g → x ∈ g → x ∉ forced →
  y ∈ default [] (support_adj !! x) → y ∈ (comp_data_map.*1) →
  ∃ gj g',
    (gj < gi)%nat ∧ disassembly !! gj = Some g' ∧ y ∈ g' ∧
    assembly !! (length assembly - S gi)%nat = Some g ∧
    assembly !! (length assembly - S gj)%nat = Some g'.
Proof.
  intros Hhost Hnd Hrun Hgi Hx Hnf Hy Hkey.
  destruct (generate_macro_sequence_run H comp_data_map support_adj
              Hhost Hnd) as [[Hthrow _]|(st & Hrun' & Hinv & _)];
    [congruence|].
  rewrite Hrun' in Hrun. injection Hrun as <- <- <-.
  destruct (sq_order _ _ _ Hinv gi g x y Hgi Hx Hnf Hy Hkey)
    as (gj & g' & Hlt & Hgj & Hy').
  exists gj, g'. split_and!; [done|done|done| |].
  - pose proof (lookup_lt_Some _ _ _ Hgi) as Hlen.
    rewrite reverse_lookup, length_reverse
      by (rewrite length_reverse; lia).
    rewrite <-Hgi. f_equal. lia.
  - pose proof (lookup_lt_Some _ _ _ Hgj) as Hlen.
    rewrite reverse_lookup, length_reverse
      by (rewrite length_reverse; lia).
    rewrite <-Hgj. f_equal. lia.
Qed.

Lemma macro_sequence_respects_support_witness :
  ∃ gj g', (gj < 1)%nat ∧ [[3]; [1; 2]] !! gj = Some g' ∧ 3 ∈ g'.
Proof.
  destruct (macro_sequence_respects_support box_host portal
              (calculate_support_constraint box_host portal)
              [[3]; [1; 2]] [[1; 2]; [3]] [] 1%nat [1; 2] 1 3
              box_host_ok portal_keys)
    as (gj & g' & Hlt & Hgj & Hy & _).
  - by vm_compute.
  - done.
  - set_solver.
  - set_solver.
  - vm_compute. left.
  - vm_compute. set_solver.
  - by exists gj, g'.
Defined.

Lemma support_lookup H (comp_data_map : list (Z * component H)) i id_i
    (data_i : component H) :
  NoDup (comp_data_map.*1) →
  comp_data_map !! i = Some (id_i, data_i) →
  calculate_support_constraint H comp_data_map !! id_i
  = recorded (carried comp_data_map i data_i).
Proof.
  intros Hnd Hi.
  destruct (outer_loop_spec H comp_data_map (enumerate comp_data_map) ∅)
    as [Hin _].
  { by rewrite enumerate_keys. }
  { intros e _. apply lookup_empty. }
  apply Hin. by apply elem_of_enumerate.
Qed.

(** The analysis and the sequencing together: when a component of the
    dictionary rests on another one, its bottom within the tolerance of
    the top of the other and their boxes overlapping in plan, the carrier
    is assembled in a group strictly before the component that rests on
    it, unless the removal of the carrier was forced. *)
Theorem assembly_respects_rests_on H (comp_data_map : list (Z * component H))
    disassembly assembly forced i j x y (data_x data_y : component H) :
  host_ok H → NoDup (comp_data_map.*1) →
  generate_macro_sequence H comp_data_map
    (calculate_support_constraint H comp_data_map)
  = Return (disassembly, assembly, forced) →
  comp_data_map !! i = Some (x, data_x) →
  comp_data_map !! j = Some (y, data_y) → i ≠ j →
  (Qcabs (z_min data_y - z_max data_x) ≤ SUPPORT_TOLERANCE)%Qc →
  bbox_xy_overlap (bbox data_x) (bbox data_y) = true →
  x ∉ forced →
  ∃ px py gx gy,
    assembly !! px = Some gx ∧ x ∈ gx ∧
    assembly !! py = Some gy ∧ y ∈ gy ∧ (px < py)%nat.
Proof.
  intros Hhost Hnd Hrun Hi Hj Hne Hz Hxy Hnf.
  set (support_adj := calculate_support_constraint H comp_data_map) in *.
  destruct (generate_macro_sequence_run H comp_data_map support_adj
              Hhost Hnd) as [[Hthrow _]|(st & Hrun' & Hinv & Hdone)];
    [congruence|].
  rewrite Hrun' in Hrun. injection Hrun as <- <- <-.
  set (dis := disassembly_sequence_groups st) in *.
  assert (x ∈ (comp_data_map.*1)) as Hxkey.
  { apply list_elem_of_fmap. exists (x, data_x). split; [done|].
    by apply list_elem_of_lookup_2 in Hi. }
  assert (y ∈ (comp_data_map.*1)) as Hykey.
  { apply list_elem_of_fmap. exists (y, data_y). split; [done|].
    by apply list_elem_of_lookup_2 in Hj. }
  assert (y ∈ default [] (support_adj !! x)) as Hcar.
  { unfold support_adj. rewrite (support_lookup H _ i x data_x Hnd Hi).
    assert (y ∈ carried comp_data_map i data_x) as Hy.
    { apply elem_of_carried. exists j, data_y. by split_and!. }
    by destruct (carried comp_data_map i data_x). }
  pose proof (sq_perm _ _ _ Hinv) as Hperm.
  rewrite Hdone, app_nil_r in Hperm. fold dis in Hperm.
  rewrite <-Hperm in Hxkey.
  apply elem_of_concat in Hxkey as (gx & Hgx & Hxg).
  apply list_elem_of_lookup in Hgx as (gi & Hgi).
  destruct (sq_order _ _ _ Hinv gi gx x y Hgi Hxg Hnf Hcar Hykey)
    as (gj & gy & Hlt & Hgj & Hyg).
  fold dis in Hgj.
  pose proof (lookup_lt_Some _ _ _ Hgi) as Hlen.
  exists (length dis - S gi)%nat, (length dis - S gj)%nat, gx, gy.
  split_and!; [|done| |done|lia].
  - rewrite reverse_lookup by lia. rewrite <-Hgi. f_equal. lia.
  - rewrite reverse_lookup by lia. rewrite <-Hgj. f_equal. lia.
Qed.

Lemma assembly_respects_rests_on_witness :
  ∃ px py gx gy,
    [[1; 2]; [3]] !! px = Some gx ∧ 1 ∈ gx ∧
    [[1; 2]; [3]] !! py = Some gy ∧ 3 ∈ gy ∧ (px < py)%nat.
Proof.
  apply (assembly_respects_rests_on box_host portal
           [[3]; [1; 2]] [[1; 2]; [3]] [] 0%nat 2%nat 1 3
           (block 0 0 0 1 1 3) (block 0 0 3 5 1 4)
           box_host_ok portal_keys).
  - by vm_compute.
  - done.
  - done.
  - done.
  - by vm_compute.
  - by vm_compute.
  - set_solver.
Defined.

(** * The stand-in objective function *)










Lemma StronglySorted_ext {A} (R1 R2 : relation A) (l : list A) :
  (∀ x y, x ∈ l → y ∈ l → R1 x y → R2 x y) →
  StronglySorted R1 l → StronglySorted R2 l.
Proof.
  intros Himp Hs. induction Hs as [|x l Hs IH Hall]; constructor.
  - apply IH. intros a b Ha Hb. apply Himp; by right.
  - rewrite Forall_forall in *. intros y Hy.
    apply Himp; [left|by right|by apply Hall].
Qed.

(** A position without two equal coordinates leaves [np.argsort] no
    choice, and only the order of the coordinates counts: rescaling the
    coordinates by a strictly increasing function, or sorting with
    another admissible [np.argsort], gives the same sensors, hence the
    same three objectives. *)
Theorem evaluate_objectives_ranking (argsort argsort' : list efloat → list nat)
    (np_std : list nat → Qc) (f : Qc → Qc) (pos : vec) (pb : problem) :
  argsort_ok argsort → argsort_ok argsort' → NoDup pos →
  (∀ x y, (x < y)%Qc → (f x < f y)%Qc) →
  optimal_sensor_indices argsort' (f <$> pos) (n_sensors pb)
  = optimal_sensor_indices argsort pos (n_sensors pb) ∧
  evaluate_objectives argsort' np_std (f <$> pos) pb
  = evaluate_objectives argsort np_std pos pb.
Proof.
  intros Hok Hok' Hnd Hf.
  set (keys := Fin <$> pos). set (keys' := Fin <$> (f <$> pos)).
  assert (length keys = length pos) as Hlk
      by (unfold keys; by rewrite length_fmap).
  assert (length keys' = length pos) as Hlk'
      by (unfold keys'; by rewrite !length_fmap).
  assert (∀ a, (a < length pos)%nat → keys !!! a = Fin (pos !!! a)) as Hkey.
  { intros a Ha. unfold keys. by rewrite (list_lookup_total_fmap Fin). }
  assert (∀ a, (a < length pos)%nat → keys' !!! a = Fin (f (pos !!! a)))
    as Hkey'.
  { intros a Ha. unfold keys'.
    rewrite (list_lookup_total_fmap Fin) by (by rewrite length_fmap).
    by rewrite (list_lookup_total_fmap f). }
  destruct (Hok keys) as [Hperm Hsorted].
  destruct (Hok' keys') as [Hperm' Hsorted'].
  rewrite Hlk in Hperm. rewrite Hlk' in Hperm'.
  assert (argsort' keys' = argsort keys) as Heq.
  { apply (StronglySorted_unique_strong (key_le keys)).
    - intros a b Ha Hb Hab Hba.
      rewrite Hperm' in Ha. rewrite Hperm in Hb.
      apply elem_of_seq in Ha, Hb.
      unfold key_le in Hab, Hba. rewrite !Hkey in Hab, Hba by lia.
      simpl in Hab, Hba.
      apply (NoDup_lookup pos a b (pos !!! a) Hnd).
      + apply list_lookup_lookup_total_lt. lia.
      + rewrite (Qcle_antisym _ _ Hab Hba).
        apply list_lookup_lookup_total_lt. lia.
    - apply (StronglySorted_ext (key_le keys')); [|done].
      intros a b Ha Hb Hab.
      rewrite Hperm' in Ha, Hb. apply elem_of_seq in Ha, Hb.
      unfold key_le in *. rewrite !Hkey by lia. rewrite !Hkey' in Hab by lia.
      simpl in *. apply Qcnot_lt_le. intros Hlt.
      apply (Qclt_not_le _ _ (Hf _ _ Hlt)). done.
    - done.
    - by rewrite Hperm, Hperm'. }
  assert (optimal_sensor_indices argsort' (f <$> pos) (n_sensors pb)
          = optimal_sensor_indices argsort pos (n_sensors pb)) as Hidx.
  { unfold optimal_sensor_indices. fold keys keys'. by rewrite Heq. }
  split; [done|].
  unfold evaluate_objectives. by rewrite Hidx.
Qed.

Lemma evaluate_objectives_ranking_witness :
  optimal_sensor_indices merge_argsort
    ((λ x, x + 1)%Qc <$> [qfrac 1 2; qfrac 9 10; qfrac 1 10]) 2
  = optimal_sensor_indices merge_argsort
      [qfrac 1 2; qfrac 9 10; qfrac 1 10] 2.
Proof.
  destruct (evaluate_objectives_ranking merge_argsort merge_argsort
              (λ _, 0%Qc) (λ x, x + 1)%Qc
              [qfrac 1 2; qfrac 9 10; qfrac 1 10]
              (Problem 3 2 (Scalar 0%Qc) (Scalar 1%Qc))
              merge_argsort_ok merge_argsort_ok) as [H _]; [| |exact H].
  - apply (bool_decide_unpack (NoDup [qfrac 1 2; qfrac 9 10; qfrac 1 10])).
    vm_compute. exact I.
  - intros x y Hxy. qc_arith.
Defined.

(** * From the front to the printed compromise (lines 360-373) *)

Lemma select_best_compromise_run (front_pos front_scores : matrix) :
  length front_pos = length front_scores → front_scores ≠ [] →
  ∃ p k,
    select_best_compromise front_pos front_scores
    = Return (p, front_scores !!! k, k) ∧
    (k < length front_scores)%nat ∧ front_pos !! k = Some p.
Proof.
  intros Hlen Hne. unfold select_best_compromise.
  assert (0 < length front_scores)%nat as Hpos.
  { destruct front_scores; [done|simpl; lia]. }
  case_decide as Hone.
  - destruct (lookup_lt_is_Some_2 front_pos 0%nat) as [p Hp]; [lia|].
    rewrite Hp. exists p, 0%nat. by split_and!.
  - rewrite decide_False by lia.
    set (D := compromise_distances front_scores).
    destruct (np_argmin_spec D) as (Hk & _).
    { intros HD. apply (f_equal length) in HD.
      unfold D in HD. rewrite compromise_distances_length in HD.
      simpl in HD. lia. }
    unfold D in Hk at 2. rewrite compromise_distances_length in Hk.
    destruct (lookup_lt_is_Some_2 front_pos (np_argmin D)) as [p Hp];
      [lia|].
    rewrite Hp. exists p, (np_argmin D). by split_and!.
Qed.

(** The pipeline of [main]: on the front that [moho] returns, if it has a
    row, [select_best_compromise] raises nothing; the compromise it
    returns is a position of the front together with the evaluator's
    answer at that position, and no score of the front dominates it. *)
Theorem compromise_of_returned_front G L argsort evaluate_objectives
    (pop_size max_gen : Z) (pb : problem) :
  argsort_ok argsort →
  (∀ x, length (evaluate_objectives x pb) = 3%nat) →
  hoare (λ _, True)
        (moho G L argsort evaluate_objectives pop_size max_gen pb)
        (λ front _,
           front.1 ≠ [] →
           ∃ best_pos best_scores k,
             select_best_compromise front.1 front.2
             = Return (best_pos, best_scores, k) ∧
             front.1 !! k = Some best_pos ∧
             best_scores = evaluate_objectives best_pos pb ∧
             ∀ s, s ∈ front.2 → ¬ dominates s best_scores).
Proof.
  intros Hok Hlen. unfold moho.
  eapply hoare_bind; [by apply evaluated_evolve|]. intros P w [HP Hrk].
  destruct (first_front_run argsort evaluate_objectives pop_size pb Hlen
              P w HP Hrk) as (-> & _ & _ & Hidx & Hrows).
  set (idx := np_where (λ r, r =? 1) (ranks P)) in *.
  set (p := heap w !!! pos P) in *. set (s := heap w !!! scores P) in *.
  simpl. intros Hne.
  destruct (select_best_compromise_run (take_rows p idx) (take_rows s idx))
    as (best_pos & k & Hrun & Hk & Hbest).
  { by rewrite !take_rows_length. }
  { intros Hnil. apply Hne. apply (f_equal length) in Hnil.
    rewrite take_rows_length in Hnil. by destruct idx. }
  rewrite take_rows_length in Hk.
  exists best_pos, (take_rows s idx !!! k), k. split_and!; [done|done| |].
  - rewrite Hrows by done. f_equal.
    by apply list_lookup_total_correct.
  - rewrite take_rows_lookup by done.
    intros b (j & -> & Hj)%list_elem_of_fmap.
    assert (idx !!! k ∈ idx) as Hin by (by apply list_elem_of_lookup_total_2).
    apply Hidx in Hin as [_ Hnone]. apply Hidx in Hj as [Hj _].
    by apply Hnone.
Qed.

Lemma compromise_of_returned_front_witness :
  argsort_ok merge_argsort ∧
  returns (moho lcg_source toy_math merge_argsort toy_objectives 4 1
                (unit_box 2) (empty_world 7)) ∧
  match moho lcg_source toy_math merge_argsort toy_objectives 4 1
             (unit_box 2) (empty_world 7) with
  | Ok front _ =>
      front.1 ≠ [] →
      ∃ r, select_best_compromise front.1 front.2 = Return r
  | _ => True
  end.
Proof.
  split_and!; [apply merge_argsort_ok|by vm_compute|].
  pose proof (compromise_of_returned_front lcg_source toy_math merge_argsort
                toy_objectives 4 1 (unit_box 2) merge_argsort_ok
                (λ _, eq_refl) (empty_world 7) I) as Hrun.
  destruct (moho _ _ _ _ _ _ _ (empty_world 7)) as [front w| |]; [|done..].
  intros Hne. destruct (Hrun Hne) as (p & s & k & Hsel & _).
  by eexists.
Defined.

(** * Reading the components, and the main flow *)

Lemma dict_set_keys {A} (d : list (Z * A)) k v x :
  x ∈ ((dict_set d k v).*1) ↔ x = k ∨ x ∈ (d.*1).
Proof.
  induction d as [|[k' v'] d IH]; simpl.
  - rewrite list_elem_of_singleton. split; [by left|].
    intros [?|Hx]; [done|by apply elem_of_nil in Hx].
  - case_decide as Hk; simpl.
    + subst k'. rewrite elem_of_cons. tauto.
    + rewrite !elem_of_cons, IH. tauto.
Qed.

Lemma dict_set_NoDup {A} (d : list (Z * A)) k v :
  NoDup (d.*1) → NoDup ((dict_set d k v).*1).
Proof.
  induction d as [|[k' v'] d IH]; simpl; intros Hnd.
  - apply NoDup_singleton.
  - apply NoDup_cons in Hnd as [Hk' Hnd]. case_decide as Hk; simpl.
    + by apply NoDup_cons.
    + apply NoDup_cons. split; [|by apply IH].
      rewrite dict_set_keys. intros [?|?]; [congruence|done].
Qed.

Lemma dict_set_elem {A} (d : list (Z * A)) k v e :
  e ∈ dict_set d k v → e = (k, v) ∨ e ∈ d.
Proof.
  induction d as [|[k' v'] d IH]; simpl.
  - intros ->%list_elem_of_singleton. by left.
  - case_decide as Hk.
    + subst k'. intros [->|He]%elem_of_cons; [by left|right; by right].
    + intros [->|He]%elem_of_cons; [right; left|].
      destruct (IH He) as [?|?]; [by left|right; by right].
Qed.

Lemma elem_of_solid_geos {H} (geometry : list (GeometryObject H)) s :
  s ∈ solid_geos geometry ↔
  ∃ volume, SolidGeometry s volume ∈ geometry ∧ (0 < volume)%Qc.
Proof.
  unfold solid_geos. rewrite list_elem_of_omap. split.
  - intros ([s' v|] & Hin & Hs); [|done].
    case_decide; [|done]. injection Hs as ->. by exists v.
  - intros (v & Hin & Hv). exists (SolidGeometry s v). split; [done|].
    by rewrite decide_True.
Qed.

Lemma kept_alt {H} (elem : Element H) :
  kept elem ↔
  is_Some (BoundingBox elem) ∧
  ∃ geometry, Geometry elem = Some geometry ∧ solid_geos geometry ≠ [].
Proof.
  unfold kept. split.
  - intros [Hb (geometry & s & v & Hg & Hin & Hv)]. split; [done|].
    exists geometry. split; [done|]. intros Hnil.
    assert (s ∈ solid_geos geometry) as Hs
        by (apply elem_of_solid_geos; by exists v).
    rewrite Hnil in Hs. by apply elem_of_nil in Hs.
  - intros [Hb (geometry & Hg & Hne)]. split; [done|].
    destruct (solid_geos geometry) as [|s l] eqn:Hs; [done|].
    assert (s ∈ solid_geos geometry) as Hin by (rewrite Hs; left).
    apply elem_of_solid_geos in Hin as (v & Hin & Hv).
    by exists geometry, s, v.
Qed.

(** One element: the map is left alone, or gets the entry of the
    element. *)
Lemma parse_element_run {H} (component_data_map : list (Z * component H))
    (elem : Element H) :
  parse_element component_data_map elem = Throw TypeError ∧
  is_Some (BoundingBox elem) ∧ Geometry elem = None ∨
  parse_element component_data_map elem = Return component_data_map ∧
  ¬ kept elem ∨
  ∃ entry,
    parse_element component_data_map elem
    = Return (dict_set component_data_map entry.1 entry.2) ∧
    kept elem ∧ read_from elem entry.
Proof.
  unfold parse_element.
  destruct (BoundingBox elem) as [b|] eqn:Hb.
  2:{ right. left. split; [done|].
      intros [Hsome _]. rewrite Hb in Hsome. by destruct Hsome. }
  destruct (Geometry elem) as [geometry|] eqn:Hg.
  2:{ left. by split_and!. }
  destruct (solid_geos geometry) as [|s l] eqn:Hs.
  { right. left. split; [done|].
    intros (_ & g' & Hg' & Hne)%kept_alt. rewrite Hg in Hg'.
    injection Hg' as <-. done. }
  right. right.
  exists (Id elem, Component b (coord_Z (Min b)) (coord_Z (Max b)) s).
  assert (s ∈ solid_geos geometry) as Hin by (rewrite Hs; left).
  apply elem_of_solid_geos in Hin as (v & Hin & Hv).
  split_and!.
  - done.
  - split; [by rewrite Hb|]. by exists geometry, s, v.
  - unfold read_from. simpl. split_and!; try done.
    by exists geometry, v.
Qed.

Lemma parse_loop_run {H} (components : list (Element H)) :
  ∀ component_data_map : list (Z * component H),
    NoDup (component_data_map.*1) →
    parse_loop components component_data_map = Throw TypeError ∧
    (∃ elem, elem ∈ components ∧ is_Some (BoundingBox elem) ∧
             Geometry elem = None) ∨
    ∃ parsed,
      parse_loop components component_data_map = Return parsed ∧
      NoDup (parsed.*1) ∧
      (∀ x, x ∈ (parsed.*1) ↔
            x ∈ (component_data_map.*1) ∨
            ∃ elem, elem ∈ components ∧ kept elem ∧ Id elem = x) ∧
      (∀ entry, entry ∈ parsed →
                entry ∈ component_data_map ∨
                ∃ elem, elem ∈ components ∧ read_from elem entry).
Proof.
  induction components as [|elem components IH];
    intros component_data_map Hnd; simpl.
  { right. exists component_data_map. split_and!; [done|done| |by left].
    intros x. split; [by left|].
    intros [?|(e & He & _)]; [done|by apply elem_of_nil in He]. }
  destruct (parse_element_run component_data_map elem)
    as [(-> & Hb & Hg)|[(-> & Hskip)|(entry & -> & Hkept & Hread)]].
  - left. split; [done|]. exists elem. split_and!; [left|done|done].
  - simpl. destruct (IH component_data_map Hnd)
      as [(-> & e & He & Hb & Hg)|(parsed & -> & Hnd' & Hkeys & Hentries)].
    + left. split; [done|]. exists e. split_and!; [by right|done|done].
    + right. exists parsed. split_and!; [done|done| |].
      * intros x. rewrite Hkeys. split.
        -- intros [?|(e & He & Hk & Hid)]; [by left|].
           right. exists e. split_and!; [by right|done|done].
        -- intros [?|(e & [->|He]%elem_of_cons & Hk & Hid)]; [by left|done|].
           right. by exists e.
      * intros entry Hentry.
        destruct (Hentries entry Hentry) as [?|(e & He & Hr)]; [by left|].
        right. exists e. split; [by right|done].
  - simpl.
    destruct (IH (dict_set component_data_map entry.1 entry.2))
      as [(-> & e & He & Hb & Hg)|(parsed & -> & Hnd' & Hkeys & Hentries)].
    { by apply dict_set_NoDup. }
    + left. split; [done|]. exists e. split_and!; [by right|done|done].
    + right. exists parsed. split_and!; [done|done| |].
      * intros x. rewrite Hkeys, dict_set_keys.
        destruct Hread as (Hid & _). split.
        -- intros [[->|?]|(e & He & Hk & Hide)].
           ++ right. exists elem. split_and!; [left|done|done].
           ++ by left.
           ++ right. exists e. split_and!; [by right|done|done].
        -- intros [?|(e & [->|He]%elem_of_cons & Hk & Hide)].
           ++ left. by right.
           ++ left. left. congruence.
           ++ right. by exists e.
      * intros entry' Hentry.
        destruct (Hentries entry' Hentry) as [Hset|(e & He & Hr)].
        -- apply dict_set_elem in Hset as [->|?]; [|by left].
           right. exists elem. split; [left|]. by destruct entry.
        -- right. exists e. split; [by right|done].
Qed.


(** The main flow, from the collected elements on, under any iteration
    order of sets: it ends with the message that nothing was found
    exactly when no element has a box and a solid of positive volume;
    otherwise, unless an element with a box has no geometry or the API
    refuses a profile, it returns, and then the disassembly groups share
    out the ids of the elements that have a box and a solid, each id in
    one group only, the component count is their number, the assembly
    groups are the disassembly groups reversed, and the support lists
    are those of the parsed dictionary. *)
Theorem main_sequences_components H (raw_components : list (Element H)) :
  host_ok H →
  match main H raw_components with
  | Return None =>
      ∀ elem, elem ∈ raw_components → ¬ kept elem
  | Return (Some (component_count, support_adj, disassembly, assembly)) =>
      NoDup (concat disassembly) ∧
      (∀ x, x ∈ concat disassembly ↔
            ∃ elem, elem ∈ raw_components ∧ kept elem ∧ Id elem = x) ∧
      component_count = length (concat disassembly) ∧
      (0 < component_count)%nat ∧
      assembly = reverse disassembly ∧
      (∀ g, g ∈ disassembly → g ≠ [] ∧ StronglySorted Z.lt g) ∧
      (∀ x l, support_adj !! x = Some l → x ∈ concat disassembly ∧
                                          ∀ y, y ∈ l → y ∈ concat disassembly)
  | Throw e => e = TypeError ∨ e = ApiException
  | Unfinished => False
  end.
Proof.
  intros Hhost. unfold main. unfold parse_component_data.
  destruct (parse_loop_run raw_components [])
    as [(-> & Hcause)|(parsed & -> & Hnd & Hkeys & Hentries)].
  { constructor. }
  { by left. }
  simpl.
  assert (∀ x, x ∈ (parsed.*1) ↔
            ∃ elem, elem ∈ raw_components ∧ kept elem ∧ Id elem = x)
    as Hkeys'.
  { intros x. rewrite Hkeys. split.
    - intros [Hx|?]; [by apply elem_of_nil in Hx|done].
    - intros ?. by right. }
  destruct (decide (parsed = [])) as [->|Hne].
  { intros elem Helem Hkept.
    assert (Id elem ∈ ([] : list (Z * component H)).*1) as Hin
        by (apply Hkeys'; by exists elem).
    by apply elem_of_nil in Hin. }
  set (support_adj := calculate_support_constraint H parsed).
  assert (match parsed with
          | [] => Return None
          | _ :: _ =>
              '(disassembly_groups, assembly_groups, _) ←
                generate_macro_sequence H parsed support_adj;
              Return (Some (length parsed, support_adj,
                            disassembly_groups, assembly_groups))
          end
          = ('(disassembly_groups, assembly_groups, _) ←
               generate_macro_sequence H parsed support_adj;
             Return (Some (length parsed, support_adj,
                           disassembly_groups, assembly_groups))))
    as -> by (by destruct parsed).
  destruct (generate_macro_sequence_run H parsed support_adj Hhost Hnd)
    as [[-> _]|(st & -> & Hinv & Hdone)]; [by right|].
  simpl. destruct Hinv as [_ Hperm Hgroups _ _].
  rewrite Hdone, app_nil_r in Hperm.
  split_and!.
  - by rewrite Hperm.
  - intros x. by rewrite Hperm.
  - by rewrite Hperm, length_fmap.
  - destruct parsed; [done|simpl; lia].
  - done.
  - done.
  - intros x l Hl.
    destruct (decide (x ∈ (parsed.*1))) as [Hx|Hx].
    2:{ destruct (outer_loop_spec H parsed (enumerate parsed) ∅)
          as [_ Hout].
        { by rewrite enumerate_keys. }
        { intros e _. apply lookup_empty. }
        rewrite enumerate_keys in Hout.
        unfold support_adj, calculate_support_constraint in Hl.
        rewrite (Hout x Hx), lookup_empty in Hl. done. }
    split; [by rewrite Hperm|].
    apply list_elem_of_fmap in Hx as ([x' data_x] & -> & Hx).
    apply list_elem_of_lookup in Hx as (i & Hi). simpl in *.
    unfold support_adj in Hl.
    rewrite (support_lookup H parsed i x' data_x Hnd Hi) in Hl.
    intros y Hy. rewrite Hperm.
    assert (y ∈ carried parsed i data_x) as Hcar.
    { destruct (carried parsed i data_x); [done|].
      simpl in Hl. by injection Hl as <-. }
    apply elem_of_carried in Hcar as (j & data_j & Hj & _).
    apply list_elem_of_fmap. exists (y, data_j). split; [done|].
    by apply list_elem_of_lookup_2 in Hj.
Qed.

Lemma main_sequences_components_witness :
  host_ok box_host ∧
  main box_host portal_elements
  = Return (Some (3%nat, calculate_support_constraint box_host portal,
                  [[3]; [1; 2]], [[1; 2]; [3]])) ∧
  NoDup (concat [[3]; [1; 2]]).
Proof.
  split_and!; [exact box_host_ok|by vm_compute|].
  pose proof (main_sequences_components box_host portal_elements
                box_host_ok) as Hrun.
  assert (main box_host portal_elements
          = Return (Some (3%nat, calculate_support_constraint box_host portal,
                          [[3]; [1; 2]], [[1; 2]; [3]]))) as Heq
      by (by vm_compute).
  rewrite Heq in Hrun. by destruct Hrun as (Hnd & _).
Defined.
